(** * BEKK covariance model: the estimation engine of [bekk]

    A shallow embedding of the numerical core of the repository
    ([utils.py], [param_generic.py], [bekk.py]) and the properties its
    specification states about it.

    Arrays are row-major lists, as numpy has them.  The floating-point
    scalars and their operations are an interface ([Scalar]), so that
    everything proved without assumptions on the arithmetic holds for
    IEEE floats as well; the algebraic results are proved in exact real
    arithmetic (instance [R_scalar]) and concrete runs use binary64
    (instance [float_scalar]). *)

From Stdlib Require Import List Arith Lia Bool ZArith Reals Lra Floats Uint63
  FunctionalExtensionality.
Import ListNotations.

Set Implicit Arguments.

(** ** Exceptions *)

(** The Python exceptions the modelled code can meet. *)
Inductive exn : Set :=
| LinAlgError
| ValueError
| RuntimeError
| AttributeError
| IndexError.

(** A call either returns a value or raises. *)
Inductive outcome (A : Type) : Type :=
| Return (a : A)
| Raise (e : exn).

Arguments Return {A} a.
Arguments Raise {A} e.

Definition bind {A B : Type} (m : outcome A) (k : A -> outcome B) : outcome B :=
  match m with
  | Return a => k a
  | Raise e => Raise e
  end.

Notation "x <- m ;; k" := (bind m (fun x => k))
  (at level 61, m at next level, right associativity).

(** ** Scalars *)

(** The floating-point operations the code uses: conversion from an integer,
    the four operations, square root, absolute value and the two
    comparisons (which are [false] whenever an operand is NaN). *)
Class Scalar (F : Type) : Type := {
  of_Z : Z -> F;
  fadd : F -> F -> F;
  fsub : F -> F -> F;
  fmul : F -> F -> F;
  fdiv : F -> F -> F;
  fsqrt : F -> F;
  fabs : F -> F;
  fle : F -> F -> bool;
  flt : F -> F -> bool
}.

Section Arrays.

Context {F : Type} `{Scalar F}.

Definition fzero : F := of_Z 0.
Definition fone : F := of_Z 1.

(** [np.isnan]: NaN is the only value that is not [<=] itself. *)
Definition isnan (x : F) : bool := negb (fle x x).

(** [np.isfinite]: [x - x] is NaN exactly for the infinities and NaN. *)
Definition isfinite (x : F) : bool := negb (isnan (fsub x x)).

(** The NaN that numpy stores when [None] is written into a float array. *)
Definition fnan : F := fdiv fzero fzero.

Definition vec : Type := list F.
Definition matrix : Type := list (list F).

Fixpoint zip_with {A B C : Type} (f : A -> B -> C) (l : list A) (m : list B)
  : list C :=
  match l, m with
  | a :: l', b :: m' => f a b :: zip_with f l' m'
  | _, _ => []
  end.

(** [a.sum()] on a one-dimensional array. *)
Definition vsum (v : vec) : F := fold_left fadd v fzero.

(** [(u * v).sum()], the inner product of two vectors. *)
Definition vdot (u v : vec) : F := vsum (zip_with fmul u v).

Definition nrows (M : matrix) : nat := length M.
Definition ncols (M : matrix) : nat := length (hd [] M).

(** [M[i, j]]. *)
Definition entry (M : matrix) (i j : nat) : F := nth j (nth i M []) fzero.

(** [M.T]. *)
Definition transpose (M : matrix) : matrix :=
  map (fun j => map (fun row => nth j row fzero) M) (seq 0 (ncols M)).

(** [A.dot(B)] for two-dimensional arrays. *)
Definition dot (A B : matrix) : matrix :=
  map (fun row => map (fun col => vdot row col) (transpose B)) A.

(** [A.dot(x)] for a matrix and a vector. *)
Definition mat_vec (A : matrix) (x : vec) : vec :=
  map (fun row => vdot row x) A.

(** [A + B] and [A - B], element by element. *)
Definition madd (A B : matrix) : matrix := zip_with (zip_with fadd) A B.
Definition msub (A B : matrix) : matrix := zip_with (zip_with fsub) A B.

(** [k * M] and [M / k] for a scalar [k]. *)
Definition smul (k : F) (M : matrix) : matrix := map (map (fmul k)) M.
Definition sdiv (M : matrix) (k : F) : matrix := map (map (fun x => fdiv x k)) M.

(** [np.eye(n)] and [np.zeros((r, c))]. *)
Definition eye (n : nat) : matrix :=
  map (fun i => map (fun j => if Nat.eqb i j then fone else fzero) (seq 0 n))
      (seq 0 n).
Definition zeros (r c : nat) : matrix := repeat (repeat fzero c) r.

(** [np.kron(A, B)]. *)
Definition kron (A B : matrix) : matrix :=
  flat_map
    (fun rowA =>
       map (fun rowB => flat_map (fun a => map (fun b => fmul a b) rowB) rowA) B)
    A.

(** [np.diag(M)] of a two-dimensional array. *)
Definition diag (M : matrix) : vec :=
  map (fun i => entry M i i) (seq 0 (Nat.min (nrows M) (ncols M))).

(** [l[a:b]], and [l[a:b] = v] for [v] of length [b - a] with
    [b <= len(l)]. *)
Definition slice {A : Type} (a b : nat) (l : list A) : list A :=
  firstn (b - a) (skipn a l).
Definition set_slice {A : Type} (a b : nat) (l v : list A) : list A :=
  firstn a l ++ v ++ skipn b l.

(** [M[a:b, a:b]], and [M[a:b, a:b] = V] for [V] of shape
    [(b - a, b - a)] with the block inside [M]. *)
Definition get_block (M : matrix) (a b : nat) : matrix :=
  map (slice a b) (slice a b M).
Definition set_block (M : matrix) (a b : nat) (V : matrix) : matrix :=
  firstn a M ++ zip_with (fun row v => set_slice a b row v) (slice a b M) V
    ++ skipn b M.

(** An array of shape [(r, c)]. *)
Definition is_shape (r c : nat) (M : matrix) : Prop :=
  length M = r /\ Forall (fun row => length row = c) M.

(** ** [utils.py]: the covariance filter *)

(** [innov[:, np.newaxis, :] * innov[:, :, np.newaxis]]: entry [(t, i, j)]
    is [innov[t, j] * innov[t, i]]. *)
Definition outer (u : vec) : matrix :=
  map (fun ui => map (fun uj => fmul uj ui) u) u.
Definition outer_products (innov : matrix) : list matrix := map outer innov.

(** The right-hand side assigned in the loop body. *)
Definition filter_rhs (cc_mat a_mat b_mat hone htwo : matrix) : matrix :=
  madd (madd cc_mat (dot (dot a_mat hone) (transpose a_mat)))
       (dot (dot b_mat htwo) (transpose b_mat)).

(** One iteration of the loop of [filter_var], for index [i]. *)
Definition filter_step (nstocks : nat) (cc_mat a_mat b_mat : matrix)
    (innov2 : list matrix) (hvar : matrix) (i : nat) : matrix :=
  let idx1 := ((i - 1) * nstocks, i * nstocks) in
  let idx2 := (i * nstocks, (i + 1) * nstocks) in
  set_block hvar (fst idx2) (snd idx2)
    (filter_rhs cc_mat a_mat b_mat (nth (i - 1) innov2 [])
       (get_block hvar (fst idx1) (snd idx1))).

(** [filter_var(hvar, innov, c_mat, a_mat, b_mat)]: [hvar] is the
    two-dimensional buffer whose diagonal [nstocks x nstocks] blocks are
    the covariance slots. *)
Definition filter_var (hvar innov c_mat a_mat b_mat : matrix) : matrix :=
  let nobs := nrows innov in
  let nstocks := ncols innov in
  let cc_mat := dot c_mat (transpose c_mat) in
  let innov2 := outer_products innov in
  fold_left (filter_step nstocks cc_mat a_mat b_mat innov2)
            (seq 1 (nobs - 1)) hvar.

(** [estimate_h0(innov)]: [innov.T.dot(innov) / innov.shape[0]]. *)
Definition estimate_h0 (innov : matrix) : matrix :=
  sdiv (dot (transpose innov) innov) (of_Z (Z.of_nat (nrows innov))).

(** ** The numerical libraries *)

(** The factor object of [scipy.sparse.linalg.splu]: its [U] attribute
    (as a dense array) and its [solve] method. *)
Record SuperLU : Type := {
  factor_U : matrix;
  factor_solve : vec -> vec
}.

(** The library routines whose code is outside the repository are taken
    as they come, each behind its own interface. *)

(** [scipy.linalg.eigvals]: the eigenvalues as complex numbers
    [(re, im)]; raises on non-finite or non-square input and when LAPACK
    does not converge. *)
Class Eigvals : Type := {
  sl_eigvals : matrix -> outcome (list (F * F))
}.

(** [scipy.optimize.fixed_point] with its default tolerance and iteration
    bound; raises [RuntimeError] when the iteration does not converge. *)
Class FixedPoint : Type := {
  sco_fixed_point : (matrix -> matrix) -> matrix -> outcome matrix
}.

(** [scipy.sparse.linalg.splu]; raises [RuntimeError] on an exactly
    singular matrix. *)
Class SpLU : Type := {
  scs_splu : matrix -> outcome SuperLU
}.

(** [numpy.log] on a float. *)
Class Log : Type := {
  np_log : F -> F
}.

(** [np.abs] of a complex number. *)
Definition cabs (z : F * F) : F :=
  fsqrt (fadd (fmul (fst z) (fst z)) (fmul (snd z) (snd z))).

(** [np.maximum] of two floats: a NaN operand is the result. *)
Definition np_maximum (a b : F) : F :=
  if isnan a then a else if isnan b then b else if fle a b then b else a.

(** [a.max()]: raises on an empty array. *)
Definition amax (v : vec) : outcome F :=
  match v with
  | [] => Raise ValueError
  | x :: rest => Return (fold_left np_maximum rest x)
  end.

(** LAPACK's [potrf] on the lower triangle of an [n x n] array, in its
    right-looking form: the pivot must be positive (a NaN pivot fails the
    test as well), the first column is divided by its square root and the
    trailing block is reduced by the outer product of that column.
    [None] is a positive [info]. *)
Fixpoint potrf_lower (n : nat) (M : matrix) : option matrix :=
  match n with
  | 0 => Some []
  | S n' =>
      match M with
      | (a :: _) :: rest =>
          if flt fzero a then
            let l := fsqrt a in
            let col := map (fun row => fdiv (hd fzero row) l) rest in
            let trailing :=
              msub (map (@tl F) rest)
                   (map (fun ci => map (fun cj => fmul ci cj) col) col) in
            match potrf_lower n' trailing with
            | Some L' =>
                Some ((l :: repeat fzero n') :: zip_with cons col L')
            | None => None
            end
          else None
      | _ => None
      end
  end.

(** [scipy.linalg.cholesky(a, lower=True)]: the input is checked to be
    finite and square ([ValueError] otherwise), then factored; a positive
    [info] of [potrf] is a [LinAlgError].  The strict upper triangle of
    the result is zero. *)
Definition sl_cholesky_lower (a : matrix) : outcome matrix :=
  if negb (forallb (forallb isfinite) a) then Raise ValueError
  else if negb (forallb (fun row => Nat.eqb (length row) (nrows a)) a)
  then Raise ValueError
  else match potrf_lower (nrows a) a with
       | Some L => Return L
       | None => Raise LinAlgError
       end.

(** [scipy.optimize.fixed_point] as scipy implements it (method
    ['del2'], Steffensen's iteration with Aitken's acceleration, element
    by element): [xtol = 1e-8], [maxiter = 500]. *)
Definition fneq (a b : F) : bool := negb (fle a b && fle b a).

Definition del2_entry (q : (F * F) * (F * F)) : F :=
  let '((p0, p1), (d, p2)) := q in
  if fneq d fzero
  then fsub p0 (fdiv (fmul (fsub p1 p0) (fsub p1 p0)) d)
  else p2.

Definition relerr_entry (q : F * F) : F :=
  let '(p, p0) := q in
  if fneq p0 fzero then fdiv (fsub p p0) p0 else p.

Definition mzip {A B : Type} (X : list (list A)) (Y : list (list B))
  : list (list (A * B)) :=
  zip_with (zip_with pair) X Y.

Definition xtol : F := fdiv (of_Z 1) (of_Z 100000000).

Fixpoint fixed_point_helper (func : matrix -> matrix) (p0 : matrix)
    (maxiter : nat) : outcome matrix :=
  match maxiter with
  | 0 => Raise RuntimeError
  | S remaining =>
      let p1 := func p0 in
      let p2 := func p1 in
      let d := madd (msub p2 (smul (of_Z 2) p1)) p0 in
      let p := map (map del2_entry) (mzip (mzip p0 p1) (mzip d p2)) in
      let relerr := map (map relerr_entry) (mzip p p0) in
      if forallb (forallb (fun e => flt (fabs e) xtol)) relerr
      then Return p
      else fixed_point_helper func p remaining
  end.

Definition scipy_fixed_point (func : matrix -> matrix) (x0 : matrix)
  : outcome matrix :=
  if forallb (forallb isfinite) x0
  then fixed_point_helper func x0 500
  else Raise ValueError.

(** ** [utils.py]: the likelihood *)

(** [likelihood(hvar, innov)]. *)
Definition likelihood {L : SpLU} {G : Log} (hvar innov : matrix) : outcome F :=
  factor <- scs_splu hvar ;;
  let diag_factor := diag (factor_U factor) in
  let innov := concat innov in
  let det :=
    vsum (map (fun d => np_log (fabs d))
              (filter (fun d => negb (isnan d)) diag_factor)) in
  Return (fadd det (vsum (zip_with fmul (factor_solve factor innov) innov))).

(** ** [param_generic.py] *)

(** The attributes of a [ParamGeneric] object; [cmat] is [None] when the
    parameter set is infeasible. *)
Record ParamGeneric : Type := {
  amat : matrix;
  bmat : matrix;
  cmat : option matrix
}.

(** [ParamGeneric.from_abc]: the three attributes set by the constructor
    are all overwritten by the arguments. *)
Definition from_abc (amat bmat : matrix) (cmat : option matrix)
  : ParamGeneric :=
  {| amat := amat; bmat := bmat; cmat := cmat |}.

(** The matrix [ccmat] of [find_cmat]. *)
Definition find_cmat_ccmat (amat bmat target : matrix) : matrix :=
  msub (msub target (dot (dot amat target) (transpose amat)))
       (dot (dot bmat target) (transpose bmat)).

(** [ParamGeneric.find_cmat]: only [LinAlgError] is caught. *)
Definition find_cmat (amat bmat target : matrix) : outcome (option matrix) :=
  let ccmat := find_cmat_ccmat amat bmat target in
  match sl_cholesky_lower ccmat with
  | Return c => Return (Some c)
  | Raise LinAlgError => Return None
  | Raise e => Raise e
  end.

(** [ParamGeneric.from_target] with [amat] and [bmat] given. *)
Definition from_target (amat bmat target : matrix) : outcome ParamGeneric :=
  cmat <- find_cmat amat bmat target ;;
  Return (from_abc amat bmat cmat).

(** [ParamGeneric.fixed_point]. *)
Definition fixed_point (uvar amat bmat ccmat : matrix) : matrix :=
  msub (msub (msub (smul (of_Z 2) uvar) ccmat)
             (dot (dot amat uvar) (transpose amat)))
       (dot (dot bmat uvar) (transpose bmat)).

(** [ParamGeneric.find_stationary_var]: only [RuntimeError] is caught. *)
Definition find_stationary_var {S : FixedPoint} (amat bmat cmat : matrix)
  : outcome (option matrix) :=
  let hvar := eye (nrows amat) in
  let ccmat := dot cmat (transpose cmat) in
  let fun_ := fun uvar => fixed_point uvar amat bmat ccmat in
  match sco_fixed_point fun_ hvar with
  | Return h => Return (Some h)
  | Raise RuntimeError => Return None
  | Raise e => Raise e
  end.

(** [ParamGeneric.get_uvar]: [cmat.dot] on [None] is an
    [AttributeError]. *)
Definition get_uvar {S : FixedPoint} (self : ParamGeneric) : outcome (option matrix) :=
  match cmat self with
  | Some c => find_stationary_var (amat self) (bmat self) c
  | None => Raise AttributeError
  end.

(** The Kronecker-sum matrix of [constraint]. *)
Definition kron_sum (amat bmat : matrix) : matrix :=
  madd (kron amat amat) (kron bmat bmat).

(** [ParamGeneric.constraint]. *)
Definition constraint {E : Eigvals} (self : ParamGeneric) : outcome F :=
  let kron_a := kron (amat self) (amat self) in
  let kron_b := kron (bmat self) (bmat self) in
  eigs <- sl_eigvals (madd kron_a kron_b) ;;
  amax (map cabs eigs).

(** ** [bekk.py]: the estimation class *)

(** The [restriction] strings ['full'], ['diagonal'] and ['scalar']. *)
Inductive restriction : Set :=
| full
| diagonal
| scalar.

(** What [BEKK.likelihood] reads of [self.param_start]. *)
Record StartParams : Type := {
  start_theta : vec;
  start_restriction : restriction
}.

(** The attributes of a [BEKK] object that the modelled methods use;
    [hvar] is a three-dimensional array [(nobs, nstocks, nstocks)]. *)
Record BEKK : Type := {
  innov : matrix;
  param_start : option StartParams;
  cython : bool;
  hvar : option (list matrix)
}.

Definition set_hvar (self : BEKK) (h : list matrix) : BEKK :=
  {| innov := innov self;
     param_start := param_start self;
     cython := cython self;
     hvar := Some h |}.

(** Modelled from the spec: the modules [bekkparams], [recursion] and
    [likelihood] and the functions [filter_var_python] and
    [likelihood_python] that [bekk.py] imports are not under src/.  They
    are taken as they come:
    - [BEKKParams theta target nstocks restriction] decodes the flat
      vector into a parameter object (section 4.1: it "produces matrices
      A, B and either accepts a supplied C or derives it"), whose
      [constraint] and unconditional variance are those of
      [ParamGeneric];
    - [recursion] and [filter_var_python] take
      [(hvar, innov, amat, bmat, cmat)] and fill the buffer;
    - [likelihood_cy] and [likelihood_python] take [(hvar, innov)] and
      return the value of the objective. *)
Class Collaborators : Type := {
  BEKKParams : vec -> option matrix -> nat -> restriction -> outcome ParamGeneric;
  recursion :
    list matrix -> matrix -> matrix -> matrix -> matrix -> outcome (list matrix);
  likelihood_cy : list matrix -> matrix -> outcome F;
  filter_var_python :
    list matrix -> matrix -> matrix -> matrix -> matrix -> outcome (list matrix);
  likelihood_python : list matrix -> matrix -> outcome F
}.

(** The calls to the filter and to the evaluator, in the order made. *)
Inductive call : Set :=
| Call_recursion
| Call_likelihood
| Call_filter_var_python
| Call_likelihood_python.

(** A run of a method: what it returns or raises, the object afterwards
    and the calls it made. *)
Record run (A : Type) : Type := {
  value : outcome A;
  final : BEKK;
  calls : list call
}.

(** The value returned for infeasible parameters, [1e10]. *)
Definition sentinel : F := of_Z 10000000000.

(** [self.hvar[0] = uvar]: numpy stores NaN for [None]; there is no slot
    when [nobs] is zero.  [uvar] has the shape of a slot. *)
Definition store_first (nstocks : nat) (hvar : list matrix)
    (uvar : option matrix) : outcome (list matrix) :=
  match hvar with
  | [] => Raise IndexError
  | _ :: rest =>
      Return (match uvar with
              | Some h => h
              | None => repeat (repeat fnan nstocks) nstocks
              end :: rest)
  end.

(** [BEKK.likelihood(self, theta, target)]. *)
Definition BEKK_likelihood {E : Eigvals} {S : FixedPoint}
    {K : Collaborators} (self : BEKK) (theta : vec) (target : option matrix)
  : run F :=
  let nstocks := ncols (innov self) in
  match param_start self with
  | None => {| value := Raise AttributeError; final := self; calls := [] |}
  | Some start =>
  match BEKKParams theta target nstocks (start_restriction start) with
  | Raise e => {| value := Raise e; final := self; calls := [] |}
  | Return param =>
  match constraint param with
  | Raise e => {| value := Raise e; final := self; calls := [] |}
  | Return score =>
  (* [param.constraint() >= 1 or param.cmat is None] *)
  match (if fle fone score then None else cmat param) with
  | None => {| value := Return sentinel; final := self; calls := [] |}
  | Some c =>
      let nobs := nrows (innov self) in
      let hvar0 := repeat (zeros nstocks nstocks) nobs in
      let self0 := set_hvar self hvar0 in
      match (uvar <- get_uvar param ;; store_first nstocks hvar0 uvar) with
      | Raise e => {| value := Raise e; final := self0; calls := [] |}
      | Return hvar1 =>
          let self1 := set_hvar self hvar1 in
          if cython self then
            match recursion hvar1 (innov self) (amat param) (bmat param) c with
            | Raise e =>
                {| value := Raise e; final := self1;
                   calls := [Call_recursion] |}
            | Return hvar2 =>
                {| value := likelihood_cy hvar2 (innov self);
                   final := set_hvar self hvar2;
                   calls := [Call_recursion; Call_likelihood] |}
            end
          else
            match filter_var_python hvar1 (innov self) (amat param)
                                    (bmat param) c with
            | Raise e =>
                {| value := Raise e; final := self1;
                   calls := [Call_filter_var_python] |}
            | Return hvar2 =>
                {| value := likelihood_python hvar2 (innov self);
                   final := set_hvar self hvar2;
                   calls := [Call_filter_var_python; Call_likelihood_python] |}
            end
      end
  end end end end.

(** The [target] that [BEKK.estimate] computes and hands to the
    minimizer with the objective. *)
Definition estimate_target (self : BEKK) (var_target : bool) : option matrix :=
  let nstocks := ncols (innov self) in
  if var_target then
    Some (sdiv (dot (transpose (innov self)) (innov self))
               (of_Z (Z.of_nat nstocks)))
  else None.

(** ** Stand-ins for running the model *)

(** The eigenvalues of a triangular matrix are its diagonal entries:
    this is [scipy.linalg.eigvals] on triangular input. *)
Definition triangular_eigvals : Eigvals :=
  {| sl_eigvals := fun K => Return (map (fun d => (d, fzero)) (diag K)) |}.

(** [scipy.optimize.fixed_point] as modelled above. *)
Definition scipy_solver : FixedPoint :=
  {| sco_fixed_point := scipy_fixed_point |}.

(** [l] cut into rows of length [n]. *)
Fixpoint chunks (n rows : nat) (l : list F) : matrix :=
  match rows with
  | 0 => []
  | S rows' => firstn n l :: chunks n rows' (skipn n l)
  end.

(** Modelled from the spec: the decoder [BEKKParams] (module
    [bekkparams], not under src/) for the ['full'] restriction.  Section
    4.1: [A] and [B] are unrestricted N x N matrices, each requiring N^2
    free parameters, and the decoder either accepts a supplied [C] or
    derives it from the target.  [theta] is read as [A], then [B], then
    the supplied [C], row by row. *)
Definition BEKKParams_full (theta : vec) (target : option matrix)
    (nstocks : nat) (_ : restriction) : outcome ParamGeneric :=
  let a := chunks nstocks nstocks theta in
  let b := chunks nstocks nstocks (skipn (nstocks * nstocks) theta) in
  match target with
  | Some tg => from_target a b tg
  | None =>
      Return (from_abc a b
        (Some (chunks nstocks nstocks
                      (skipn (2 * (nstocks * nstocks)) theta))))
  end.

(** Modelled from the spec: the filter ([recursion] and
    [filter_var_python], not under src/) on the buffer of slots.  Section
    4.3: given A, B, CC', the innovation series and an initial H_0,
    produce the next matrices by
    H_t = CC' + A (u_(t-1) u_(t-1)') A' + B H_(t-1) B'.  The first slot of
    the buffer holds H_0 and is kept, as in [utils.filter_var]. *)
Fixpoint filter_slots_from (cc a b prev : matrix) (us : list vec)
    (slots : nat) : list matrix :=
  match slots, us with
  | S k, u :: rest =>
      let h := filter_rhs cc a b (outer u) prev in
      h :: filter_slots_from cc a b h rest k
  | _, _ => []
  end.

Definition filter_slots (hvar : list matrix) (innov amat bmat cmat : matrix)
  : outcome (list matrix) :=
  match hvar with
  | [] => Return []
  | h0 :: rest =>
      Return (h0 :: filter_slots_from (dot cmat (transpose cmat)) amat bmat
                      h0 innov (length rest))
  end.

(** Modelled from the spec: the evaluator ([likelihood] of the module
    [likelihood] and [likelihood_python], not under src/).  Section 4.4:
    the sum over t of log|H_t| + u_t' H_t^(-1) u_t, with each H_t factored
    once, the log-determinant taken from the diagonal of the factor (sum
    of the logarithms of the absolute values, NaN entries left out of the
    sum) and the quadratic form from a solve with the same factor; a
    factorization that fails is signalled upward.  That is
    [utils.likelihood] on every slot with its observation. *)
Fixpoint likelihood_slots {L : SpLU} {G : Log} (hvar : list matrix)
    (innov : matrix) : outcome F :=
  match hvar, innov with
  | h :: hs, u :: us =>
      v <- likelihood h [u] ;;
      rest <- likelihood_slots hs us ;;
      Return (fadd v rest)
  | _, _ => Return fzero
  end.

(** Modelled from the spec: the collaborators of [bekk.py] that are not
    under src/, as sections 4.1, 4.3 and 4.4 describe them; both filters
    realize section 4.3 and both evaluators section 4.4. *)
Definition spec_collaborators {L : SpLU} {G : Log}
    (decode : vec -> option matrix -> nat -> restriction
              -> outcome ParamGeneric) : Collaborators :=
  {| BEKKParams := decode;
     recursion := filter_slots;
     likelihood_cy := likelihood_slots;
     filter_var_python := filter_slots;
     likelihood_python := likelihood_slots |}.

End Arrays.

Arguments vec F : clear implicits.
Arguments matrix F : clear implicits.
Arguments SuperLU F : clear implicits.
Arguments Eigvals F : clear implicits.
Arguments FixedPoint F : clear implicits.
Arguments SpLU F : clear implicits.
Arguments Log F : clear implicits.
Arguments ParamGeneric F : clear implicits.
Arguments StartParams F : clear implicits.
Arguments BEKK F : clear implicits.
Arguments Collaborators F : clear implicits.
Arguments run F A : clear implicits.

(** ** Two arithmetics *)

(** Exact real arithmetic: no NaN, no infinity, no rounding. *)
#[export] Instance R_scalar : Scalar R := {|
  of_Z := IZR;
  fadd := Rplus;
  fsub := Rminus;
  fmul := Rmult;
  fdiv := Rdiv;
  fsqrt := R_sqrt.sqrt;
  fabs := Rabs;
  fle := fun a b => if Rle_dec a b then true else false;
  flt := fun a b => if Rlt_dec a b then true else false
|}.

(** IEEE binary64, for integers below [2^63] in magnitude. *)
Definition float_of_Z (z : Z) : float :=
  match z with
  | Z0 => PrimFloat.of_uint63 0%uint63
  | Zpos _ => PrimFloat.of_uint63 (Uint63.of_Z z)
  | Zneg p => PrimFloat.opp (PrimFloat.of_uint63 (Uint63.of_Z (Zpos p)))
  end.

#[export] Instance float_scalar : Scalar float := {|
  of_Z := float_of_Z;
  fadd := PrimFloat.add;
  fsub := PrimFloat.sub;
  fmul := PrimFloat.mul;
  fdiv := PrimFloat.div;
  fsqrt := PrimFloat.sqrt;
  fabs := PrimFloat.abs;
  fle := PrimFloat.leb;
  flt := PrimFloat.ltb
|}.

(** Rocq's binary64 has no logarithm.  On the binary64 runs of the
    evaluator below every diagonal entry that it meets is a NaN, which it
    leaves out, so that no logarithm is taken. *)
Definition idle_log : Log float := {| np_log := fun _ => fzero |}.

(** ** Linear algebra over the reals, to state the properties *)

Definition lower_triangular (L : matrix R) : Prop :=
  forall i j, i < j -> entry L i j = 0%R.

Definition symmetric (n : nat) (M : matrix R) : Prop :=
  forall i j, i < n -> j < n -> entry M i j = entry M j i.

(** The quadratic form [x' M x]. *)
Definition quad_form (M : matrix R) (x : vec R) : R := vdot x (mat_vec M x).

(** Symmetric positive definite matrices of order [n]. *)
Definition pos_def (n : nat) (M : matrix R) : Prop :=
  is_shape n n M /\ symmetric n M /\
  forall x, length x = n -> x <> repeat 0%R n -> (0 < quad_form M x)%R.

(** [l] without its entry of index [j]. *)
Definition drop_nth {A : Type} (j : nat) (l : list A) : list A :=
  firstn j l ++ skipn (S j) l.

(** A sum over a list of indices. *)
Definition sum_over (l : list nat) (f : nat -> R) : R :=
  fold_right (fun j acc => (f j + acc)%R) 0%R l.

(** The determinant of a matrix of order [n], by expansion along the
    first row. *)
Fixpoint det_n (n : nat) (M : matrix R) : R :=
  match n with
  | 0 => 1%R
  | S n' =>
      match M with
      | [] => 0%R
      | row :: rest =>
          sum_over (seq 0 n)
            (fun j => ((-1) ^ j * nth j row 0 * det_n n' (map (drop_nth j) rest))%R)
      end
  end.

Definition det (M : matrix R) : R := det_n (length M) M.

(** The block-diagonal matrix of a list of square matrices, which is how
    the two-dimensional buffer holds the covariance slots. *)
Fixpoint block_diag (Hs : list (matrix R)) : matrix R :=
  match Hs with
  | [] => []
  | H :: rest =>
      let tail := block_diag rest in
      map (fun row => row ++ repeat 0%R (length tail)) H
        ++ map (fun row => repeat 0%R (length H) ++ row) tail
  end.

(** The product of a list of reals. *)
Definition rprod (l : list R) : R := fold_right Rmult 1%R l.

(** [numpy.log] in exact arithmetic. *)
#[export] Instance R_log : Log R := {| np_log := ln |}.

(** The parts of a matrix that one step of the factorization reads. *)
Definition first_column (rest : matrix R) : vec R := map (hd 0%R) rest.
Definition scaled_column (l : R) (rest : matrix R) : vec R :=
  map (fun row => (hd 0 row / l)%R) rest.
Definition trailing_block (l : R) (rest : matrix R) : matrix R :=
  msub (map (@tl R) rest)
       (map (fun ci => map (fun cj => (ci * cj)%R) (scaled_column l rest))
            (scaled_column l rest)).

(** Every entry is zero. *)
Definition all_zero (M : matrix R) : Prop :=
  Forall (Forall (fun x => x = 0%R)) M.

(** What [splu] promises of the factor of a matrix: [U] is the upper
    factor of a row- and column-permuted [hvar] whose lower factor has a
    unit diagonal, so the magnitudes of the diagonal of [U] multiply to
    the magnitude of the determinant; and [solve] solves the system. *)
Definition lu_contract (hvar : matrix R) (fac : SuperLU R) : Prop :=
  rprod (map Rabs (diag (factor_U fac))) = Rabs (det hvar)
  /\ forall b, length b = length hvar ->
       length (factor_solve fac b) = length b
       /\ mat_vec hvar (factor_solve fac b) = b.

(** [splu] on a diagonal matrix with a nonzero diagonal: no permutation,
    a unit lower factor, [U] the matrix itself; [solve] divides by the
    diagonal. *)
Definition diagonal_splu {F : Type} `{Scalar F} : SpLU F :=
  {| scs_splu := fun M =>
       Return {| factor_U := M;
                 factor_solve := fun b => zip_with fdiv b (diag M) |} |}.

(** ** [utils.py]: the recursion *)

(** What [_bekk_recursion] reads of its [param] argument. *)
Record RecursionParams {F : Type} : Type := {
  a_mat : matrix F;
  b_mat : matrix F
}.
Arguments RecursionParams F : clear implicits.

(** [_bekk_recursion(param, hzero, hone, htwo)]. *)
Definition _bekk_recursion {F : Type} `{Scalar F} (param : RecursionParams F)
    (hzero hone htwo : matrix F) : matrix F :=
  madd (madd hzero (dot (dot (a_mat param) hone) (transpose (a_mat param))))
       (dot (dot (b_mat param) htwo) (transpose (b_mat param))).

(** ** [param_generic.py]: the constructor *)

(** Python's [**] on floats. *)
Class Pow (F : Type) : Type := {
  fpow : F -> F -> F
}.

Section Defaults.

Context {F : Type} `{Scalar F} {P : Pow F}.

(** [M * k] for a scalar [k]. *)
Definition mscale (M : matrix F) (k : F) : matrix F :=
  map (map (fun x => fmul x k)) M.

(** The literals [.1], [.8] and [.5]. *)
Definition tenth : F := fdiv (of_Z 1) (of_Z 10).
Definition eight_tenths : F := fdiv (of_Z 8) (of_Z 10).
Definition half : F := fdiv (of_Z 1) (of_Z 2).

(** [ParamGeneric.__init__(self, nstocks)]. *)
Definition ParamGeneric__init__ (nstocks : nat) : outcome (ParamGeneric F) :=
  let amat := mscale (eye nstocks) (fpow tenth half) in
  let bmat := mscale (eye nstocks) (fpow eight_tenths half) in
  cmat <- find_cmat amat bmat (eye nstocks) ;;
  Return {| amat := amat; bmat := bmat; cmat := cmat |}.

(** [ParamGeneric.from_target(amat, bmat, target)] with optional [amat]
    and [bmat]: the defaults of the constructor are taken only when both
    are [None]; [None.dot] is an [AttributeError]. *)
Definition ParamGeneric_from_target (amat bmat : option (matrix F))
    (target : matrix F) : outcome (ParamGeneric F) :=
  let nstocks := nrows target in
  match amat, bmat with
  | None, None =>
      param <- ParamGeneric__init__ nstocks ;;
      match param with
      | {| amat := a; bmat := b |} => from_target a b target
      end
  | Some a, Some b => from_target a b target
  | _, _ => Raise AttributeError
  end.

End Defaults.

(** [**] in exact arithmetic, for a positive base. *)
#[export] Instance R_pow : Pow R := {| fpow := Rpower |}.

(** ** More linear algebra over the reals *)

(** [-M]. *)
Definition mneg (M : matrix R) : matrix R := map (map Ropp) M.

(** Symmetric positive semidefinite matrices of order [n]. *)
Definition pos_semidef (n : nat) (M : matrix R) : Prop :=
  is_shape n n M /\ symmetric n M /\
  forall x, length x = n -> (0 <= quad_form M x)%R.

(** ** The loop of [scipy.optimize.fixed_point] *)

(** One pass of the loop of [scipy.optimize.fixed_point]: the
    accelerated iterate and the test of the tolerance. *)
Definition del2_step {F : Type} `{Scalar F} (func : matrix F -> matrix F)
    (p0 : matrix F) : matrix F :=
  let p1 := func p0 in
  let p2 := func p1 in
  let d := madd (msub p2 (smul (of_Z 2) p1)) p0 in
  map (map del2_entry) (mzip (mzip p0 p1) (mzip d p2)).

Definition converged {F : Type} `{Scalar F} (p p0 : matrix F) : bool :=
  forallb (forallb (fun e => flt (fabs e) xtol))
          (map (map relerr_entry) (mzip p p0)).

(** ** What the properties are stated with *)

(** The real number that a finite binary64 value stands for. *)
Definition float_to_R (x : float) : R :=
  match Prim2SF x with
  | S754_finite s m e =>
      ((if s then -1 else 1) * IZR (Zpos m) * powerRZ 2 e)%R
  | _ => 0%R
  end.

(** [H - (CC' + A H A' + B H B')], entry by entry. *)
Definition residual (A B cc H : matrix R) (i j : nat) : R :=
  (entry H i j - entry cc i j
   - entry (dot (dot A H) (transpose A)) i j
   - entry (dot (dot B H) (transpose B)) i j)%R.

(** The iterates of the loop of [scipy.optimize.fixed_point]. *)
Fixpoint del2_iterate {F : Type} `{Scalar F} (func : matrix F -> matrix F)
    (p : matrix F) (t : nat) : matrix F :=
  match t with
  | 0 => p
  | S t' => del2_iterate func (del2_step func p) t'
  end.

(** [z = (x, y)] is an eigenvalue of the real matrix [K] of order [m]:
    some nonzero complex vector [v = re + i im] has [K v = z v], written
    out in real and imaginary parts. *)
Definition is_eigenvalue (m : nat) (K : matrix R) (z : R * R) : Prop :=
  exists re im : vec R,
    length re = m /\ length im = m
    /\ (re <> repeat 0%R m \/ im <> repeat 0%R m)
    /\ (forall p, p < m ->
          nth p (mat_vec K re) 0%R
          = (fst z * nth p re 0 - snd z * nth p im 0)%R)
    /\ (forall p, p < m ->
          nth p (mat_vec K im) 0%R
          = (snd z * nth p re 0 + fst z * nth p im 0)%R).

(** What [scipy.linalg.eigvals] promises of the list that it returns for
    a matrix of order [m]: [m] values, which are the eigenvalues of the
    matrix. *)
Definition eigvals_of (m : nat) (K : matrix R) (eigs : list (R * R)) : Prop :=
  length eigs = m /\ forall z, In z eigs <-> is_eigenvalue m K z.

(** The distance of two complex numbers. *)
Definition cdist (z w : R * R) : R :=
  cabs ((fst z - fst w)%R, (snd z - snd w)%R).

(** A matrix of order [m] with zeros off its diagonal. *)
Definition is_diagonal (m : nat) (K : matrix R) : Prop :=
  forall i j, i < m -> j < m -> i <> j -> entry K i j = 0%R.

(** * Properties *)

(** ** Slices and blocks *)

Section BlockFacts.

Context {F : Type} `{Scalar F}.

Lemma zip_with_length {A B C : Type} (f : A -> B -> C) (l : list A)
    (m : list B) :
  length (zip_with f l m) = Nat.min (length l) (length m).
Proof.
  revert m; induction l as [|a l IH]; intros [|b m]; simpl; auto.
Qed.

Lemma slice_length {A : Type} (a b : nat) (l : list A) :
  b <= length l -> length (slice a b l) = b - a.
Proof.
  intros Hb. unfold slice. rewrite length_firstn, length_skipn. lia.
Qed.

Lemma slice_app_left {A : Type} (a b : nat) (l r : list A) :
  b <= length l -> slice a b (l ++ r) = slice a b l.
Proof.
  intros Hb. unfold slice.
  destruct (Nat.le_gt_cases a (length l)) as [Ha|Ha];
    [|replace (b - a) with 0 by lia; reflexivity].
  rewrite skipn_app, firstn_app, length_skipn.
  replace (b - a - (length l - a)) with 0 by lia.
  replace (a - length l) with 0 by lia.
  simpl. now rewrite app_nil_r.
Qed.

Lemma slice_firstn {A : Type} (a b n : nat) (l : list A) :
  b <= n -> slice a b (firstn n l) = slice a b l.
Proof.
  intros Hb. unfold slice.
  rewrite skipn_firstn_comm, firstn_firstn.
  f_equal. lia.
Qed.

Lemma set_slice_length {A : Type} (a b : nat) (l v : list A) :
  a <= b -> b <= length l -> length v = b - a ->
  length (set_slice a b l v) = length l.
Proof.
  intros Hab Hb Hv. unfold set_slice.
  rewrite !length_app, length_firstn, length_skipn. lia.
Qed.

Lemma map_zip_with_right {A B C : Type} (f : A -> B -> C) (g : C -> B)
    (l : list A) (m : list B) :
  length m <= length l ->
  (forall a b, In a l -> In b m -> g (f a b) = b) ->
  map g (zip_with f l m) = m.
Proof.
  revert m; induction l as [|a l IH]; intros [|b m] Hlen Hg; simpl in *;
    try lia; auto.
  f_equal; [apply Hg; auto | apply IH; [lia | intros; apply Hg; auto]].
Qed.

Lemma In_firstn {A : Type} (x : A) (n : nat) (l : list A) :
  In x (firstn n l) -> In x l.
Proof.
  intros Hx. rewrite <- (firstn_skipn n l). apply in_or_app. now left.
Qed.

Lemma In_skipn {A : Type} (x : A) (n : nat) (l : list A) :
  In x (skipn n l) -> In x l.
Proof.
  intros Hx. rewrite <- (firstn_skipn n l). apply in_or_app. now right.
Qed.

Lemma Forall_slice {A : Type} (P : A -> Prop) (a b : nat) (l : list A) :
  Forall P l -> Forall P (slice a b l).
Proof.
  intros Hl. unfold slice. apply Forall_forall. intros x Hx.
  apply In_firstn, In_skipn in Hx.
  rewrite Forall_forall in Hl. auto.
Qed.

Lemma Forall_zip_with {A B C : Type} (P : C -> Prop) (f : A -> B -> C)
    (l : list A) (m : list B) :
  (forall a b, In a l -> In b m -> P (f a b)) -> Forall P (zip_with f l m).
Proof.
  revert m; induction l as [|a l IH]; intros [|b m] Hf; simpl; auto.
  constructor; [apply Hf; simpl; auto |].
  apply IH. intros; apply Hf; simpl; auto.
Qed.

Lemma slice_middle {A : Type} (a b : nat) (l z r : list A) :
  length l = a -> length z = b - a -> slice a b (l ++ z ++ r) = z.
Proof.
  intros Hl Hz. unfold slice.
  rewrite skipn_app, skipn_all2 by lia.
  replace (a - length l) with 0 by lia. simpl.
  rewrite firstn_app, <- Hz, firstn_all, Nat.sub_diag. simpl.
  now rewrite app_nil_r.
Qed.

(** Reading back the block that was just written. *)
Lemma get_set_block_same (M V : matrix F) (a b : nat) :
  a <= b -> b <= length M -> Forall (fun row => b <= length row) M ->
  is_shape (b - a) (b - a) V ->
  get_block (set_block M a b V) a b = V.
Proof.
  intros Hab Hb Hrows [HV HVrows]. unfold get_block, set_block.
  rewrite slice_middle.
  - apply map_zip_with_right.
    + rewrite slice_length by assumption. lia.
    + intros row v Hrow Hv. apply slice_middle.
      * pose proof (Forall_slice a b Hrows) as Hs.
        rewrite Forall_forall in Hs. specialize (Hs _ Hrow). simpl in Hs.
        rewrite length_firstn. lia.
      * rewrite Forall_forall in HVrows. auto.
  - rewrite length_firstn. lia.
  - rewrite zip_with_length, slice_length by assumption. lia.
Qed.

(** A block that ends before the written one is not touched. *)
Lemma get_set_block_before (M V : matrix F) (a b a' b' : nat) :
  b' <= a -> a <= b ->
  get_block (set_block M a b V) a' b' = get_block M a' b'.
Proof.
  intros Hb' Hab. unfold get_block, set_block. f_equal.
  destruct (Nat.le_gt_cases a (length M)) as [Ha|Ha].
  - rewrite slice_app_left by (rewrite length_firstn; lia).
    now apply slice_firstn.
  - rewrite firstn_all2 by lia.
    unfold slice at 2. rewrite (skipn_all2 M) by lia.
    rewrite firstn_nil. simpl.
    rewrite (skipn_all2 M) by lia. now rewrite app_nil_r.
Qed.

Lemma set_block_shape (M V : matrix F) (a b r c : nat) :
  a <= b -> b <= r -> b <= c ->
  is_shape r c M -> is_shape (b - a) (b - a) V ->
  is_shape r c (set_block M a b V).
Proof.
  intros Hab Hbr Hbc [HM HMrows] [HV HVrows]. unfold set_block. split.
  - rewrite !length_app, zip_with_length, slice_length, length_firstn,
      length_skipn by lia. lia.
  - rewrite !Forall_app. repeat split.
    + apply Forall_forall. intros x Hx. apply In_firstn in Hx.
      rewrite Forall_forall in HMrows. auto.
    + apply Forall_zip_with. intros row v Hrow Hv.
      pose proof (Forall_slice a b HMrows) as Hs.
      rewrite Forall_forall in Hs. specialize (Hs _ Hrow). simpl in Hs.
      rewrite Forall_forall in HVrows. specialize (HVrows _ Hv).
      rewrite set_slice_length; lia.
    + apply Forall_forall. intros x Hx. apply In_skipn in Hx.
      rewrite Forall_forall in HMrows. auto.
Qed.

(** ** Shapes *)

Lemma dot_shape (r c : nat) (A B : matrix F) :
  length A = r -> ncols B = c -> is_shape r c (dot A B).
Proof.
  intros HA HB. unfold is_shape, dot. split.
  - now rewrite length_map.
  - apply Forall_forall. intros row Hrow.
    apply in_map_iff in Hrow as [x [<- _]].
    unfold transpose. now rewrite !length_map, length_seq.
Qed.

Lemma ncols_of_shape (r c : nat) (M : matrix F) :
  is_shape r c M -> 0 < r -> ncols M = c.
Proof.
  intros [Hlen Hrows] Hr. unfold ncols.
  destruct M as [|row M]; simpl in *; [lia|].
  now inversion Hrows.
Qed.

Lemma ncols_transpose_square (n : nat) (M : matrix F) :
  is_shape n n M -> ncols (transpose M) = n.
Proof.
  intros HM. destruct n as [|n].
  - destruct HM as [Hlen _]. destruct M; [reflexivity | discriminate].
  - unfold transpose. rewrite (ncols_of_shape HM) by lia.
    unfold ncols. simpl. rewrite length_map. apply HM.
Qed.

Lemma zip_with_shape (f : F -> F -> F) (r c : nat) (A B : matrix F) :
  is_shape r c A -> is_shape r c B -> is_shape r c (zip_with (zip_with f) A B).
Proof.
  intros [HA HArows] [HB HBrows]. split.
  - rewrite zip_with_length. lia.
  - apply Forall_zip_with. intros a b Ha Hb.
    rewrite Forall_forall in HArows, HBrows.
    rewrite zip_with_length, (HArows _ Ha), (HBrows _ Hb). lia.
Qed.

Lemma sandwich_shape (n : nat) (A X : matrix F) :
  is_shape n n A -> is_shape n n (dot (dot A X) (transpose A)).
Proof.
  intros HA. apply dot_shape.
  - unfold dot. rewrite length_map. apply HA.
  - now apply ncols_transpose_square.
Qed.

Lemma gram_shape (n : nat) (C : matrix F) :
  is_shape n n C -> is_shape n n (dot C (transpose C)).
Proof.
  intros HC. apply dot_shape; [apply HC | now apply ncols_transpose_square].
Qed.

Lemma filter_rhs_shape (n : nat) (cc a b hone htwo : matrix F) :
  is_shape n n cc -> is_shape n n a -> is_shape n n b ->
  is_shape n n (filter_rhs cc a b hone htwo).
Proof.
  intros Hcc Ha Hb. unfold filter_rhs, madd.
  repeat apply zip_with_shape; auto using sandwich_shape.
Qed.

(** ** Entries *)

Lemma nth_zip_with {A B C : Type} (f : A -> B -> C) (l : list A) (m : list B)
    (i : nat) (da : A) (db : B) (dc : C) :
  i < length l -> i < length m ->
  nth i (zip_with f l m) dc = f (nth i l da) (nth i m db).
Proof.
  revert m i; induction l as [|a l IH]; intros [|b m] [|i] Hl Hm;
    simpl in *; try lia; auto.
  apply IH; lia.
Qed.

Lemma shape_row (r c : nat) (M : matrix F) (i : nat) :
  is_shape r c M -> i < r -> length (nth i M []) = c.
Proof.
  intros [Hlen Hrows] Hi. rewrite Forall_forall in Hrows.
  apply Hrows, nth_In. lia.
Qed.

Lemma entry_zip_with (f : F -> F -> F) (r c : nat) (A B : matrix F)
    (i j : nat) :
  is_shape r c A -> is_shape r c B -> i < r -> j < c ->
  entry (zip_with (zip_with f) A B) i j = f (entry A i j) (entry B i j).
Proof.
  intros HA HB Hi Hj. unfold entry.
  rewrite (nth_zip_with _ _ _ [] [] []) by (destruct HA, HB; lia).
  apply nth_zip_with; rewrite (@shape_row r c _ i); auto.
Qed.

Lemma entry_map (f : F -> F) (r c : nat) (A : matrix F) (i j : nat) :
  is_shape r c A -> i < r -> j < c ->
  entry (map (map f) A) i j = f (entry A i j).
Proof.
  intros HA Hi Hj. unfold entry.
  rewrite (nth_indep _ [] (map f [])) by (rewrite length_map; destruct HA; lia).
  rewrite map_nth.
  rewrite (nth_indep _ fzero (f fzero))
    by (rewrite length_map, (@shape_row r c _ i); auto).
  apply map_nth.
Qed.

Lemma map_shape (f : F -> F) (r c : nat) (A : matrix F) :
  is_shape r c A -> is_shape r c (map (map f) A).
Proof.
  intros [Hlen Hrows]. split; [now rewrite length_map|].
  apply Forall_forall. intros row Hrow.
  apply in_map_iff in Hrow as [x [<- Hx]].
  rewrite Forall_forall in Hrows. rewrite length_map. auto.
Qed.

(** Two arrays of one shape with the same entries are equal. *)
Lemma matrix_ext (r c : nat) (A B : matrix F) :
  is_shape r c A -> is_shape r c B ->
  (forall i j, i < r -> j < c -> entry A i j = entry B i j) ->
  A = B.
Proof.
  intros HA HB Hent.
  apply (nth_ext _ _ [] []); [destruct HA, HB; lia|].
  intros i Hi. assert (Hir : i < r) by (destruct HA; lia).
  apply (nth_ext _ _ fzero fzero).
  - rewrite (@shape_row r c A i), (@shape_row r c B i); auto.
  - intros j Hj. rewrite (@shape_row r c A i) in Hj; auto.
    apply Hent; auto.
Qed.

(** ** Kronecker products *)

Lemma length_flat_map_uniform {A B : Type} (f : A -> list B) (l : list A)
    (m : nat) :
  (forall x, In x l -> length (f x) = m) ->
  length (flat_map f l) = length l * m.
Proof.
  induction l as [|x l IH]; intros Hf; simpl; [reflexivity|].
  rewrite length_app, (Hf x) by (simpl; auto).
  rewrite IH; [reflexivity|]. intros y Hy. apply Hf. simpl; auto.
Qed.

Lemma nth_flat_map_uniform {A B : Type} (f : A -> list B) (l : list A)
    (m i k : nat) (da : A) (db : B) :
  (forall x, In x l -> length (f x) = m) ->
  i < length l -> k < m ->
  nth (i * m + k) (flat_map f l) db = nth k (f (nth i l da)) db.
Proof.
  revert i; induction l as [|x l IH]; intros i Hf Hi Hk; simpl in *; [lia|].
  destruct i as [|i].
  - simpl. rewrite app_nth1; [reflexivity|]. rewrite Hf; auto.
  - rewrite app_nth2 by (rewrite Hf; auto; simpl; lia).
    rewrite Hf by auto.
    replace (S i * m + k - m) with (i * m + k) by (simpl; lia).
    apply IH; auto. lia.
Qed.

Lemma kron_shape (r1 c1 r2 c2 : nat) (A B : matrix F) :
  is_shape r1 c1 A -> is_shape r2 c2 B ->
  is_shape (r1 * r2) (c1 * c2) (kron A B).
Proof.
  intros [HA HArows] [HB HBrows]. unfold kron. split.
  - rewrite (@length_flat_map_uniform _ _ _ _ r2); [now rewrite HA|].
    intros x _. now rewrite length_map.
  - apply Forall_forall. intros row Hrow.
    apply in_flat_map in Hrow as [rowA [HrowA Hrow]].
    apply in_map_iff in Hrow as [rowB [<- HrowB]].
    rewrite Forall_forall in HArows, HBrows.
    rewrite (@length_flat_map_uniform _ _ _ _ c2); [now rewrite HArows|].
    intros a _. rewrite length_map. auto.
Qed.

(** Entry [(i r2 + k, j c2 + l)] of [A (x) B] is [A[i, j] * B[k, l]]. *)
Lemma kron_entry (r1 c1 r2 c2 : nat) (A B : matrix F) (i j k l : nat) :
  is_shape r1 c1 A -> is_shape r2 c2 B ->
  i < r1 -> j < c1 -> k < r2 -> l < c2 ->
  entry (kron A B) (i * r2 + k) (j * c2 + l) =
    fmul (entry A i j) (entry B k l).
Proof.
  intros HA HB Hi Hj Hk Hl. unfold kron, entry.
  rewrite (@nth_flat_map_uniform _ _ _ _ r2 _ _ [] _);
    [| intros x _; rewrite length_map; apply HB | destruct HA; lia | exact Hk].
  set (rowA := nth i A []).
  assert (HrowA : length rowA = c1) by (apply (@shape_row r1 c1 A i); auto).
  set (g := fun rowB : list F =>
              flat_map (fun a => map (fun b => fmul a b) rowB) rowA).
  rewrite (nth_indep _ [] (g [])) by (rewrite length_map; destruct HB; lia).
  rewrite map_nth. unfold g.
  set (rowB := nth k B []).
  assert (HrowB : length rowB = c2) by (apply (@shape_row r2 c2 B k); auto).
  rewrite (@nth_flat_map_uniform _ _ _ _ c2 _ _ fzero _);
    [| intros a _; now rewrite length_map | lia | exact Hl].
  set (h := fun b => fmul (nth j rowA fzero) b).
  rewrite (nth_indep _ fzero (h fzero)) by (rewrite length_map; lia).
  apply (map_nth h).
Qed.

End BlockFacts.

(** ** The covariance filter *)

Section Filter.

Context {F : Type} `{Scalar F}.

Variables (T N : nat) (hvar0 innov0 c_mat a_mat b_mat : matrix F).

Let cc_mat := dot c_mat (transpose c_mat).
Let innov2 := outer_products innov0.
Let step := filter_step N cc_mat a_mat b_mat innov2.

(** The buffer after the iterations [1..k] of the loop. *)
Let after (k : nat) : matrix F := fold_left step (seq 1 k) hvar0.

Lemma after_succ (k : nat) : after (S k) = step (after k) (S k).
Proof.
  unfold after. rewrite seq_S, fold_left_app. reflexivity.
Qed.

(** The first [N] rows of the buffer, which hold the slot of [H_0], are
    the same after every iteration, whatever the shapes. *)
Lemma after_first_slot (k : nat) :
  get_block (after k) 0 N = get_block hvar0 0 N.
Proof.
  induction k as [|k IH]; [reflexivity|].
  rewrite after_succ. unfold step, filter_step. simpl fst; simpl snd.
  rewrite get_set_block_before; [exact IH | lia | lia].
Qed.

Hypothesis hvar_shape : is_shape (T * N) (T * N) hvar0.
Hypothesis c_shape : is_shape N N c_mat.
Hypothesis a_shape : is_shape N N a_mat.
Hypothesis b_shape : is_shape N N b_mat.

(** The loop invariant: the buffer keeps its shape and every slot
    written so far satisfies the recursion. *)
Lemma after_invariant (k : nat) :
  S k <= T ->
  is_shape (T * N) (T * N) (after k) /\
  forall t, 1 <= t <= k ->
    get_block (after k) (t * N) ((t + 1) * N) =
    filter_rhs cc_mat a_mat b_mat (nth (t - 1) innov2 [])
               (get_block (after k) ((t - 1) * N) (t * N)).
Proof.
  induction k as [|k IH]; intros Hk.
  - split; [exact hvar_shape | intros t Ht; lia].
  - destruct IH as [Hshape Hrec]; [lia|].
    assert (Hrhs : forall X Y, is_shape ((S k + 1) * N - S k * N)
                                 ((S k + 1) * N - S k * N)
                                 (filter_rhs cc_mat a_mat b_mat X Y)).
    { intros X Y. replace ((S k + 1) * N - S k * N) with N by nia.
      apply filter_rhs_shape; auto. apply gram_shape; auto. }
    rewrite after_succ.
    change (step (after k) (S k)) with
      (set_block (after k) (S k * N) ((S k + 1) * N)
         (filter_rhs cc_mat a_mat b_mat (nth (S k - 1) innov2 [])
            (get_block (after k) ((S k - 1) * N) (S k * N)))).
    split.
    + apply set_block_shape; auto; nia.
    + intros t Ht.
      destruct (Nat.eq_dec t (S k)) as [->|Hne].
      * rewrite get_set_block_same; auto; try nia.
        -- now rewrite get_set_block_before by nia.
        -- destruct Hshape as [Hlen _]. rewrite Hlen. nia.
        -- destruct Hshape as [_ Hrows]. revert Hrows.
           apply Forall_impl. intros row ->. nia.
      * rewrite !get_set_block_before by nia.
        apply Hrec. lia.
Qed.

End Filter.

(** C2: with [H_0] in the first slot of the buffer, [filter_var] fills
    slot [t], for every [t] from [1] to [T - 1], with
    [CC' + A (u_{t-1} u_{t-1}') A' + B H_{t-1} B'], where [H_{t-1}] is the
    slot before it in the filtered buffer; the first slot still holds
    [H_0]. *)
Theorem filter_var_recursion {F : Type} `{Scalar F} (T N : nat)
    (hvar innov c_mat a_mat b_mat : matrix F) (t : nat) :
  is_shape (T * N) (T * N) hvar ->
  is_shape T N innov ->
  is_shape N N c_mat -> is_shape N N a_mat -> is_shape N N b_mat ->
  1 <= t < T ->
  let filtered := filter_var hvar innov c_mat a_mat b_mat in
  get_block filtered (t * N) ((t + 1) * N) =
    madd (madd (dot c_mat (transpose c_mat))
               (dot (dot a_mat (outer (nth (t - 1) innov [])))
                    (transpose a_mat)))
         (dot (dot b_mat (get_block filtered ((t - 1) * N) (t * N)))
              (transpose b_mat))
  /\ get_block filtered 0 N = get_block hvar 0 N.
Proof.
  intros Hh Hi Hc Ha Hb Ht filtered. subst filtered. unfold filter_var.
  rewrite (ncols_of_shape Hi) by lia.
  replace (nrows innov) with T by (symmetry; apply Hi).
  split; [|apply after_first_slot].
  destruct (@after_invariant F _ T N hvar innov c_mat a_mat b_mat
              Hh Hc Ha Hb (T - 1)) as [_ Hrec]; [lia|].
  rewrite (Hrec t) by lia. unfold filter_rhs, outer_products.
  do 4 f_equal. change (@nil (list F)) with (outer (@nil F)).
  apply map_nth.
Qed.

(** Three observations of one series: the two slots after the first are
    filled from the slot before them. *)
Lemma filter_var_recursion_witness :
  let filtered :=
    filter_var [[1; 0; 0]; [0; 0; 0]; [0; 0; 0]]%float
               [[1]; [2]; [3]]%float [[1]]%float [[0.5]]%float [[0.5]]%float in
  get_block filtered 2 3 =
    madd (madd (dot [[1]]%float (transpose [[1]]%float))
               (dot (dot [[0.5]]%float (outer [2]%float))
                    (transpose [[0.5]]%float)))
         (dot (dot [[0.5]]%float (get_block filtered 1 2))
              (transpose [[0.5]]%float))
  /\ get_block filtered 0 1 = [[1]]%float.
Proof.
  apply (@filter_var_recursion float _ 3 1
           [[1; 0; 0]; [0; 0; 0]; [0; 0; 0]]%float [[1]; [2]; [3]]%float
           [[1]]%float [[0.5]]%float [[0.5]]%float 2);
    try (split; [reflexivity | repeat constructor]); lia.
Defined.

(** C10: [filter_var] never writes to the first slot of the buffer: the
    block of [H_0] is the same after the call, for every input; an
    iteration of the loop, whose index is at least 1, leaves every slot
    before its own as it was. *)
Theorem filter_var_keeps_first_slot {F : Type} `{Scalar F}
    (hvar innov c_mat a_mat b_mat : matrix F) :
  get_block (filter_var hvar innov c_mat a_mat b_mat) 0 (ncols innov) =
    get_block hvar 0 (ncols innov)
  /\ forall (cc : matrix F) (innov2 : list (matrix F)) (buffer : matrix F)
        (j k : nat),
      let n := ncols innov in
      get_block (filter_step n cc a_mat b_mat innov2 buffer (j + 1 + k))
                (j * n) ((j + 1) * n) =
        get_block buffer (j * n) ((j + 1) * n).
Proof.
  split.
  - unfold filter_var. apply after_first_slot.
  - intros cc innov2 buffer j k n. unfold filter_step. simpl fst; simpl snd.
    apply get_set_block_before; nia.
Qed.

(** ** The estimation driver *)

(** C7: on two observations of one series, [BEKK.estimate] divides
    [innov' innov] by the number of series and gets the target [2], where
    [estimate_h0] divides by the number of observations and gets the
    sample covariance [1]. *)
Theorem estimate_target_divides_by_nstocks :
  estimate_target
    {| innov := [[1]; [1]]%float; param_start := None; cython := true;
       hvar := None |} true = Some [[2]]%float
  /\ estimate_h0 [[1]; [1]]%float = [[1]]%float.
Proof.
  split; reflexivity.
Qed.

(** C1: when the constraint score of the decoded parameters is at least
    1, or their [C] is [None], [BEKK.likelihood] returns [1e10]; it calls
    neither the filter nor the evaluator and leaves the object as it
    was. *)
Theorem likelihood_sentinel {F : Type} `{Scalar F} {E : Eigvals F}
    {S : FixedPoint F} {K : Collaborators F} (self : BEKK F) (theta : vec F)
    (target : option (matrix F)) (start : StartParams F)
    (param : ParamGeneric F) (score : F) :
  param_start self = Some start ->
  BEKKParams theta target (ncols (innov self)) (start_restriction start)
    = Return param ->
  constraint param = Return score ->
  fle fone score = true \/ cmat param = None ->
  BEKK_likelihood self theta target =
    {| value := Return sentinel; final := self; calls := [] |}.
Proof.
  intros Hstart Hparam Hscore Hbad. unfold BEKK_likelihood.
  rewrite Hstart, Hparam, Hscore.
  destruct Hbad as [Hge|Hnone].
  - now rewrite Hge.
  - rewrite Hnone. now destruct (fle fone score).
Qed.

(** A score of 2 on one series, with a target that leaves no [C]. *)
Lemma likelihood_sentinel_witness :
  BEKK_likelihood (E := triangular_eigvals) (S := scipy_solver)
    (K := spec_collaborators (L := diagonal_splu) (G := idle_log)
            BEKKParams_full)
    {| innov := [[1]; [1]]%float;
       param_start := Some {| start_theta := [1; 1]%float;
                              start_restriction := full |};
       cython := true; hvar := None |}
    [1; 1]%float (Some [[1]]%float)
  = {| value := Return sentinel;
       final := {| innov := [[1]; [1]]%float;
                   param_start := Some {| start_theta := [1; 1]%float;
                                          start_restriction := full |};
                   cython := true; hvar := None |};
       calls := [] |}.
Proof.
  apply (@likelihood_sentinel float _ triangular_eigvals scipy_solver
           (spec_collaborators (L := diagonal_splu) (G := idle_log)
              BEKKParams_full) _ _ _
           {| start_theta := [1; 1]%float; start_restriction := full |}
           (from_abc [[1]]%float [[1]]%float None) 2%float);
    [reflexivity | reflexivity | reflexivity | left; reflexivity].
Defined.

(** In binary64 the sentinel is the literal [1e10] of the source. *)
Example sentinel_float : sentinel = 1e10%float.
Proof. reflexivity. Qed.

(** Two series with a spectral radius of [A (x) A + B (x) B] near 0.78:
    the accelerated iteration of the solver diverges and
    [find_stationary_var] has no matrix to return. *)
Example stationary_var_not_found :
  find_stationary_var (S := scipy_solver)
    [[0.5; 0.25]; [0; 0.5]]%float [[0.5; 0]; [0.25; 0.5]]%float
    [[1; 0]; [0.5; 1]]%float
  = Return None.
Proof. vm_compute. reflexivity. Qed.

(** ** The unconditional variance *)

Section StationaryVar.

Variables (n : nat) (A B cc : matrix R).
Hypothesis A_shape : is_shape n n A.
Hypothesis B_shape : is_shape n n B.
Hypothesis cc_shape : is_shape n n cc.

(** The right-hand side of [H = CC' + A H A' + B H B']. *)
Let rhs (H : matrix R) : matrix R :=
  madd (madd cc (dot (dot A H) (transpose A))) (dot (dot B H) (transpose B)).

Lemma rhs_shape (H : matrix R) : is_shape n n (rhs H).
Proof.
  unfold rhs, madd. repeat apply zip_with_shape; auto using sandwich_shape.
Qed.

Lemma fixed_point_shape (H : matrix R) :
  is_shape n n H -> is_shape n n (fixed_point H A B cc).
Proof.
  intros HH. unfold fixed_point, msub, smul.
  repeat apply zip_with_shape; auto using sandwich_shape, map_shape.
Qed.

Lemma rhs_entry (H : matrix R) (i j : nat) :
  i < n -> j < n ->
  entry (rhs H) i j =
    (entry cc i j + entry (dot (dot A H) (transpose A)) i j
     + entry (dot (dot B H) (transpose B)) i j)%R.
Proof.
  intros Hi Hj. unfold rhs, madd.
  rewrite (@entry_zip_with R _ _ n n), (@entry_zip_with R _ _ n n);
    auto using sandwich_shape.
  apply zip_with_shape; auto using sandwich_shape.
Qed.

Lemma fixed_point_entry (H : matrix R) (i j : nat) :
  is_shape n n H -> i < n -> j < n ->
  entry (fixed_point H A B cc) i j =
    (2 * entry H i j - entry cc i j
     - entry (dot (dot A H) (transpose A)) i j
     - entry (dot (dot B H) (transpose B)) i j)%R.
Proof.
  intros HH Hi Hj. unfold fixed_point, msub, smul.
  rewrite !(@entry_zip_with R _ _ n n), (@entry_map R _ _ n n);
    auto using sandwich_shape, map_shape;
    repeat apply zip_with_shape; auto using sandwich_shape, map_shape.
Qed.

(** The fixed points of the iterated map are the solutions of the
    equation. *)
Lemma fixed_point_iff (H : matrix R) :
  is_shape n n H -> (fixed_point H A B cc = H <-> H = rhs H).
Proof.
  intros HH. split; intros Heq.
  - apply (@matrix_ext R _ n n); auto using rhs_shape.
    intros i j Hi Hj. rewrite rhs_entry by assumption.
    assert (He : entry (fixed_point H A B cc) i j = entry H i j)
      by now rewrite Heq.
    rewrite fixed_point_entry in He by assumption. lra.
  - apply (@matrix_ext R _ n n); auto using fixed_point_shape.
    intros i j Hi Hj. rewrite fixed_point_entry by assumption.
    assert (He : entry H i j = entry (rhs H) i j) by now rewrite <- Heq.
    rewrite rhs_entry in He by assumption. lra.
Qed.

(** What the map moves a matrix by is what the matrix misses the
    equation by, entry by entry. *)
Lemma fixed_point_defect (H : matrix R) :
  is_shape n n H -> msub (fixed_point H A B cc) H = msub H (rhs H).
Proof.
  intros HH.
  apply (@matrix_ext R _ n n);
    try (apply zip_with_shape; auto using rhs_shape, fixed_point_shape).
  intros i j Hi Hj. unfold msub.
  rewrite !(@entry_zip_with R _ _ n n);
    auto using rhs_shape, fixed_point_shape.
  rewrite fixed_point_entry, rhs_entry by assumption. simpl. lra.
Qed.

End StationaryVar.

(** ** The stationarity constraint *)

Lemma np_maximum_Rmax (a b : R) : np_maximum a b = Rmax a b.
Proof.
  unfold np_maximum, isnan. simpl.
  destruct (Rle_dec a a) as [_|Ha]; [|exfalso; apply Ha; lra].
  destruct (Rle_dec b b) as [_|Hb]; [|exfalso; apply Hb; lra].
  simpl. unfold Rmax. destruct (Rle_dec a b); reflexivity.
Qed.

Lemma fold_maximum_bounds (rest : list R) (x : R) :
  let m := fold_left np_maximum rest x in
  In m (x :: rest) /\ forall y, In y (x :: rest) -> (y <= m)%R.
Proof.
  revert x; induction rest as [|r rest IH]; intros x; simpl.
  - split; [now left | intros y [<-|[]]; lra].
  - destruct (IH (np_maximum x r)) as [Hin Hle]. simpl in Hin, Hle. split.
    + destruct Hin as [Heq|Hin]; [|now right; right].
      rewrite <- Heq, np_maximum_Rmax. unfold Rmax.
      destruct (Rle_dec x r); [right; left | left]; reflexivity.
    + intros y [->|[->|Hy]].
      * apply Rle_trans with (np_maximum y r); [|apply Hle; now left].
        rewrite np_maximum_Rmax. apply Rmax_l.
      * apply Rle_trans with (np_maximum x y); [|apply Hle; now left].
        rewrite np_maximum_Rmax. apply Rmax_r.
      * apply Hle. now right.
Qed.

(** ** Sums and inner products over the reals *)

Lemma fold_left_Rplus (v : list R) (a : R) :
  fold_left Rplus v a = (a + fold_left Rplus v 0)%R.
Proof.
  revert a; induction v as [|x v IH]; intros a; simpl; [lra|].
  rewrite (IH (a + x)%R), (IH (0 + x)%R). lra.
Qed.

Lemma vsum_nil : vsum (@nil R) = 0%R.
Proof. reflexivity. Qed.

Lemma vsum_cons (x : R) (v : vec R) : vsum (x :: v) = (x + vsum v)%R.
Proof.
  unfold vsum. simpl. rewrite fold_left_Rplus. simpl. lra.
Qed.

Lemma vsum_app (u v : vec R) : vsum (u ++ v) = (vsum u + vsum v)%R.
Proof.
  induction u as [|x u IH]; simpl.
  - rewrite vsum_nil. lra.
  - rewrite !vsum_cons, IH. lra.
Qed.

Lemma vdot_nil_l (v : vec R) : vdot [] v = 0%R.
Proof. reflexivity. Qed.

Lemma vdot_nil_r (u : vec R) : vdot u [] = 0%R.
Proof. destruct u; reflexivity. Qed.

Lemma vdot_cons (x y : R) (u v : vec R) :
  vdot (x :: u) (y :: v) = (x * y + vdot u v)%R.
Proof.
  unfold vdot. simpl zip_with. apply vsum_cons.
Qed.

Lemma vdot_comm (u v : vec R) : vdot u v = vdot v u.
Proof.
  revert v; induction u as [|x u IH]; intros [|y v];
    rewrite ?vdot_nil_l, ?vdot_nil_r, ?vdot_cons; auto.
  rewrite IH. lra.
Qed.

Lemma vdot_zeros_l (n : nat) (v : vec R) : vdot (repeat 0%R n) v = 0%R.
Proof.
  revert v; induction n as [|n IH]; intros [|y v]; simpl;
    rewrite ?vdot_nil_l, ?vdot_nil_r, ?vdot_cons; auto.
  rewrite IH. lra.
Qed.

Lemma vdot_zeros_r (n : nat) (u : vec R) : vdot u (repeat 0%R n) = 0%R.
Proof. rewrite vdot_comm. apply vdot_zeros_l. Qed.

Lemma vdot_scale_l (k : R) (u v : vec R) :
  vdot (map (fun x => k * x)%R u) v = (k * vdot u v)%R.
Proof.
  revert v; induction u as [|x u IH]; intros [|y v]; simpl;
    rewrite ?vdot_nil_l, ?vdot_nil_r, ?vdot_cons; try lra.
  rewrite IH. lra.
Qed.

Lemma vdot_map_scale_r {A : Type} (k : R) (f : A -> R) (l : list A)
    (y : vec R) :
  vdot y (map (fun a => f a * k)%R l) = (k * vdot y (map f l))%R.
Proof.
  revert y; induction l as [|a l IH]; intros [|x y]; simpl;
    rewrite ?vdot_nil_l, ?vdot_nil_r, ?vdot_cons; try lra.
  rewrite IH. lra.
Qed.

Lemma vdot_map_add {A : Type} (f g : A -> R) (l : list A) (y : vec R) :
  vdot y (map (fun a => f a + g a)%R l) =
    (vdot y (map f l) + vdot y (map g l))%R.
Proof.
  revert y; induction l as [|a l IH]; intros [|x y]; simpl;
    rewrite ?vdot_nil_l, ?vdot_nil_r, ?vdot_cons; try lra.
  rewrite IH. lra.
Qed.

Lemma vdot_sub_l (u v y : vec R) :
  length u = length v ->
  vdot (zip_with Rminus u v) y = (vdot u y - vdot v y)%R.
Proof.
  revert v y; induction u as [|a u IH]; intros [|b v] [|x y] Hlen;
    simpl in *; try discriminate;
    rewrite ?vdot_nil_l, ?vdot_nil_r, ?vdot_cons; try lra.
  rewrite IH by lia. lra.
Qed.

Lemma vdot_map_sub {A : Type} (f g : A -> R) (l : list A) (y : vec R) :
  vdot y (map (fun a => f a - g a)%R l) =
    (vdot y (map f l) - vdot y (map g l))%R.
Proof.
  revert y; induction l as [|a l IH]; intros [|x y]; simpl;
    rewrite ?vdot_nil_l, ?vdot_nil_r, ?vdot_cons; try lra.
  rewrite IH. lra.
Qed.

(** ** Transposes and products *)

Section ProductFacts.

Context {F : Type} `{Scalar F}.

Lemma nth_map_seq {A : Type} (f : nat -> A) (n j : nat) (d : A) :
  j < n -> nth j (map f (seq 0 n)) d = f j.
Proof.
  intros Hj. rewrite (nth_indep _ d (f 0)) by now rewrite length_map, length_seq.
  rewrite map_nth, seq_nth by assumption. reflexivity.
Qed.

Lemma nth_map_in_range {A B : Type} (f : A -> B) (l : list A) (i : nat)
    (da : A) (db : B) :
  i < length l -> nth i (map f l) db = f (nth i l da).
Proof.
  intros Hi. rewrite (nth_indep _ db (f da)) by now rewrite length_map.
  apply map_nth.
Qed.

Lemma transpose_shape (r c : nat) (M : matrix F) :
  is_shape r c M -> 0 < r -> is_shape c r (transpose M).
Proof.
  intros HM Hr. unfold transpose. rewrite (ncols_of_shape HM Hr). split.
  - now rewrite length_map, length_seq.
  - apply Forall_forall. intros row Hrow.
    apply in_map_iff in Hrow as [j [<- _]].
    rewrite length_map. apply HM.
Qed.

Lemma transpose_entry (r c : nat) (M : matrix F) (i j : nat) :
  is_shape r c M -> i < r -> j < c ->
  entry (transpose M) j i = entry M i j.
Proof.
  intros HM Hi Hj. unfold entry, transpose.
  rewrite (ncols_of_shape HM) by lia.
  rewrite nth_map_seq by assumption.
  apply (@nth_map_in_range _ _ (fun row : list F => nth j row fzero) M i
           [] fzero).
  destruct HM; lia.
Qed.

Lemma transpose_involutive (r c : nat) (M : matrix F) :
  is_shape r c M -> 0 < r -> 0 < c -> transpose (transpose M) = M.
Proof.
  intros HM Hr Hc.
  pose proof (transpose_shape HM Hr) as Ht.
  apply (@matrix_ext F _ r c); auto using transpose_shape.
  intros i j Hi Hj.
  rewrite (@transpose_entry c r (transpose M) j i) by assumption.
  now apply transpose_entry with (r := r) (c := c).
Qed.

Lemma dot_entry (X Z : matrix F) (i j : nat) :
  i < length X -> j < ncols Z ->
  entry (dot X Z) i j = vdot (nth i X []) (nth j (transpose Z) []).
Proof.
  intros Hi Hj. unfold entry, dot.
  rewrite (nth_map_in_range _ _ []) by assumption.
  apply nth_map_in_range. unfold transpose.
  now rewrite length_map, length_seq.
Qed.

(** Entry [(i, j)] of [L L'] is the inner product of rows [i] and [j]. *)
Lemma gram_entry (n : nat) (L : matrix F) (i j : nat) :
  is_shape n n L -> i < n -> j < n ->
  entry (dot L (transpose L)) i j = vdot (nth i L []) (nth j L []).
Proof.
  intros HL Hi Hj.
  rewrite dot_entry;
    [| destruct HL; lia | rewrite (ncols_transpose_square HL); lia].
  rewrite (@transpose_involutive n n) by (auto; lia). reflexivity.
Qed.

End ProductFacts.

(** ** The Cholesky factor *)

Lemma flt_R (a b : R) : flt a b = true <-> (a < b)%R.
Proof.
  simpl. destruct (Rlt_dec a b); split; auto; discriminate.
Qed.

Lemma nth_tl {A : Type} (l : list A) (j : nat) (d : A) :
  nth j (tl l) d = nth (S j) l d.
Proof. destruct l; [destruct j|]; reflexivity. Qed.

Lemma potrf_lower_step (n : nat) (a : R) (r0 : vec R) (rest : matrix R) :
  potrf_lower (S n) ((a :: r0) :: rest) =
    if flt 0%R a then
      match potrf_lower n (trailing_block (R_sqrt.sqrt a) rest) with
      | Some L' =>
          Some ((R_sqrt.sqrt a :: repeat 0%R n)
                  :: zip_with cons (scaled_column (R_sqrt.sqrt a) rest) L')
      | None => None
      end
    else None.
Proof. reflexivity. Qed.

Lemma shape_cons_inv (n c : nat) (row : vec R) (rest : matrix R) :
  is_shape (S n) c (row :: rest) -> length row = c /\ is_shape n c rest.
Proof.
  intros [Hlen Hrows]. inversion Hrows; subst. simpl in Hlen.
  repeat split; auto.
Qed.

Lemma tails_shape (n : nat) (rest : matrix R) :
  is_shape n (S n) rest -> is_shape n n (map (@tl R) rest).
Proof.
  intros [Hlen Hrows]. split; [now rewrite length_map|].
  apply Forall_forall. intros row Hrow.
  apply in_map_iff in Hrow as [x [<- Hx]].
  rewrite Forall_forall in Hrows. specialize (Hrows _ Hx).
  destruct x; simpl in *; lia.
Qed.

Lemma outer_shape_R (n : nat) (col : vec R) :
  length col = n ->
  is_shape n n (map (fun ci => map (fun cj => (ci * cj)%R) col) col).
Proof.
  intros Hc. split; [now rewrite length_map|].
  apply Forall_forall. intros row Hrow.
  apply in_map_iff in Hrow as [x [<- Hx]]. now rewrite length_map.
Qed.

Lemma trailing_shape (n : nat) (l : R) (rest : matrix R) :
  is_shape n (S n) rest -> is_shape n n (trailing_block l rest).
Proof.
  intros Hrest. unfold trailing_block, msub.
  apply zip_with_shape; [now apply tails_shape|].
  apply outer_shape_R. unfold scaled_column. rewrite length_map. apply Hrest.
Qed.

Lemma trailing_entry (n : nat) (l : R) (rest : matrix R) (i j : nat) :
  is_shape n (S n) rest -> i < n -> j < n ->
  entry (trailing_block l rest) i j =
    (nth (S j) (nth i rest []) 0
     - nth i (scaled_column l rest) 0 * nth j (scaled_column l rest) 0)%R.
Proof.
  intros Hrest Hi Hj. unfold trailing_block, msub.
  assert (Hcol : length (scaled_column l rest) = n)
    by (unfold scaled_column; rewrite length_map; apply Hrest).
  rewrite (@entry_zip_with R _ _ n n);
    auto using tails_shape, outer_shape_R.
  simpl. f_equal.
  - unfold entry.
    rewrite (@nth_map_in_range _ _ (@tl R) rest i [] [])
      by (destruct Hrest; lia).
    apply nth_tl.
  - unfold entry.
    rewrite (@nth_map_in_range _ _
               (fun ci => map (fun cj => (ci * cj)%R) (scaled_column l rest))
               (scaled_column l rest) i 0%R []) by lia.
    apply (@nth_map_in_range _ _ (fun cj => (_ * cj)%R)). lia.
Qed.

Lemma nth_factor_row (n : nat) (col : vec R) (L' : matrix R) (i : nat) :
  length col = n -> length L' = n -> i < n ->
  nth i (zip_with cons col L') [] = nth i col 0%R :: nth i L' [].
Proof.
  intros Hc HL Hi. apply nth_zip_with; lia.
Qed.

Lemma potrf_lower_correct (n : nat) :
  forall M L, is_shape n n M -> potrf_lower n M = Some L ->
    is_shape n n L /\ lower_triangular L /\
    (forall i, i < n -> (0 < entry L i i)%R) /\
    forall i j, j <= i -> i < n ->
      vdot (nth i L []) (nth j L []) = entry M i j.
Proof.
  induction n as [|n IH]; intros M L HM Hfac.
  - simpl in Hfac. injection Hfac as <-. repeat split; try (intros; lia).
    + constructor.
    + intros i j _. unfold entry. now destruct i, j.
  - destruct M as [|[|a r0] rest]; try discriminate.
    rewrite potrf_lower_step in Hfac.
    destruct (flt 0%R a) eqn:Hpos; [|discriminate].
    apply flt_R in Hpos.
    destruct (shape_cons_inv HM) as [Hrow Hrest].
    destruct (potrf_lower n (trailing_block (R_sqrt.sqrt a) rest)) as [L'|] eqn:HL';
      [|discriminate].
    injection Hfac as <-.
    destruct (IH _ _ (trailing_shape (R_sqrt.sqrt a) Hrest) HL')
      as [HLs [Hlow [Hdiag Hgram]]].
    set (l := R_sqrt.sqrt a) in *. set (col := scaled_column l rest) in *.
    assert (Hl : (0 < l)%R) by (apply sqrt_lt_R0; assumption).
    assert (Hll : (l * l = a)%R) by (apply sqrt_sqrt; lra).
    assert (Hcol : length col = n)
      by (unfold col, scaled_column; rewrite length_map; apply Hrest).
    assert (HLlen : length L' = n) by apply HLs.
    repeat split.
    + simpl. rewrite zip_with_length. lia.
    + constructor; [simpl; now rewrite repeat_length|].
      apply Forall_zip_with. intros c row _ Hrow'. simpl.
      destruct HLs as [_ HLrows]. rewrite Forall_forall in HLrows.
      now rewrite (HLrows _ Hrow').
    + intros i j Hij. unfold entry. destruct i as [|i].
      * destruct j as [|j]; [lia|]. simpl.
        destruct (Nat.lt_ge_cases j n) as [Hj|Hj].
        -- now rewrite nth_repeat.
        -- apply nth_overflow. now rewrite repeat_length.
      * destruct j as [|j]; [lia|]. simpl.
        destruct (Nat.lt_ge_cases i n) as [Hi|Hi].
        -- rewrite (@nth_factor_row n col L' i Hcol HLlen Hi). simpl.
           apply Hlow. lia.
        -- rewrite (nth_overflow (zip_with cons col L'))
             by (rewrite zip_with_length; lia).
           now destruct j.
    + intros i Hi. unfold entry. destruct i as [|i]; simpl; [exact Hl|].
      rewrite (@nth_factor_row n col L' i Hcol HLlen) by lia. simpl.
      apply Hdiag. lia.
    + intros i j Hji Hi. unfold entry.
      destruct i as [|i].
      * assert (j = 0) by lia. subst j. simpl.
        rewrite vdot_cons, vdot_zeros_l. lra.
      * assert (Hi' : i < n) by lia. cbn [nth].
        rewrite (@nth_factor_row n col L' i Hcol HLlen Hi').
        destruct j as [|j]; cbn [nth].
        -- rewrite vdot_cons, vdot_zeros_r.
           unfold col, scaled_column.
           rewrite (@nth_map_in_range _ _ (fun row => (hd 0 row / l)%R) rest i
                      [] 0%R) by (destruct Hrest; lia).
           destruct (nth i rest []) as [|x row]; simpl;
             unfold Rdiv; rewrite Rmult_assoc, Rinv_l by lra; lra.
        -- assert (Hj' : j < n) by lia.
           rewrite (@nth_factor_row n col L' j Hcol HLlen Hj'), vdot_cons.
           rewrite Hgram by lia.
           rewrite (trailing_entry l Hrest Hi' Hj'). fold col.
           change (@fzero R R_scalar) with 0%R. lra.
Qed.

(** ** Positive definite matrices are factored *)

Lemma vdot_row_cons (row : vec R) (x0 : R) (y : vec R) :
  vdot row (x0 :: y) = (hd 0 row * x0 + vdot (tl row) y)%R.
Proof.
  destruct row as [|h row]; simpl.
  - rewrite !vdot_nil_l. lra.
  - apply vdot_cons.
Qed.

Lemma quad_form_cons (a x0 : R) (r0 y : vec R) (rest : matrix R) :
  quad_form ((a :: r0) :: rest) (x0 :: y) =
    (a * x0 * x0 + x0 * vdot r0 y + x0 * vdot y (first_column rest)
     + quad_form (map (@tl R) rest) y)%R.
Proof.
  unfold quad_form, mat_vec. simpl map.
  rewrite !vdot_cons.
  rewrite (map_ext _ (fun row => (hd 0 row * x0 + vdot (tl row) y)%R))
    by (intros row; apply vdot_row_cons).
  rewrite vdot_map_add, vdot_map_scale_r, map_map.
  unfold first_column. lra.
Qed.

Lemma mat_vec_sub (n : nat) (D O : matrix R) (y : vec R) :
  length D = length O ->
  Forall (fun row => length row = n) D -> Forall (fun row => length row = n) O ->
  mat_vec (msub D O) y = zip_with Rminus (mat_vec D y) (mat_vec O y).
Proof.
  revert O; induction D as [|d D IH]; intros [|o O] Hlen HD HO;
    simpl in *; try discriminate; auto.
  inversion HD; inversion HO; subst.
  f_equal; [apply vdot_sub_l; lia | apply IH; auto].
Qed.

Lemma quad_form_sub (n : nat) (D O : matrix R) (y : vec R) :
  is_shape n n D -> is_shape n n O ->
  quad_form (msub D O) y = (quad_form D y - quad_form O y)%R.
Proof.
  intros [HD HDrows] [HO HOrows]. unfold quad_form.
  rewrite (@mat_vec_sub n) by (auto; lia).
  rewrite (vdot_comm y), vdot_sub_l, !(vdot_comm _ y);
    [reflexivity | unfold mat_vec, matrix, vec in *; rewrite !length_map; lia].
Qed.

Lemma quad_form_outer (col y : vec R) :
  quad_form (map (fun ci => map (fun cj => (ci * cj)%R) col) col) y =
    (vdot col y * vdot col y)%R.
Proof.
  unfold quad_form, mat_vec. rewrite map_map.
  rewrite (map_ext _ (fun ci => (ci * vdot col y)%R))
    by (intros ci; apply vdot_scale_l).
  rewrite (vdot_map_scale_r (vdot col y) (fun ci => ci) col y), map_id.
  rewrite (vdot_comm y col). reflexivity.
Qed.

Lemma vdot_scaled_column (l : R) (rest : matrix R) (y : vec R) :
  vdot (scaled_column l rest) y = (/ l * vdot (first_column rest) y)%R.
Proof.
  unfold scaled_column, first_column.
  rewrite <- vdot_scale_l, map_map.
  f_equal. apply map_ext. intros row. unfold Rdiv. lra.
Qed.

Lemma quad_form_trailing (n : nat) (l : R) (rest : matrix R) (y : vec R) :
  is_shape n (S n) rest ->
  quad_form (trailing_block l rest) y =
    (quad_form (map (@tl R) rest) y
     - (/ l * vdot (first_column rest) y) * (/ l * vdot (first_column rest) y))%R.
Proof.
  intros Hrest. unfold trailing_block.
  rewrite (@quad_form_sub n);
    [| now apply tails_shape
     | apply outer_shape_R; unfold scaled_column; rewrite length_map;
       apply Hrest].
  now rewrite quad_form_outer, vdot_scaled_column.
Qed.

Lemma symmetric_first_row (n : nat) (a : R) (r0 : vec R) (rest : matrix R) :
  is_shape (S n) (S n) ((a :: r0) :: rest) ->
  symmetric (S n) ((a :: r0) :: rest) ->
  r0 = first_column rest.
Proof.
  intros HM Hsym. destruct (shape_cons_inv HM) as [Hrow Hrest].
  simpl in Hrow. unfold first_column.
  apply (nth_ext _ _ 0%R 0%R).
  - rewrite length_map. destruct Hrest. lia.
  - intros j Hj.
    specialize (Hsym 0 (S j) ltac:(lia) ltac:(lia)).
    unfold entry in Hsym. simpl in Hsym. rewrite Hsym.
    rewrite (@nth_map_in_range _ _ (hd 0%R) rest j [] 0%R)
      by (destruct Hrest; lia).
    now destruct (nth j rest []).
Qed.

Lemma quad_form_zeros (n : nat) (M : matrix R) :
  quad_form M (repeat 0%R n) = 0%R.
Proof. apply vdot_zeros_l. Qed.

Lemma pos_def_step (n : nat) (a : R) (r0 : vec R) (rest : matrix R) :
  pos_def (S n) ((a :: r0) :: rest) ->
  (0 < a)%R /\ pos_def n (trailing_block (R_sqrt.sqrt a) rest).
Proof.
  intros [HM [Hsym Hpos]].
  destruct (shape_cons_inv HM) as [Hrow Hrest].
  pose proof (symmetric_first_row HM Hsym) as Hr0.
  assert (Ha : (0 < a)%R).
  { specialize (Hpos (1%R :: repeat 0%R n)).
    rewrite quad_form_cons, quad_form_zeros, vdot_zeros_r, vdot_zeros_l in Hpos.
    assert (Hq : (0 < a * 1 * 1 + 1 * 0 + 1 * 0 + 0)%R).
    { apply Hpos; [simpl; now rewrite repeat_length|].
      simpl. intros Heq. injection Heq as Heq. lra. }
    lra. }
  split; [exact Ha|].
  set (l := R_sqrt.sqrt a).
  assert (Hl : (0 < l)%R) by (apply sqrt_lt_R0; assumption).
  assert (Hll : (l * l = a)%R) by (apply sqrt_sqrt; lra).
  split; [now apply trailing_shape|]. split.
  - intros i j Hi Hj. rewrite !(@trailing_entry n) by assumption.
    specialize (Hsym (S i) (S j) ltac:(lia) ltac:(lia)).
    unfold entry in Hsym. simpl in Hsym.
    change (@fzero R R_scalar) with 0%R in Hsym. rewrite Hsym. lra.
  - intros y Hy Hnz.
    set (s := vdot (first_column rest) y).
    specialize (Hpos ((- s / a)%R :: y)).
    rewrite quad_form_cons in Hpos.
    rewrite (@quad_form_trailing n) by assumption. fold s.
    rewrite Hr0, (vdot_comm y) in Hpos. fold s in Hpos.
    assert (Hq : (0 < a * (- s / a) * (- s / a) + - s / a * s + - s / a * s
                     + quad_form (map (@tl R) rest) y)%R).
    { apply Hpos; [simpl; now rewrite Hy|].
      simpl. intros Heq. injection Heq as _ Heq. contradiction. }
    replace (/ l * s * (/ l * s))%R with (s * s / a)%R
      by (rewrite <- Hll; field; lra).
    replace (a * (- s / a) * (- s / a) + - s / a * s + - s / a * s)%R
      with (- (s * s / a))%R in Hq by (field; lra).
    lra.
Qed.

Lemma potrf_lower_pos_def (n : nat) :
  forall M, pos_def n M -> exists L, potrf_lower n M = Some L.
Proof.
  induction n as [|n IH]; intros M Hpd.
  - exists []. reflexivity.
  - assert (HM : is_shape (S n) (S n) M) by apply Hpd.
    destruct M as [|[|a r0] rest];
      try (destruct HM as [Hlen Hrows]; simpl in Hlen; discriminate).
    + destruct HM as [_ Hrows]. inversion Hrows. discriminate.
    + destruct (pos_def_step Hpd) as [Ha Htr].
      destruct (IH _ Htr) as [L' HL'].
      rewrite potrf_lower_step, HL'.
      apply flt_R in Ha. rewrite Ha. eauto.
Qed.

(** ** [find_cmat] in exact arithmetic *)

Lemma isfinite_R (x : R) : isfinite x = true.
Proof.
  unfold isfinite, isnan. simpl.
  destruct (Rle_dec (x - x) (x - x)) as [_|Hn];
    [reflexivity | exfalso; apply Hn; lra].
Qed.

Lemma sl_cholesky_lower_R (n : nat) (M : matrix R) :
  is_shape n n M ->
  sl_cholesky_lower M =
    match potrf_lower n M with
    | Some L => Return L
    | None => Raise LinAlgError
    end.
Proof.
  intros [Hlen Hrows]. unfold sl_cholesky_lower.
  assert (Hfin : forallb (forallb isfinite) M = true).
  { apply forallb_forall. intros row _. apply forallb_forall.
    intros x _. apply isfinite_R. }
  assert (Hsq : forallb (fun row => Nat.eqb (length row) (nrows M)) M = true).
  { apply forallb_forall. intros row Hrow. rewrite Forall_forall in Hrows.
    apply Nat.eqb_eq. unfold nrows. rewrite (Hrows _ Hrow). now symmetry. }
  rewrite Hfin, Hsq. simpl. unfold nrows. now rewrite Hlen.
Qed.

Lemma find_cmat_ccmat_shape (n : nat) (A B target : matrix R) :
  is_shape n n A -> is_shape n n B -> is_shape n n target ->
  is_shape n n (find_cmat_ccmat A B target).
Proof.
  intros HA HB Ht. unfold find_cmat_ccmat, msub.
  repeat apply zip_with_shape; auto using sandwich_shape.
Qed.

Lemma find_cmat_R (n : nat) (A B target : matrix R) :
  is_shape n n A -> is_shape n n B -> is_shape n n target ->
  find_cmat A B target =
    Return (potrf_lower n (find_cmat_ccmat A B target)).
Proof.
  intros HA HB Ht. unfold find_cmat.
  rewrite (sl_cholesky_lower_R (find_cmat_ccmat_shape HA HB Ht)).
  now destruct (potrf_lower n (find_cmat_ccmat A B target)).
Qed.

Lemma gram_lower_entry (n : nat) (M L : matrix R) (i j : nat) :
  is_shape n n M -> potrf_lower n M = Some L -> j <= i -> i < n ->
  entry (dot L (transpose L)) i j = entry M i j.
Proof.
  intros HM HL Hji Hi.
  destruct (potrf_lower_correct HM HL) as [HLs [_ [_ Hgram]]].
  rewrite (@gram_entry R _ n) by (auto; lia). now apply Hgram.
Qed.

Lemma gram_symmetric (n : nat) (L : matrix R) :
  is_shape n n L -> symmetric n (dot L (transpose L)).
Proof.
  intros HL i j Hi Hj. rewrite !(@gram_entry R _ n) by assumption.
  apply vdot_comm.
Qed.

(** ** A series of zeros *)

Lemma vdot_all_zero_l (u v : vec R) :
  Forall (fun x => x = 0%R) u -> vdot u v = 0%R.
Proof.
  intros Hu. revert v; induction Hu as [|x u -> _ IH]; intros [|y v];
    rewrite ?vdot_nil_l, ?vdot_nil_r, ?vdot_cons; auto.
  rewrite IH. lra.
Qed.

Lemma vdot_all_zero_r (u v : vec R) :
  Forall (fun x => x = 0%R) v -> vdot u v = 0%R.
Proof. intros Hv. rewrite vdot_comm. now apply vdot_all_zero_l. Qed.

Lemma all_zero_zeros (r c : nat) : all_zero (zeros r c).
Proof.
  unfold all_zero, zeros. apply Forall_forall. intros row Hrow.
  apply repeat_spec in Hrow. subst row.
  apply Forall_forall. intros x Hx. now apply repeat_spec in Hx.
Qed.

Lemma zeros_shape (r c : nat) : is_shape r c (zeros (F := R) r c).
Proof.
  unfold zeros. split; [apply repeat_length|].
  apply Forall_forall. intros row Hrow.
  apply repeat_spec in Hrow. subst row. apply repeat_length.
Qed.

Lemma all_zero_eq (r c : nat) (M : matrix R) :
  is_shape r c M -> all_zero M -> M = zeros r c.
Proof.
  intros HM Hz. apply (@matrix_ext R _ r c); auto using zeros_shape.
  assert (Hent : forall N, all_zero N -> forall i j, entry N i j = 0%R).
  { intros N HN i j. unfold entry.
    destruct (Nat.lt_ge_cases i (length N)) as [Hi|Hi].
    - unfold all_zero in HN. rewrite Forall_forall in HN.
      specialize (HN _ (nth_In N [] Hi)).
      destruct (Nat.lt_ge_cases j (length (nth i N []))) as [Hj|Hj].
      + rewrite Forall_forall in HN. apply HN. now apply nth_In.
      + now apply nth_overflow.
    - rewrite (nth_overflow N) by assumption. now destruct j. }
  intros i j _ _. rewrite (Hent M Hz), (Hent _ (all_zero_zeros r c)).
  reflexivity.
Qed.

Lemma all_zero_dot_l (A B : matrix R) : all_zero A -> all_zero (dot A B).
Proof.
  intros HA. unfold all_zero, dot in *. rewrite Forall_forall in *.
  intros row Hrow. apply in_map_iff in Hrow as [r [<- Hr]].
  apply Forall_forall. intros x Hx. apply in_map_iff in Hx as [c [<- _]].
  apply vdot_all_zero_l. auto.
Qed.

Lemma all_zero_dot_r (A B : matrix R) : all_zero B -> all_zero (dot A B).
Proof.
  intros HB. unfold all_zero, dot in *. apply Forall_forall.
  intros row Hrow. apply in_map_iff in Hrow as [r [<- Hr]].
  apply Forall_forall. intros x Hx. apply in_map_iff in Hx as [c [<- Hc]].
  apply vdot_all_zero_r. unfold transpose in Hc.
  apply in_map_iff in Hc as [j [<- _]].
  apply Forall_forall. intros y Hy. apply in_map_iff in Hy as [b [<- Hb]].
  rewrite Forall_forall in HB. specialize (HB _ Hb).
  destruct (Nat.lt_ge_cases j (length b)) as [Hj|Hj].
  - rewrite Forall_forall in HB. apply HB. now apply nth_In.
  - now apply nth_overflow.
Qed.

Lemma all_zero_msub (A B : matrix R) :
  all_zero A -> all_zero B -> all_zero (msub A B).
Proof.
  intros HA HB. unfold all_zero, msub in *. apply Forall_zip_with.
  intros a b Ha Hb. rewrite Forall_forall in HA, HB.
  specialize (HA _ Ha). specialize (HB _ Hb).
  apply Forall_zip_with. intros x y Hx Hy.
  rewrite Forall_forall in HA, HB. rewrite (HA _ Hx), (HB _ Hy).
  simpl. lra.
Qed.

Lemma all_zero_sdiv (M : matrix R) (k : R) : all_zero M -> all_zero (sdiv M k).
Proof.
  intros HM. unfold all_zero, sdiv in *. apply Forall_forall.
  intros row Hrow. apply in_map_iff in Hrow as [r [<- Hr]].
  apply Forall_forall. intros x Hx. apply in_map_iff in Hx as [y [<- Hy]].
  rewrite Forall_forall in HM. specialize (HM _ Hr).
  rewrite Forall_forall in HM. rewrite (HM _ Hy). simpl. unfold Rdiv. lra.
Qed.

Lemma potrf_lower_zeros (n : nat) :
  potrf_lower (S n) (zeros (F := R) (S n) (S n)) = None.
Proof.
  simpl. destruct (Rlt_dec 0 0) as [Hlt|_]; [lra | reflexivity].
Qed.

Lemma estimate_h0_zeros (T N : nat) :
  0 < T -> estimate_h0 (zeros (F := R) T N) = zeros N N.
Proof.
  intros HT.
  assert (Hcols : ncols (zeros (F := R) T N) = N)
    by (apply (ncols_of_shape (zeros_shape T N)); assumption).
  apply all_zero_eq.
  - unfold estimate_h0, sdiv. apply map_shape. apply dot_shape; auto.
    unfold transpose. now rewrite length_map, length_seq.
  - apply all_zero_sdiv, all_zero_dot_r, all_zero_zeros.
Qed.

Lemma find_cmat_ccmat_zeros (n : nat) (A B : matrix R) :
  is_shape n n A -> is_shape n n B ->
  find_cmat_ccmat A B (zeros n n) = zeros n n.
Proof.
  intros HA HB. apply all_zero_eq.
  - apply find_cmat_ccmat_shape; auto using zeros_shape.
  - unfold find_cmat_ccmat.
    repeat apply all_zero_msub; try apply all_zero_zeros;
      apply all_zero_dot_l, all_zero_dot_r, all_zero_zeros.
Qed.

(** C9, as the code has it: for a series of zeros the target is the zero
    matrix, for which [find_cmat] returns [None], the flag of an
    infeasible parameter set, since the zero matrix has no positive
    pivot; the constraint of the parameters built from that target is
    the largest eigenvalue magnitude of [A (x) A + B (x) B], whatever the
    target. *)
Theorem zero_series_has_no_cmat {E : Eigvals R} (T N : nat)
    (A B : matrix R) :
  0 < T -> 0 < N -> is_shape N N A -> is_shape N N B ->
  let target := estimate_h0 (zeros T N) in
  target = zeros N N
  /\ find_cmat A B target = Return None
  /\ from_target A B target = Return (from_abc A B None)
  /\ constraint (from_abc A B None) =
       (eigs <- sl_eigvals (kron_sum A B) ;; amax (map cabs eigs)).
Proof.
  intros HT HN HA HB target.
  assert (Htarget : target = zeros N N) by now apply estimate_h0_zeros.
  assert (Hfind : find_cmat A B target = Return None).
  { rewrite Htarget, (find_cmat_R HA HB (zeros_shape N N)).
    rewrite (find_cmat_ccmat_zeros HA HB).
    destruct N as [|n]; [lia|]. now rewrite potrf_lower_zeros. }
  repeat split; auto.
  unfold from_target. now rewrite Hfind.
Qed.

(** Two observations of one series, all zero, with [A = B = 1/2]. *)
Lemma zero_series_has_no_cmat_witness :
  find_cmat [[/ 2]]%R [[/ 2]]%R (estimate_h0 (zeros 2 1)) = Return None.
Proof.
  apply (@zero_series_has_no_cmat (@triangular_eigvals R _) 2 1
           [[/ 2]]%R [[/ 2]]%R);
    try lia; split; first [reflexivity | repeat constructor].
Defined.

(** C9, as stated, fails in binary64 on two zero observations of one
    series with [A = B = 0.5]: the target is the zero matrix and
    [find_cmat] returns [None], not the zero matrix. *)
Lemma zero_series_counterexample :
  estimate_h0 [[0]; [0]]%float = [[0]]%float
  /\ find_cmat [[0.5]]%float [[0.5]]%float (estimate_h0 [[0]; [0]]%float)
     = Return None
  /\ Return (@None (matrix float)) <> Return (Some [[0]]%float).
Proof.
  split; [vm_compute; reflexivity|].
  split; [vm_compute; reflexivity | discriminate].
Qed.

(** ** The likelihood *)

(** ** Determinants of block-diagonal matrices *)

Lemma sum_over_app (l1 l2 : list nat) (f : nat -> R) :
  sum_over (l1 ++ l2) f = (sum_over l1 f + sum_over l2 f)%R.
Proof.
  induction l1 as [|j l1 IH]; simpl; [lra | rewrite IH; lra].
Qed.

Lemma sum_over_ext (l : list nat) (f g : nat -> R) :
  (forall j, In j l -> f j = g j) -> sum_over l f = sum_over l g.
Proof.
  induction l as [|j l IH]; intros Hfg; simpl; [reflexivity|].
  rewrite (Hfg j) by (simpl; auto).
  rewrite IH; [reflexivity|]. intros k Hk. apply Hfg. simpl; auto.
Qed.

Lemma sum_over_zero (l : list nat) (f : nat -> R) :
  (forall j, In j l -> f j = 0%R) -> sum_over l f = 0%R.
Proof.
  induction l as [|j l IH]; intros Hf; simpl; [reflexivity|].
  rewrite (Hf j) by (simpl; auto).
  rewrite IH; [lra|]. intros k Hk. apply Hf. simpl; auto.
Qed.

Lemma sum_over_scale_r (l : list nat) (f : nat -> R) (c : R) :
  sum_over l (fun j => (f j * c)%R) = (sum_over l f * c)%R.
Proof.
  induction l as [|j l IH]; simpl; [lra | rewrite IH; lra].
Qed.

Lemma sum_over_add (l : list nat) (f g : nat -> R) :
  sum_over l (fun j => (f j + g j)%R) = (sum_over l f + sum_over l g)%R.
Proof.
  induction l as [|j l IH]; simpl; [lra | rewrite IH; lra].
Qed.

Lemma sum_over_map (h : nat -> nat) (l : list nat) (f : nat -> R) :
  sum_over (map h l) f = sum_over l (fun j => f (h j)).
Proof.
  induction l as [|j l IH]; simpl; [reflexivity | now rewrite IH].
Qed.

Lemma sum_over_seq_S (n : nat) (f : nat -> R) :
  sum_over (seq 0 (S n)) f =
    (f 0%nat + sum_over (seq 0 n) (fun t => f (S t)))%R.
Proof.
  simpl. now rewrite <- seq_shift, sum_over_map.
Qed.

Lemma drop_nth_app_l {A : Type} (j : nat) (r z : list A) :
  j < length r -> drop_nth j (r ++ z) = drop_nth j r ++ z.
Proof.
  intros Hj. unfold drop_nth.
  rewrite firstn_app, skipn_app.
  replace (j - length r) with 0 by lia.
  replace (S j - length r) with 0 by lia.
  simpl. now rewrite app_nil_r, app_assoc.
Qed.

Lemma drop_nth_repeat_app {A : Type} (j n : nat) (x : A) (r : list A) :
  j < S n -> drop_nth j (repeat x (S n) ++ r) = repeat x n ++ r.
Proof.
  intros Hj.
  rewrite drop_nth_app_l by (rewrite repeat_length; lia).
  f_equal. unfold drop_nth.
  apply (nth_ext _ _ x x).
  - rewrite length_app, length_firstn, length_skipn, !repeat_length. lia.
  - intros i _.
    destruct (Nat.lt_ge_cases i n) as [Hi|Hi].
    + rewrite nth_repeat.
      destruct (Nat.lt_ge_cases i j) as [Hij|Hij].
      * rewrite app_nth1 by (rewrite length_firstn, repeat_length; lia).
        rewrite nth_firstn.
        replace (i <? j) with true by (symmetry; apply Nat.ltb_lt; lia).
        apply nth_repeat.
      * rewrite app_nth2 by (rewrite length_firstn, repeat_length; lia).
        rewrite nth_skipn. apply nth_repeat.
    + rewrite !nth_overflow; auto.
      * rewrite repeat_length. lia.
      * rewrite length_app, length_firstn, length_skipn, !repeat_length. lia.
Qed.

Lemma drop_nth_length {A : Type} (j n : nat) (l : list A) :
  length l = S n -> j < S n -> length (drop_nth j l) = n.
Proof.
  intros Hl Hj. unfold drop_nth.
  rewrite length_app, length_firstn, length_skipn. lia.
Qed.

Lemma minor_shape (n j : nat) (rest : matrix R) :
  is_shape n (S n) rest -> j < S n ->
  is_shape n n (map (drop_nth j) rest).
Proof.
  intros [Hlen Hrows] Hj. split; [now rewrite length_map|].
  apply Forall_forall. intros row Hrow.
  apply in_map_iff in Hrow as [r [<- Hr]].
  rewrite Forall_forall in Hrows. apply drop_nth_length; auto.
Qed.

(** The matrix with blocks [A] and [B] on its diagonal. *)
Lemma det_two_blocks (n : nat) :
  forall (m : nat) (A B : matrix R),
    is_shape n n A ->
    det_n (n + m)
      (map (fun row => row ++ repeat 0%R m) A
         ++ map (fun row => repeat 0%R n ++ row) B)
    = (det_n n A * det_n m B)%R.
Proof.
  induction n as [|n IH]; intros m A B HA.
  - destruct HA as [Hlen _]. destruct A; [|discriminate]. simpl.
    rewrite map_id. lra.
  - destruct A as [|row A'];
      [destruct HA as [Hlen _]; discriminate|].
    destruct HA as [Hlen Hrows]. inversion Hrows as [|? ? Hrow HA']; subst.
    assert (HA'' : is_shape n (S n) A') by (split; simpl in Hlen; auto; lia).
    change (S n + m) with (S (n + m)). cbn [map app det_n].
    change (S (n + m)) with (S n + m). rewrite seq_app, sum_over_app.
    rewrite (sum_over_zero (seq (0 + S n) m)).
    2:{ intros j Hj. apply in_seq in Hj.
        replace (nth j (row ++ repeat 0%R m) 0%R) with 0%R; [lra|].
        rewrite app_nth2 by lia.
        destruct (Nat.lt_ge_cases (j - length row) m).
        - now rewrite nth_repeat.
        - rewrite nth_overflow; auto. now rewrite repeat_length. }
    rewrite Rplus_0_r, <- sum_over_scale_r.
    apply sum_over_ext. intros j Hj. apply in_seq in Hj.
    rewrite app_nth1 by lia.
    rewrite map_app, !map_map.
    rewrite (map_ext_in _ (fun r => drop_nth j r ++ repeat 0%R m)).
    2:{ intros r Hr. rewrite Forall_forall in HA'.
        apply drop_nth_app_l. rewrite (HA' _ Hr). lia. }
    rewrite (map_ext (fun r => drop_nth j (repeat 0%R (S n) ++ r))
                     (fun r => repeat 0%R n ++ r)).
    2:{ intros r. apply drop_nth_repeat_app. lia. }
    rewrite <- (map_map (drop_nth j) (fun r => r ++ repeat 0%R m)).
    rewrite IH by (apply minor_shape; auto; lia).
    lra.
Qed.

Lemma block_diag_length (N : nat) (Hs : list (matrix R)) :
  Forall (is_shape N N) Hs -> length (block_diag Hs) = length Hs * N.
Proof.
  induction 1 as [|H Hs HH _ IH]; simpl; [reflexivity|].
  rewrite length_app, !length_map, IH. destruct HH as [-> _]. lia.
Qed.

(** The determinant of a block-diagonal matrix is the product of the
    determinants of its blocks. *)
Lemma det_block_diag (N : nat) (Hs : list (matrix R)) :
  Forall (is_shape N N) Hs -> det (block_diag Hs) = rprod (map det Hs).
Proof.
  induction 1 as [|H Hs HH HHs IH]; [reflexivity|].
  unfold det at 1. rewrite (block_diag_length (Forall_cons _ HH HHs)).
  simpl. change (N + length Hs * N) with (N + length Hs * N).
  assert (Hlen : length H = N) by apply HH.
  rewrite Hlen, <- (block_diag_length HHs).
  rewrite det_two_blocks by assumption.
  unfold det in *. now rewrite Hlen, IH.
Qed.

(** ** Logarithms of products *)

Lemma rprod_nonzero (l : list R) :
  rprod l <> 0%R -> Forall (fun x => x <> 0%R) l.
Proof.
  induction l as [|x l IH]; intros Hp; constructor; simpl in Hp.
  - intros ->. apply Hp. lra.
  - apply IH. intros Hz. apply Hp. rewrite Hz. lra.
Qed.

Lemma rprod_map_Rabs (l : list R) :
  rprod (map Rabs l) = Rabs (rprod l).
Proof.
  induction l as [|x l IH]; simpl.
  - symmetry. apply Rabs_R1.
  - now rewrite Rabs_mult, IH.
Qed.

Lemma rprod_pos (l : list R) :
  Forall (fun x => (0 < x)%R) l -> (0 < rprod l)%R.
Proof.
  induction 1 as [|x l Hx _ IH]; simpl; [lra|].
  now apply Rmult_lt_0_compat.
Qed.

Lemma vsum_map_ln (l : list R) :
  Forall (fun x => (0 < x)%R) l -> vsum (map ln l) = ln (rprod l).
Proof.
  induction 1 as [|x l Hx Hl IH]; simpl.
  - rewrite vsum_nil. symmetry. apply ln_1.
  - rewrite vsum_cons, IH, ln_mult; auto using rprod_pos.
Qed.

Lemma filter_isnan_R (l : list R) :
  filter (fun d => negb (isnan d)) l = l.
Proof.
  induction l as [|x l IH]; simpl; [reflexivity|].
  unfold isnan at 1. simpl.
  destruct (Rle_dec x x) as [_|Hn]; [|exfalso; apply Hn; lra].
  simpl. now rewrite IH.
Qed.

(** The sum of [ln |d|] over a list whose product has the magnitude of a
    product of nonzero numbers. *)
Lemma log_det_sum (ds dets : list R) :
  rprod (map Rabs ds) = Rabs (rprod dets) ->
  Forall (fun x => x <> 0%R) dets ->
  vsum (map (fun d => ln (Rabs d)) ds) =
    vsum (map (fun x => ln (Rabs x)) dets).
Proof.
  intros Hprod Hnz.
  assert (Hpos : forall l, Forall (fun x => x <> 0%R) l ->
                   Forall (fun x => (0 < x)%R) (map Rabs l)).
  { intros l Hl. apply Forall_forall. intros y Hy.
    apply in_map_iff in Hy as [x [<- Hx]].
    rewrite Forall_forall in Hl. apply Rabs_pos_lt. auto. }
  assert (Hds : Forall (fun x => x <> 0%R) ds).
  { apply rprod_nonzero. intros Hz.
    rewrite rprod_map_Rabs, Hz, Rabs_R0 in Hprod.
    pose proof (rprod_pos (Hpos _ Hnz)) as Hp.
    rewrite rprod_map_Rabs in Hp. lra. }
  rewrite <- (map_map Rabs ln ds), <- (map_map Rabs ln dets).
  rewrite !vsum_map_ln by auto.
  now rewrite Hprod, rprod_map_Rabs.
Qed.

(** ** Solving with a block-diagonal matrix *)

Lemma vdot_app (u1 u2 v1 v2 : vec R) :
  length u1 = length v1 ->
  vdot (u1 ++ u2) (v1 ++ v2) = (vdot u1 v1 + vdot u2 v2)%R.
Proof.
  revert v1; induction u1 as [|a u1 IH]; intros [|b v1] Hlen;
    simpl in *; try discriminate.
  - rewrite vdot_nil_l. lra.
  - rewrite !vdot_cons, IH by lia. lra.
Qed.

Lemma mat_vec_two_blocks (n m : nat) (A B : matrix R) (x1 x2 : vec R) :
  Forall (fun row => length row = n) A -> length x1 = n ->
  mat_vec (map (fun row => row ++ repeat 0%R m) A
             ++ map (fun row => repeat 0%R n ++ row) B) (x1 ++ x2)
  = mat_vec A x1 ++ mat_vec B x2.
Proof.
  intros HA Hx. unfold mat_vec. rewrite map_app, !map_map. f_equal.
  - apply map_ext_in. intros row Hrow. rewrite Forall_forall in HA.
    rewrite vdot_app by (rewrite (HA _ Hrow); lia).
    rewrite vdot_zeros_l. lra.
  - apply map_ext. intros row.
    rewrite vdot_app by (rewrite repeat_length; lia).
    rewrite vdot_zeros_l. lra.
Qed.

Lemma app_inv_length {A : Type} (l1 l2 r1 r2 : list A) :
  length l1 = length r1 -> l1 ++ l2 = r1 ++ r2 -> l1 = r1 /\ l2 = r2.
Proof.
  revert r1; induction l1 as [|a l1 IH]; intros [|b r1] Hlen Heq;
    simpl in *; try discriminate; auto.
  injection Heq as -> Heq. destruct (IH r1) as [-> ->]; auto.
Qed.

(** The solution of the block-diagonal system, cut into blocks, solves
    every block. *)
Lemma block_solve (N : nat) (Hs : list (matrix R)) :
  forall (innov : matrix R) (x : vec R),
    Forall (is_shape N N) Hs -> is_shape (length Hs) N innov ->
    length x = length Hs * N ->
    mat_vec (block_diag Hs) x = concat innov ->
    forall t, t < length Hs ->
      mat_vec (nth t Hs []) (nth t (chunks N (length Hs) x) [])
      = nth t innov [].
Proof.
  induction Hs as [|H Hs IH]; intros innov x HHs Hinnov Hx Hsolve t Ht;
    simpl in *; [lia|].
  inversion HHs as [|? ? HH HHs']; subst.
  destruct innov as [|u us]; [destruct Hinnov; discriminate|].
  destruct (shape_cons_inv Hinnov) as [Hu Hus].
  rewrite <- (firstn_skipn N x) in Hsolve at 1.
  assert (Hx1 : length (firstn N x) = N) by (rewrite length_firstn; lia).
  assert (HHlen : length H = N) by apply HH.
  rewrite HHlen, mat_vec_two_blocks in Hsolve by (auto; apply HH).
  simpl in Hsolve.
  apply app_inv_length in Hsolve as [Hhead Htail];
    [| unfold mat_vec, matrix, vec in *; rewrite length_map; lia].
  destruct t as [|t]; [exact Hhead|].
  apply (IH us (skipn N x) HHs' Hus);
    [rewrite length_skipn; lia | exact Htail | lia].
Qed.

Lemma block_quad (N : nat) (T : nat) :
  forall (innov : matrix R) (x : vec R),
    is_shape T N innov -> length x = T * N ->
    vdot x (concat innov) =
      sum_over (seq 0 T)
        (fun t => vdot (nth t (chunks N T x) []) (nth t innov [])).
Proof.
  induction T as [|T IH]; intros innov x Hinnov Hx.
  - destruct Hinnov as [Hlen _]. destruct innov; [|discriminate].
    destruct x; [reflexivity | discriminate].
  - destruct innov as [|u us]; [destruct Hinnov; discriminate|].
    destruct (shape_cons_inv Hinnov) as [Hu Hus].
    rewrite sum_over_seq_S. cbn [chunks nth concat].
    rewrite <- (IH us (skipn N x)) by (auto; rewrite length_skipn; simpl in Hx; lia).
    rewrite <- vdot_app by (rewrite length_firstn; simpl in Hx; lia).
    now rewrite firstn_skipn.
Qed.

Lemma sum_over_seq_nth {A : Type} (f : A -> R) (d : A) (l : list A) :
  vsum (map f l) = sum_over (seq 0 (length l)) (fun t => f (nth t l d)).
Proof.
  induction l as [|a l IH]; [reflexivity|].
  cbn [length map]. rewrite sum_over_seq_S, vsum_cons, IH. reflexivity.
Qed.

Lemma concat_length_shape (T N : nat) (innov : matrix R) :
  is_shape T N innov -> length (concat innov) = T * N.
Proof.
  revert T; induction innov as [|u us IH]; intros T [Hlen Hrows];
    simpl in *; subst T; [reflexivity|].
  inversion Hrows as [|? ? Hu Hus]; subst.
  rewrite length_app, (IH (length us)) by (split; auto). simpl. lia.
Qed.

(** C3: [likelihood] factors the buffer once; its value is the sum of
    [log |d|] over the diagonal entries [d] of the factor that are not
    NaN, plus the inner product of the innovations with the solution of
    the system that the same factor gives.  In exact arithmetic, for a
    buffer whose diagonal blocks are nonsingular matrices [H_t], this
    is the sum over [t] of [log |det H_t| + u_t' x_t], where [x_t] solves
    [H_t x_t = u_t]. *)
Theorem likelihood_sum :
  (forall (F : Type) (Sc : Scalar F) (L : SpLU F) (G : Log F)
          (hvar innov : matrix F) (fac : SuperLU F),
      scs_splu hvar = Return fac ->
      likelihood hvar innov =
        Return (fadd
          (vsum (map (fun d => np_log (fabs d))
                     (filter (fun d => negb (isnan d))
                             (diag (factor_U fac)))))
          (vdot (factor_solve fac (concat innov)) (concat innov))))
  /\ (forall (L : SpLU R) (N : nat) (Hs : list (matrix R))
             (innov : matrix R) (fac : SuperLU R),
      Forall (is_shape N N) Hs ->
      Forall (fun H => det H <> 0%R) Hs ->
      is_shape (length Hs) N innov ->
      scs_splu (block_diag Hs) = Return fac ->
      lu_contract (block_diag Hs) fac ->
      let xs := chunks N (length Hs) (factor_solve fac (concat innov)) in
      (forall t, t < length Hs ->
         mat_vec (nth t Hs []) (nth t xs []) = nth t innov [])
      /\ likelihood (block_diag Hs) innov =
           Return (sum_over (seq 0 (length Hs))
                     (fun t => (ln (Rabs (det (nth t Hs [])))
                                + vdot (nth t xs []) (nth t innov []))%R))).
Proof.
  split.
  - intros F Sc L G hvar innov fac Hfac. unfold likelihood.
    now rewrite Hfac.
  - intros L N Hs innov fac HHs Hdet Hinnov Hfac [Hdiag Hsolve] xs.
    assert (Hb : length (concat innov) = length (block_diag Hs))
      by now rewrite (concat_length_shape Hinnov), (block_diag_length HHs).
    destruct (Hsolve _ Hb) as [Hxlen Hx].
    rewrite (concat_length_shape Hinnov) in Hxlen.
    split.
    + intros t Ht. now apply block_solve.
    + unfold likelihood. rewrite Hfac. cbn [bind]. f_equal.
      rewrite filter_isnan_R, sum_over_add.
      change (@fadd R R_scalar) with Rplus. f_equal.
      * change (fun d : R => np_log (fabs d)) with (fun d : R => ln (Rabs d)).
        rewrite (@log_det_sum _ (map det Hs)).
        -- rewrite map_map.
           apply (@sum_over_seq_nth _ (fun H => ln (Rabs (det H))) [] Hs).
        -- now rewrite Hdiag, (det_block_diag HHs).
        -- apply Forall_forall. intros d Hd.
           apply in_map_iff in Hd as [H [<- HH]].
           rewrite Forall_forall in Hdet. auto.
      * fold (vdot (factor_solve fac (concat innov)) (concat innov)).
        now apply block_quad.
Qed.

(** Two observations of one series with [H = 2, 4] and [u = 1, 2]. *)
Lemma likelihood_sum_witness :
  let Hs := [[[2]]; [[4]]]%R in
  let innov := [[1]; [2]]%R in
  let xs := chunks 1 2 (zip_with Rdiv (concat innov) (diag (block_diag Hs))) in
  likelihood (L := diagonal_splu) (block_diag Hs) innov =
    Return (sum_over (seq 0 2)
              (fun t => (ln (Rabs (det (nth t Hs [])))
                         + vdot (nth t xs []) (nth t innov []))%R)).
Proof.
  refine (proj2 (proj2 likelihood_sum diagonal_splu 1
                   [[[2]]; [[4]]]%R [[1]; [2]]%R
                   {| factor_U := block_diag [[[2]]; [[4]]]%R;
                      factor_solve := fun b =>
                        zip_with Rdiv b (diag (block_diag [[[2]]; [[4]]]%R)) |}
                   _ _ _ _ _)).
  - repeat constructor.
  - repeat constructor; unfold det; simpl; lra.
  - split; [reflexivity | repeat constructor].
  - reflexivity.
  - split.
    + assert (Hdet : det (block_diag [[[2]]; [[4]]]%R) = 8%R)
        by (unfold det; simpl; lra).
      rewrite Hdet. simpl. unfold entry. simpl.
      rewrite !Rabs_pos_eq by lra. lra.
    + intros b Hb. destruct b as [|b0 [|b1 [|b2 b]]]; try discriminate.
      split; [reflexivity|].
      cbv [mat_vec map block_diag app length repeat vdot vsum zip_with
           fold_left factor_solve diag nrows ncols hd Nat.min seq entry nth
           fzero of_Z fadd fmul R_scalar].
      f_equal; [|f_equal]; field.
Defined.

(** ** Matrices of order one *)

Lemma shape_1 {A : Type} (x : A) : is_shape 1 1 [[x]].
Proof. split; [reflexivity | repeat constructor]. Qed.

Lemma quad_form_1 (m x : R) : quad_form [[m]] [x] = (x * (m * x))%R.
Proof.
  cbv [quad_form mat_vec map vdot vsum zip_with fold_left fzero of_Z fadd
       fmul R_scalar].
  lra.
Qed.

Lemma pos_def_1 (m : R) : (0 < m)%R -> pos_def 1 [[m]].
Proof.
  intros Hm. split; [apply shape_1|]. split.
  - intros i j Hi Hj. replace i with 0 by lia. replace j with 0 by lia.
    reflexivity.
  - intros x Hx Hnz. destruct x as [|x0 [|x1 x]]; try discriminate.
    assert (Hx0 : x0 <> 0%R) by (intros ->; now apply Hnz).
    rewrite quad_form_1. assert (0 < x0 * x0)%R by nra. nra.
Qed.

Lemma pos_semidef_1 (m : R) : (0 <= m)%R -> pos_semidef 1 [[m]].
Proof.
  intros Hm. split; [apply shape_1|]. split.
  - intros i j Hi Hj. replace i with 0 by lia. replace j with 0 by lia.
    reflexivity.
  - intros x Hx. destruct x as [|x0 [|x1 x]]; try discriminate.
    rewrite quad_form_1. assert (0 <= x0 * x0)%R by nra. nra.
Qed.

(** ** What the filter leaves alone *)

Section FilterFrame.

Context {F : Type} `{Scalar F}.

Lemma nth_set_slice_outside {A : Type} (a b j : nat) (l v : list A) (d : A) :
  a <= b -> b <= length l -> length v = b - a -> j < a \/ b <= j ->
  nth j (set_slice a b l v) d = nth j l d.
Proof.
  intros Hab Hb Hv Hj. unfold set_slice.
  destruct Hj as [Hj|Hj].
  - rewrite app_nth1 by (rewrite length_firstn; lia).
    rewrite nth_firstn.
    replace (j <? a) with true by (symmetry; apply Nat.ltb_lt; lia).
    reflexivity.
  - rewrite app_nth2 by (rewrite length_firstn; lia).
    rewrite app_nth2 by (rewrite length_firstn; lia).
    rewrite nth_skipn, length_firstn. f_equal. lia.
Qed.

Lemma nth_set_slice_inside {A : Type} (a b j : nat) (l v : list A) (d : A) :
  a <= length l -> a <= j < a + length v ->
  nth j (set_slice a b l v) d = nth (j - a) v d.
Proof.
  intros Ha Hj. unfold set_slice.
  rewrite app_nth2 by (rewrite length_firstn; lia).
  rewrite length_firstn.
  replace (Nat.min a (length l)) with a by lia.
  apply app_nth1. lia.
Qed.

Lemma entry_set_block_outside (r c a b : nat) (M V : matrix F) (i j : nat) :
  a <= b -> b <= r -> b <= c ->
  is_shape r c M -> is_shape (b - a) (b - a) V ->
  ~ (a <= i < b /\ a <= j < b) ->
  entry (set_block M a b V) i j = entry M i j.
Proof.
  intros Hab Hbr Hbc HM HV Hout. unfold entry.
  change (set_block M a b V) with
    (set_slice a b M
       (zip_with (fun row v => set_slice a b row v) (slice a b M) V)).
  assert (HMlen : length M = r) by apply HM.
  assert (HVlen : length V = b - a) by apply HV.
  assert (Hz : length (zip_with (fun row v => set_slice a b row v)
                                (slice a b M) V) = b - a).
  { rewrite zip_with_length, slice_length; unfold matrix in *; lia. }
  destruct (Nat.lt_ge_cases i a) as [Hia|Hia];
    [rewrite nth_set_slice_outside; auto; unfold matrix in *; lia|].
  destruct (Nat.le_gt_cases b i) as [Hib|Hib];
    [rewrite nth_set_slice_outside; auto; unfold matrix in *; lia|].
  rewrite nth_set_slice_inside by (unfold matrix in *; lia).
  rewrite (nth_zip_with _ _ _ [] [] [])
    by (rewrite ?slice_length; unfold matrix in *; lia).
  assert (Hrow : nth (i - a) (slice a b M) [] = nth i M []).
  { unfold slice. rewrite nth_firstn, nth_skipn.
    replace (i - a <? b - a) with true by (symmetry; apply Nat.ltb_lt; lia).
    f_equal. lia. }
  rewrite Hrow.
  apply nth_set_slice_outside; try lia.
  - rewrite (@shape_row F r c M i); auto; lia.
  - rewrite (@shape_row F (b - a) (b - a) V (i - a)); auto; lia.
Qed.

Variables (T N : nat) (hvar0 innov0 c_mat a_mat b_mat : matrix F).

Hypothesis hvar_shape : is_shape (T * N) (T * N) hvar0.
Hypothesis c_shape : is_shape N N c_mat.
Hypothesis a_shape : is_shape N N a_mat.
Hypothesis b_shape : is_shape N N b_mat.

Lemma filter_prefix_frame (cc : matrix F) (innov2 : list (matrix F)) (k : nat) :
  is_shape N N cc -> S k <= T ->
  let buffer := fold_left (filter_step N cc a_mat b_mat innov2) (seq 1 k) hvar0 in
  is_shape (T * N) (T * N) buffer /\
  forall i j,
    (forall t, 1 <= t <= k ->
       ~ (t * N <= i < (t + 1) * N /\ t * N <= j < (t + 1) * N)) ->
    entry buffer i j = entry hvar0 i j.
Proof.
  intros Hcc. induction k as [|k IH]; intros Hk buffer.
  - split; [exact hvar_shape | reflexivity].
  - destruct IH as [Hshape Hframe]; [lia|].
    subst buffer. rewrite seq_S, fold_left_app. cbn [fold_left].
    set (prev := fold_left (filter_step N cc a_mat b_mat innov2) (seq 1 k) hvar0)
      in *.
    unfold filter_step. cbn [fst snd].
    assert (Hrhs : forall X Y, is_shape ((1 + k + 1) * N - (1 + k) * N)
                                 ((1 + k + 1) * N - (1 + k) * N)
                                 (filter_rhs cc a_mat b_mat X Y)).
    { intros X Y. replace ((1 + k + 1) * N - (1 + k) * N) with N by nia.
      apply filter_rhs_shape; auto. }
    split.
    + apply set_block_shape; auto; nia.
    + intros i j Hout.
      rewrite (@entry_set_block_outside (T * N) (T * N)); auto; try nia.
      * apply Hframe. intros t Ht. apply Hout. lia.
      * apply (Hout (1 + k)). lia.
Qed.

End FilterFrame.

(** X1: [filter_var] returns a buffer of the shape it was given and
    writes only to the diagonal slots [1 .. nobs - 1]: every entry outside
    these blocks (the first slot and all that lies off the diagonal
    blocks) is the entry of the buffer passed in, for any arithmetic. *)
Theorem filter_var_frame {F : Type} `{Scalar F} (T N : nat)
    (hvar innov c_mat a_mat b_mat : matrix F) (i j : nat) :
  is_shape (T * N) (T * N) hvar ->
  is_shape T N innov ->
  is_shape N N c_mat -> is_shape N N a_mat -> is_shape N N b_mat ->
  (forall t, 1 <= t < T ->
     ~ (t * N <= i < (t + 1) * N /\ t * N <= j < (t + 1) * N)) ->
  is_shape (T * N) (T * N) (filter_var hvar innov c_mat a_mat b_mat)
  /\ entry (filter_var hvar innov c_mat a_mat b_mat) i j = entry hvar i j.
Proof.
  intros Hh Hi Hc Ha Hb Hout.
  destruct T as [|T].
  - destruct Hi as [Hlen _]. destruct innov; [|discriminate].
    split; [exact Hh | reflexivity].
  - unfold filter_var. rewrite (ncols_of_shape Hi) by lia.
    replace (nrows innov) with (S T) by (symmetry; apply Hi).
    replace (S T - 1) with T by lia.
    destruct (@filter_prefix_frame F _ (S T) N hvar a_mat b_mat Hh Ha Hb
                (dot c_mat (transpose c_mat)) (outer_products innov) T
                (gram_shape Hc) (le_n _)) as [Hshape Hframe].
    split; [exact Hshape|]. apply Hframe. intros t Ht. apply Hout. lia.
Qed.

Lemma filter_var_frame_witness :
  let hvar := [[1; 7; 0]; [0; 0; 0]; [0; 0; 9]]%float in
  let filtered :=
    filter_var hvar [[1]; [2]; [3]]%float [[1]]%float [[0.5]]%float
               [[0.5]]%float in
  is_shape (3 * 1) (3 * 1) filtered /\ entry filtered 0 1 = entry hvar 0 1.
Proof.
  apply (@filter_var_frame float _ 3 1
           [[1; 7; 0]; [0; 0; 0]; [0; 0; 9]]%float [[1]; [2]; [3]]%float
           [[1]]%float [[0.5]]%float [[0.5]]%float 0 1);
    try (split; [reflexivity | repeat constructor]).
  intros t Ht. lia.
Defined.


(** ** Signs of the parameter matrices *)

Lemma vdot_neg_l (u v : vec R) : vdot (map Ropp u) v = (- vdot u v)%R.
Proof.
  rewrite (map_ext Ropp (fun x => (-1 * x)%R)) by (intros; lra).
  rewrite vdot_scale_l. lra.
Qed.

Lemma vdot_neg_r (u v : vec R) : vdot u (map Ropp v) = (- vdot u v)%R.
Proof. rewrite vdot_comm, vdot_neg_l, vdot_comm. reflexivity. Qed.

Lemma mneg_involutive (M : matrix R) : mneg (mneg M) = M.
Proof.
  unfold mneg. rewrite map_map. rewrite <- (map_id M) at 2.
  apply map_ext. intros row. rewrite map_map. rewrite <- (map_id row) at 2.
  apply map_ext. intros x. lra.
Qed.

Lemma ncols_mneg (M : matrix R) : ncols (mneg M) = ncols M.
Proof. destruct M; unfold ncols; simpl; [reflexivity | apply length_map]. Qed.

Lemma transpose_mneg (M : matrix R) : transpose (mneg M) = mneg (transpose M).
Proof.
  unfold transpose. rewrite ncols_mneg. unfold mneg at 2.
  rewrite map_map. apply map_ext. intros j.
  unfold mneg. rewrite !map_map. apply map_ext. intros row.
  change (@fzero R R_scalar) with 0%R.
  rewrite <- Ropp_0 at 1. apply map_nth.
Qed.

Lemma dot_mneg_l (A X : matrix R) : dot (mneg A) X = mneg (dot A X).
Proof.
  unfold dot, mneg. rewrite !map_map. apply map_ext. intros row.
  rewrite map_map. apply map_ext. intros col. apply vdot_neg_l.
Qed.

Lemma dot_mneg_r (X Z : matrix R) : dot X (mneg Z) = mneg (dot X Z).
Proof.
  unfold dot. rewrite transpose_mneg. unfold mneg. rewrite !map_map.
  apply map_ext. intros row. rewrite !map_map. apply map_ext. intros col.
  apply vdot_neg_r.
Qed.

Lemma sandwich_mneg (A X : matrix R) :
  dot (dot (mneg A) X) (transpose (mneg A)) = dot (dot A X) (transpose A).
Proof.
  now rewrite transpose_mneg, dot_mneg_l, dot_mneg_l, dot_mneg_r,
    mneg_involutive.
Qed.

Lemma gram_mneg (C : matrix R) :
  dot (mneg C) (transpose (mneg C)) = dot C (transpose C).
Proof.
  now rewrite transpose_mneg, dot_mneg_l, dot_mneg_r, mneg_involutive.
Qed.

Lemma fold_left_ext {A B : Type} (f g : A -> B -> A) (l : list B) (a : A) :
  (forall x y, f x y = g x y) -> fold_left f l a = fold_left g l a.
Proof.
  intros Hfg. revert a; induction l as [|y l IH]; intros a; simpl;
    [reflexivity | now rewrite Hfg, IH].
Qed.

(** X2: in exact arithmetic the filtered variances do not depend on the
    signs of the parameter matrices: [filter_var] returns the same buffer
    when [C], [A] or [B] is replaced by its negative. *)
Theorem filter_var_sign_invariant (hvar innov c_mat a_mat b_mat : matrix R) :
  filter_var hvar innov (mneg c_mat) a_mat b_mat
    = filter_var hvar innov c_mat a_mat b_mat
  /\ filter_var hvar innov c_mat (mneg a_mat) b_mat
    = filter_var hvar innov c_mat a_mat b_mat
  /\ filter_var hvar innov c_mat a_mat (mneg b_mat)
    = filter_var hvar innov c_mat a_mat b_mat.
Proof.
  unfold filter_var. repeat split.
  - now rewrite gram_mneg.
  - apply fold_left_ext. intros buffer i. unfold filter_step, filter_rhs.
    now rewrite sandwich_mneg.
  - apply fold_left_ext. intros buffer i. unfold filter_step, filter_rhs.
    now rewrite sandwich_mneg.
Qed.

Lemma kron_mneg (A : matrix R) : kron (mneg A) (mneg A) = kron A A.
Proof.
  unfold kron, mneg. rewrite flat_map_concat_map, map_map.
  rewrite (flat_map_concat_map _ A). f_equal. apply map_ext. intros rowA.
  rewrite map_map. apply map_ext. intros rowB.
  rewrite !flat_map_concat_map, map_map. f_equal. apply map_ext. intros a.
  rewrite map_map. apply map_ext. intros b. simpl. lra.
Qed.

Lemma zip_with_comm {A B : Type} (f : A -> A -> B) (l m : list A) :
  (forall x y, f x y = f y x) -> zip_with f l m = zip_with f m l.
Proof.
  intros Hf. revert m; induction l as [|x l IH]; intros [|y m]; simpl; auto.
  now rewrite Hf, IH.
Qed.

Lemma kron_sum_comm (A B : matrix R) : kron_sum A B = kron_sum B A.
Proof.
  unfold kron_sum, madd. apply zip_with_comm. intros u v.
  apply zip_with_comm. intros x y. simpl. lra.
Qed.

(** X3: in exact arithmetic the score of [constraint] is the same for
    [-A] as for [A], for [-B] as for [B], and when [A] and [B] are
    exchanged; it does not read [cmat]. *)
Theorem constraint_sign_invariant {E : Eigvals R} (A B : matrix R)
    (c c' : option (matrix R)) :
  constraint (from_abc (mneg A) B c) = constraint (from_abc A B c')
  /\ constraint (from_abc A (mneg B) c) = constraint (from_abc A B c')
  /\ constraint (from_abc B A c) = constraint (from_abc A B c').
Proof.
  unfold constraint. cbn [amat bmat from_abc]. repeat split.
  - now rewrite kron_mneg.
  - now rewrite kron_mneg.
  - fold (kron_sum B A). fold (kron_sum A B). now rewrite kron_sum_comm.
Qed.

(** X4: in exact arithmetic [find_stationary_var] returns the same
    result when [A], [B] or [C] is replaced by its negative. *)
Theorem stationary_var_sign_invariant {S : FixedPoint R} (A B C : matrix R) :
  find_stationary_var (mneg A) B C = find_stationary_var A B C
  /\ find_stationary_var A (mneg B) C = find_stationary_var A B C
  /\ find_stationary_var A B (mneg C) = find_stationary_var A B C.
Proof.
  unfold find_stationary_var, nrows. repeat split.
  - unfold mneg at 2. rewrite length_map.
    replace (fun uvar => fixed_point uvar (mneg A) B (dot C (transpose C)))
      with (fun uvar => fixed_point uvar A B (dot C (transpose C)));
      [reflexivity|].
    apply functional_extensionality. intros uvar. unfold fixed_point.
    now rewrite sandwich_mneg.
  - replace (fun uvar => fixed_point uvar A (mneg B) (dot C (transpose C)))
      with (fun uvar => fixed_point uvar A B (dot C (transpose C)));
      [reflexivity|].
    apply functional_extensionality. intros uvar. unfold fixed_point.
    now rewrite sandwich_mneg.
  - now rewrite gram_mneg.
Qed.

(** ** Bilinear forms *)

Lemma sum_over_scale_l (l : list nat) (f : nat -> R) (c : R) :
  sum_over l (fun j => (c * f j)%R) = (c * sum_over l f)%R.
Proof.
  induction l as [|j l IH]; simpl; [lra | rewrite IH; lra].
Qed.

Lemma sum_over_swap (l1 l2 : list nat) (f : nat -> nat -> R) :
  sum_over l1 (fun i => sum_over l2 (fun k => f i k)) =
  sum_over l2 (fun k => sum_over l1 (fun i => f i k)).
Proof.
  induction l1 as [|i l1 IH]; simpl.
  - symmetry. apply sum_over_zero. reflexivity.
  - rewrite IH, <- sum_over_add. reflexivity.
Qed.

Lemma sum_over_nonneg (l : list nat) (f : nat -> R) :
  (forall j, In j l -> (0 <= f j)%R) -> (0 <= sum_over l f)%R.
Proof.
  induction l as [|j l IH]; intros Hf; simpl; [lra|].
  assert (0 <= f j)%R by (apply Hf; simpl; auto).
  assert (0 <= sum_over l f)%R by (apply IH; intros; apply Hf; simpl; auto).
  lra.
Qed.

(** The inner product as a sum over the indices of the first vector. *)
Lemma vdot_sum_over (u v : vec R) :
  vdot u v =
    sum_over (seq 0 (length u)) (fun k => (nth k u 0 * nth k v 0)%R).
Proof.
  revert v; induction u as [|a u IH]; intros v; [reflexivity|].
  cbn [length]. rewrite sum_over_seq_S. destruct v as [|b v].
  - rewrite vdot_nil_r. cbn [nth].
    rewrite (sum_over_zero (seq 0 (length u))); [lra|].
    intros k _. destruct k; lra.
  - rewrite vdot_cons, IH. reflexivity.
Qed.

Lemma nth_mat_vec (P : matrix R) (z : vec R) (i : nat) :
  nth i (mat_vec P z) 0%R = vdot (nth i P []) z.
Proof.
  unfold mat_vec.
  change 0%R with ((fun row => vdot row z) []) at 1.
  apply map_nth.
Qed.

(** The bilinear form [x' P z] as a double sum. *)
Lemma bilinear_sum (r m : nat) (P : matrix R) (x z : vec R) :
  is_shape r m P -> length x = r ->
  vdot x (mat_vec P z) =
    sum_over (seq 0 r)
      (fun i => sum_over (seq 0 m)
         (fun k => (nth i x 0 * (entry P i k * nth k z 0))%R)).
Proof.
  intros HP Hx. rewrite vdot_sum_over, Hx.
  apply sum_over_ext. intros i Hi. apply in_seq in Hi.
  rewrite nth_mat_vec, vdot_sum_over, (@shape_row R r m P i) by (auto; lia).
  rewrite sum_over_scale_l. reflexivity.
Qed.

Lemma nth_transpose (r m : nat) (P : matrix R) (k : nat) :
  is_shape r m P -> 0 < r -> k < m ->
  nth k (transpose P) [] = map (fun row => nth k row 0%R) P.
Proof.
  intros HP Hr Hk. unfold transpose.
  rewrite (ncols_of_shape HP Hr).
  exact (@nth_map_seq _ (fun j => map (fun row => nth j row 0%R) P) m k []
           Hk).
Qed.

(** [x' (P z) = (P' x)' z]. *)
Lemma adjoint (r m : nat) (P : matrix R) (x z : vec R) :
  is_shape r m P -> length x = r ->
  vdot x (mat_vec P z) = vdot (mat_vec (transpose P) x) z.
Proof.
  intros HP Hx. destruct r as [|r].
  - destruct HP as [Hlen _]. destruct P; [|discriminate].
    destruct x; [reflexivity | discriminate].
  - rewrite (@bilinear_sum (S r) m P x z HP Hx), sum_over_swap.
    rewrite vdot_sum_over.
    assert (Hlen : length (mat_vec (transpose P) x) = m).
    { unfold mat_vec, transpose.
      rewrite !length_map, length_seq. apply ncols_of_shape with (r := S r); auto; lia. }
    rewrite Hlen. apply sum_over_ext. intros k Hk. apply in_seq in Hk.
    rewrite nth_mat_vec, (@nth_transpose (S r) m) by (auto; lia).
    rewrite vdot_sum_over, length_map.
    replace (length P) with (S r) by (symmetry; apply HP).
    rewrite Rmult_comm, <- sum_over_scale_l.
    apply sum_over_ext. intros i Hi. apply in_seq in Hi.
    rewrite (@nth_map_in_range _ _ (fun row => nth k row 0%R) P i [] 0%R)
      by (destruct HP; lia).
    unfold entry. change (@fzero R R_scalar) with 0%R. lra.
Qed.

(** [(P Q) y = P (Q y)]. *)
Lemma mat_vec_dot (r m c : nat) (P Q : matrix R) (y : vec R) :
  is_shape r m P -> is_shape m c Q ->
  mat_vec (dot P Q) y = mat_vec P (mat_vec Q y).
Proof.
  intros HP HQ. unfold mat_vec at 1 2, dot. rewrite map_map.
  apply map_ext_in. intros row Hrow.
  assert (Hlen : length row = m).
  { destruct HP as [_ HProws]. rewrite Forall_forall in HProws. auto. }
  rewrite (@adjoint m c Q row y HQ Hlen). f_equal.
  unfold mat_vec. apply map_ext. intros col. apply vdot_comm.
Qed.

(** Symmetric positive semidefinite matrices of order [n]. *)

(** ** Positive semidefinite matrices *)

Lemma vdot_self_nonneg (u : vec R) : (0 <= vdot u u)%R.
Proof.
  rewrite vdot_sum_over. apply sum_over_nonneg. intros k _.
  apply Rle_0_sqr.
Qed.

Lemma symmetric_transpose (n : nat) (X : matrix R) :
  is_shape n n X -> symmetric n X -> transpose X = X.
Proof.
  intros HX Hsym. destruct n as [|n].
  - destruct HX as [Hlen _]. now destruct X.
  - apply (@matrix_ext R _ (S n) (S n)); auto.
    + apply transpose_shape; auto; lia.
    + intros i j Hi Hj.
      rewrite (@transpose_entry R _ (S n) (S n) X j i) by assumption.
      now apply Hsym.
Qed.

Lemma mat_vec_length (P : matrix R) (x : vec R) :
  length (mat_vec P x) = length P.
Proof. unfold mat_vec. apply length_map. Qed.

Lemma transpose_square_shape (n : nat) (A : matrix R) :
  is_shape n n A -> is_shape n n (transpose A).
Proof.
  intros HA. destruct n as [|n].
  - destruct HA as [Hlen _]. destruct A; [|discriminate].
    split; [reflexivity | constructor].
  - apply transpose_shape; auto; lia.
Qed.

Lemma transpose_square_involutive (n : nat) (A : matrix R) :
  is_shape n n A -> transpose (transpose A) = A.
Proof.
  intros HA. destruct n as [|n].
  - destruct HA as [Hlen _]. now destruct A.
  - apply (@transpose_involutive R _ (S n) (S n)); auto; lia.
Qed.

(** [x' (A X A') x = (A' x)' X (A' x)]. *)
Lemma quad_form_sandwich (n : nat) (A X : matrix R) (x : vec R) :
  is_shape n n A -> is_shape n n X -> length x = n ->
  quad_form (dot (dot A X) (transpose A)) x =
    quad_form X (mat_vec (transpose A) x).
Proof.
  intros HA HX Hx. unfold quad_form.
  pose proof (transpose_square_shape HA) as HAt.
  assert (HAX : is_shape n n (dot A X)).
  { apply dot_shape; [apply HA | destruct n; [|apply (ncols_of_shape HX); lia]].
    destruct HX as [Hlen _]. now destruct X. }
  rewrite (@mat_vec_dot n n n (dot A X) (transpose A)) by assumption.
  rewrite (@mat_vec_dot n n n A X) by assumption.
  now rewrite (@adjoint n n A x _ HA Hx).
Qed.

(** [x' (C C') x = |C' x|^2]. *)
Lemma quad_form_gram (n : nat) (C : matrix R) (x : vec R) :
  is_shape n n C -> length x = n ->
  quad_form (dot C (transpose C)) x =
    vdot (mat_vec (transpose C) x) (mat_vec (transpose C) x).
Proof.
  intros HC Hx. unfold quad_form.
  rewrite (@mat_vec_dot n n n C (transpose C))
    by (auto using transpose_square_shape).
  now rewrite (@adjoint n n C x _ HC Hx).
Qed.

Lemma vdot_add_l (u v y : vec R) :
  length u = length v ->
  vdot (zip_with Rplus u v) y = (vdot u y + vdot v y)%R.
Proof.
  revert v y; induction u as [|a u IH]; intros [|b v] [|x y] Hlen;
    simpl in *; try discriminate;
    rewrite ?vdot_nil_l, ?vdot_nil_r, ?vdot_cons; try lra.
  rewrite IH by lia. lra.
Qed.

Lemma mat_vec_add (n : nat) (D O : matrix R) (y : vec R) :
  length D = length O ->
  Forall (fun row => length row = n) D -> Forall (fun row => length row = n) O ->
  mat_vec (madd D O) y = zip_with Rplus (mat_vec D y) (mat_vec O y).
Proof.
  revert O; induction D as [|d D IH]; intros [|o O] Hlen HD HO;
    simpl in *; try discriminate; auto.
  inversion HD; inversion HO; subst.
  f_equal; [apply vdot_add_l; lia | apply IH; auto].
Qed.

Lemma quad_form_add (n : nat) (D O : matrix R) (y : vec R) :
  is_shape n n D -> is_shape n n O ->
  quad_form (madd D O) y = (quad_form D y + quad_form O y)%R.
Proof.
  intros [HD HDrows] [HO HOrows]. unfold quad_form.
  rewrite (@mat_vec_add n) by (auto; unfold matrix in *; lia).
  rewrite (vdot_comm y), vdot_add_l, !(vdot_comm _ y);
    [reflexivity | rewrite !mat_vec_length; unfold matrix in *; lia].
Qed.

Lemma symmetric_madd (n : nat) (X Y : matrix R) :
  is_shape n n X -> is_shape n n Y -> symmetric n X -> symmetric n Y ->
  symmetric n (madd X Y).
Proof.
  intros HX HY HsX HsY i j Hi Hj. unfold madd.
  rewrite !(@entry_zip_with R _ _ n n) by assumption.
  now rewrite (HsX i j), (HsY i j).
Qed.

Lemma sandwich_entry (n : nat) (A X : matrix R) (i j : nat) :
  is_shape n n A -> is_shape n n X -> i < n -> j < n ->
  entry (dot (dot A X) (transpose A)) i j =
    vdot (nth i A []) (mat_vec X (nth j A [])).
Proof.
  intros HA HX Hi Hj.
  rewrite dot_entry;
    [| unfold dot; rewrite length_map; destruct HA;
       unfold matrix, vec in *; lia
     | rewrite (ncols_transpose_square HA); lia].
  rewrite (transpose_square_involutive HA).
  unfold dot.
  rewrite (@nth_map_in_range _ _
             (fun row => map (fun col => vdot row col) (transpose X)) A i [] [])
    by (destruct HA; unfold matrix, vec in *; lia).
  rewrite (map_ext (fun col => vdot (nth i A []) col)
                   (fun col => vdot col (nth i A [])))
    by (intros; apply vdot_comm).
  change (map (fun col => vdot col (nth i A [])) (transpose X))
    with (mat_vec (transpose X) (nth i A [])).
  symmetry. apply (@adjoint n n X); auto.
  apply (@shape_row R n n A i); auto.
Qed.

Lemma symmetric_sandwich (n : nat) (A X : matrix R) :
  is_shape n n A -> is_shape n n X -> symmetric n X ->
  symmetric n (dot (dot A X) (transpose A)).
Proof.
  intros HA HX Hsym i j Hi Hj.
  rewrite !(@sandwich_entry n) by assumption.
  rewrite (@adjoint n n X (nth i A []) (nth j A [])); auto;
    [| apply (@shape_row R n n A i); auto].
  rewrite (symmetric_transpose HX Hsym). apply vdot_comm.
Qed.

Lemma pos_semidef_gram (n : nat) (C : matrix R) :
  is_shape n n C -> pos_semidef n (dot C (transpose C)).
Proof.
  intros HC. split; [now apply gram_shape|]. split.
  - now apply gram_symmetric.
  - intros x Hx. rewrite (@quad_form_gram n C x HC Hx). apply vdot_self_nonneg.
Qed.

Lemma pos_semidef_sandwich (n : nat) (A X : matrix R) :
  is_shape n n A -> pos_semidef n X ->
  pos_semidef n (dot (dot A X) (transpose A)).
Proof.
  intros HA [HX [Hsym Hpos]]. split; [now apply sandwich_shape|]. split.
  - now apply symmetric_sandwich.
  - intros x Hx. rewrite (@quad_form_sandwich n A X x HA HX Hx). apply Hpos.
    rewrite mat_vec_length. apply (transpose_square_shape HA).
Qed.

Lemma pos_semidef_madd (n : nat) (X Y : matrix R) :
  pos_semidef n X -> pos_semidef n Y -> pos_semidef n (madd X Y).
Proof.
  intros [HX [HsX HpX]] [HY [HsY HpY]]. split; [now apply zip_with_shape|].
  split; [now apply symmetric_madd|].
  intros x Hx. rewrite (@quad_form_add n X Y x HX HY).
  specialize (HpX x Hx). specialize (HpY x Hx). lra.
Qed.

Lemma pos_semidef_outer (u : vec R) : pos_semidef (length u) (outer u).
Proof.
  assert (Hs : is_shape (length u) (length u) (outer u)).
  { unfold outer. split; [apply length_map|].
    apply Forall_forall. intros row Hrow.
    apply in_map_iff in Hrow as [x [<- _]]. apply length_map. }
  assert (Hent : forall i j, i < length u -> j < length u ->
            entry (outer u) i j = (nth j u 0 * nth i u 0)%R).
  { intros i j Hi Hj. unfold entry, outer.
    rewrite (@nth_map_in_range _ _ (fun ui => map (fun uj => fmul uj ui) u)
               u i 0%R []) by assumption.
    exact (@nth_map_in_range _ _ (fun uj => fmul uj (nth i u 0%R)) u j 0%R
             fzero Hj). }
  split; [exact Hs|]. split.
  - intros i j Hi Hj. rewrite !Hent by assumption. lra.
  - intros x Hx.
    replace (outer u) with (map (fun ci => map (fun cj => (ci * cj)%R) u) u).
    + rewrite quad_form_outer. apply Rle_0_sqr.
    + unfold outer. apply map_ext. intros ui. apply map_ext. intros uj.
      simpl. lra.
Qed.

Lemma quad_form_sdiv (M : matrix R) (k : R) (x : vec R) :
  quad_form (sdiv M k) x = (quad_form M x / k)%R.
Proof.
  unfold quad_form, mat_vec, sdiv. rewrite map_map.
  rewrite (map_ext _ (fun row => (vdot row x * / k)%R)).
  - rewrite vdot_map_scale_r. unfold Rdiv. lra.
  - intros row.
    rewrite (map_ext (fun v => fdiv v k) (fun v => (/ k * v)%R))
      by (intros; simpl; unfold Rdiv; lra).
    rewrite vdot_scale_l. lra.
Qed.

(** X5: in exact arithmetic [estimate_h0] of at least one observation is
    a symmetric positive semidefinite matrix of order [nstocks]. *)
Theorem estimate_h0_pos_semidef (T N : nat) (innov : matrix R) :
  is_shape T N innov -> 0 < T -> pos_semidef N (estimate_h0 innov).
Proof.
  intros Hi HT.
  assert (Hcols : ncols innov = N) by (apply (ncols_of_shape Hi); assumption).
  assert (Htlen : length (transpose innov) = N)
    by (unfold transpose; now rewrite length_map, length_seq).
  assert (Hg : is_shape N N (dot (transpose innov) innov))
    by (apply dot_shape; assumption).
  assert (Hk : (0 < IZR (Z.of_nat (nrows innov)))%R).
  { apply IZR_lt. unfold nrows. destruct Hi as [Hlen _].
    unfold matrix in *. lia. }
  split; [unfold estimate_h0, sdiv; now apply map_shape|]. split.
  - intros i j Hi' Hj'. unfold estimate_h0, sdiv.
    rewrite !(@entry_map R _ _ N N) by assumption.
    rewrite !dot_entry by (unfold matrix, vec in *; lia).
    now rewrite vdot_comm.
  - intros x Hx. unfold estimate_h0. rewrite quad_form_sdiv.
    apply Rmult_le_pos; [|left; now apply Rinv_0_lt_compat].
    destruct N as [|N].
    + destruct x; [|discriminate]. unfold quad_form, mat_vec.
      rewrite vdot_nil_l. lra.
    + pose proof (transpose_shape Hi HT) as Ht.
      unfold quad_form.
      rewrite (@mat_vec_dot (S N) T (S N) (transpose innov) innov)
        by assumption.
      rewrite (@adjoint (S N) T (transpose innov) x _ Ht Hx).
      rewrite (@transpose_involutive R _ T (S N)) by (auto; lia).
      apply vdot_self_nonneg.
Qed.

Lemma estimate_h0_pos_semidef_witness :
  pos_semidef 1 (estimate_h0 [[1]; [2]]%R).
Proof.
  apply (@estimate_h0_pos_semidef 2 1 [[1]; [2]]%R);
    [split; [reflexivity | repeat constructor] | lia].
Defined.

Lemma pos_semidef_filter_rhs (n : nat) (c a b : matrix R) (u : vec R)
    (h : matrix R) :
  is_shape n n c -> is_shape n n a -> is_shape n n b -> length u = n ->
  pos_semidef n h ->
  pos_semidef n (filter_rhs (dot c (transpose c)) a b (outer u) h).
Proof.
  intros Hc Ha Hb Hu Hh. unfold filter_rhs.
  repeat apply pos_semidef_madd.
  - now apply pos_semidef_gram.
  - apply pos_semidef_sandwich; auto. rewrite <- Hu. apply pos_semidef_outer.
  - now apply pos_semidef_sandwich.
Qed.

(** ** Variance targeting *)

Lemma cholesky_gram (n : nat) (M C : matrix R) :
  pos_def n M -> potrf_lower n M = Some C -> dot C (transpose C) = M.
Proof.
  intros [HM [Hsym _]] HC.
  destruct (potrf_lower_correct HM HC) as [HCs _].
  apply (@matrix_ext R _ n n); auto using gram_shape.
  intros i j Hi Hj. destruct (Nat.le_gt_cases j i) as [Hji|Hij].
  - now apply (@gram_lower_entry n).
  - rewrite (gram_symmetric HCs Hi Hj), (Hsym i j Hi Hj).
    apply (@gram_lower_entry n); auto; lia.
Qed.

Lemma target_solves (n : nat) (A B target : matrix R) :
  is_shape n n A -> is_shape n n B -> is_shape n n target ->
  target =
    madd (madd (find_cmat_ccmat A B target)
               (dot (dot A target) (transpose A)))
         (dot (dot B target) (transpose B)).
Proof.
  intros HA HB Ht.
  assert (HM : is_shape n n (find_cmat_ccmat A B target))
    by now apply find_cmat_ccmat_shape.
  pose proof (@sandwich_shape R _ n A target HA) as HsA.
  pose proof (@sandwich_shape R _ n B target HB) as HsB.
  apply (@matrix_ext R _ n n); auto.
  - unfold madd. repeat apply zip_with_shape; auto.
  - intros i j Hi Hj. unfold madd, find_cmat_ccmat, msub.
    rewrite !(@entry_zip_with R _ _ n n); auto;
      repeat apply zip_with_shape; auto.
    simpl. lra.
Qed.

(** ** The recursion *)

(** X8: in exact arithmetic a matrix is reproduced by [_bekk_recursion]
    (with [hzero = CC'] and the matrix itself as [hone] and [htwo]) exactly
    when it is a fixed point of [ParamGeneric.fixed_point], the map that
    [find_stationary_var] iterates. *)
Theorem bekk_recursion_fixed_point (n : nat) (param : RecursionParams R)
    (ccmat uvar : matrix R) :
  is_shape n n (a_mat param) -> is_shape n n (b_mat param) ->
  is_shape n n ccmat -> is_shape n n uvar ->
  (_bekk_recursion param ccmat uvar uvar = uvar
   <-> fixed_point uvar (a_mat param) (b_mat param) ccmat = uvar).
Proof.
  intros HA HB Hcc Hu. unfold _bekk_recursion.
  rewrite (@fixed_point_iff n (a_mat param) (b_mat param) ccmat) by assumption.
  split; intros Heq; now symmetry.
Qed.

Lemma bekk_recursion_fixed_point_witness :
  let param := {| a_mat := [[/ 2]]%R; b_mat := [[/ 2]]%R |} in
  _bekk_recursion param [[1]]%R [[2]]%R [[2]]%R = [[2]]%R
  <-> fixed_point [[2]]%R [[/ 2]]%R [[/ 2]]%R [[1]]%R = [[2]]%R.
Proof.
  apply (@bekk_recursion_fixed_point 1
           {| a_mat := [[/ 2]]%R; b_mat := [[/ 2]]%R |} [[1]]%R [[2]]%R);
    apply shape_1.
Defined.

(** ** Scaled identities *)

Lemma eye_shape (n : nat) : is_shape n n (eye (F := R) n).
Proof.
  unfold eye. split.
  - now rewrite length_map, length_seq.
  - apply Forall_forall. intros row Hrow.
    apply in_map_iff in Hrow as [i [<- _]].
    now rewrite length_map, length_seq.
Qed.

Lemma eye_entry (n i j : nat) :
  i < n -> j < n ->
  entry (eye (F := R) n) i j = if Nat.eqb i j then 1%R else 0%R.
Proof.
  intros Hi Hj. unfold entry, eye.
  rewrite (@nth_map_seq _ (fun i => map (fun j => if Nat.eqb i j then fone else fzero) (seq 0 n)) n i []) by assumption.
  rewrite (@nth_map_seq _ (fun j => if Nat.eqb i j then fone else fzero) n j fzero) by assumption.
  reflexivity.
Qed.

Lemma mscale_shape (r c : nat) (M : matrix R) (k : R) :
  is_shape r c M -> is_shape r c (mscale M k).
Proof. apply map_shape. Qed.

Lemma mscale_entry (r c : nat) (M : matrix R) (k : R) (i j : nat) :
  is_shape r c M -> i < r -> j < c ->
  entry (mscale M k) i j = (entry M i j * k)%R.
Proof.
  intros HM Hi Hj. unfold mscale.
  now rewrite (@entry_map R _ (fun x => fmul x k) r c).
Qed.

Lemma sum_over_delta (n i : nat) (g : nat -> R) :
  i < n ->
  sum_over (seq 0 n) (fun k => if Nat.eqb i k then g k else 0%R) = g i.
Proof.
  induction n as [|n IH]; intros Hi; [lia|].
  rewrite seq_S, sum_over_app. simpl.
  destruct (Nat.eq_dec i n) as [->|Hne].
  - rewrite Nat.eqb_refl.
    rewrite sum_over_zero; [lra|].
    intros j Hj. apply in_seq in Hj.
    destruct (Nat.eqb_spec n j); [lia|reflexivity].
  - rewrite IH by lia.
    destruct (Nat.eqb_spec i n); [contradiction|lra].
Qed.

Lemma entry_nth (M : matrix R) (i j : nat) :
  entry M i j = nth j (nth i M []) 0%R.
Proof. reflexivity. Qed.

(** [(a I) X (a I)'] is [a^2 X]. *)
Lemma sandwich_scaled_eye (n : nat) (a : R) (X : matrix R) (i j : nat) :
  is_shape n n X -> i < n -> j < n ->
  entry (dot (dot (mscale (eye n) a) X) (transpose (mscale (eye n) a))) i j
  = (a * a * entry X i j)%R.
Proof.
  intros HX Hi Hj.
  pose proof (@mscale_shape n n _ a (eye_shape n)) as HA.
  rewrite (@sandwich_entry n) by assumption.
  assert (Hrow : forall r, r < n -> forall k, k < n ->
            nth k (nth r (mscale (eye n) a) []) 0%R =
            if Nat.eqb r k then a else 0%R).
  { intros r Hr k Hk. rewrite <- entry_nth.
    rewrite (@mscale_entry n n) by (auto using eye_shape).
    rewrite eye_entry by assumption.
    destruct (Nat.eqb r k); lra. }
  assert (Hlen : forall r, r < n -> length (nth r (mscale (eye n) a) []) = n).
  { intros r Hr. now apply (@shape_row R n n). }
  rewrite vdot_sum_over, (Hlen i Hi).
  rewrite (@sum_over_ext _ _
             (fun k => if Nat.eqb i k
                       then (a * nth k (mat_vec X (nth j (mscale (eye n) a) [])) 0)%R
                       else 0%R)).
  2:{ intros k Hk. apply in_seq in Hk. rewrite (Hrow i Hi k) by lia.
      destruct (Nat.eqb i k); lra. }
  rewrite sum_over_delta by assumption.
  rewrite nth_mat_vec, vdot_sum_over.
  rewrite (@shape_row R n n X i HX Hi).
  rewrite (@sum_over_ext _ _
             (fun k => if Nat.eqb j k then (nth k (nth i X []) 0 * a)%R
                       else 0%R)).
  2:{ intros k Hk. apply in_seq in Hk. rewrite (Hrow j Hj k) by lia.
      destruct (Nat.eqb j k); lra. }
  rewrite sum_over_delta by assumption.
  rewrite <- entry_nth. lra.
Qed.

Lemma find_cmat_ccmat_scaled_eye (n : nat) (a b : R) (target : matrix R) :
  is_shape n n target ->
  find_cmat_ccmat (mscale (eye n) a) (mscale (eye n) b) target =
    mscale target (1 - a * a - b * b)%R.
Proof.
  intros Ht.
  pose proof (@mscale_shape n n _ a (eye_shape n)) as HA.
  pose proof (@mscale_shape n n _ b (eye_shape n)) as HB.
  apply (@matrix_ext R _ n n).
  - now apply find_cmat_ccmat_shape.
  - now apply mscale_shape.
  - intros i j Hi Hj. unfold find_cmat_ccmat, msub.
    pose proof (@sandwich_shape R _ n _ target HA) as HsA.
    pose proof (@sandwich_shape R _ n _ target HB) as HsB.
    rewrite !(@entry_zip_with R _ _ n n); auto using zip_with_shape.
    rewrite !sandwich_scaled_eye by assumption.
    rewrite (@mscale_entry n n) by assumption.
    simpl. lra.
Qed.

(** ** The factor of a scaled identity *)

Lemma map_const_repeat {A B : Type} (c : B) (l : list A) :
  map (fun _ => c) l = repeat c (length l).
Proof. induction l as [|x l IH]; simpl; [reflexivity|now rewrite IH]. Qed.

Lemma eye_S (n : nat) :
  eye (F := R) (S n) = (1%R :: repeat 0%R n) :: map (cons 0%R) (eye n).
Proof.
  unfold eye. cbn [seq map Nat.eqb]. rewrite <- !seq_shift, !map_map.
  f_equal.
  - f_equal. rewrite map_const_repeat, length_seq. reflexivity.
  - apply map_ext. intros i. cbn [Nat.eqb]. rewrite map_map. reflexivity.
Qed.

Lemma mscale_eye_S (n : nat) (s : R) :
  mscale (eye (S n)) s =
    ((1 * s)%R :: repeat (0 * s)%R n) :: map (cons (0 * s)%R) (mscale (eye n) s).
Proof.
  rewrite eye_S. unfold mscale. cbn [map]. rewrite map_repeat, !map_map.
  reflexivity.
Qed.

Lemma zip_with_cons_repeat (n : nat) (c : R) (M : matrix R) :
  length M = n -> zip_with cons (repeat c n) M = map (cons c) M.
Proof.
  revert n. induction M as [|row M IH]; intros [|n] Hn; simpl in *;
    try reflexivity; try discriminate.
  f_equal. apply IH. lia.
Qed.

Lemma potrf_lower_scaled_eye (n : nat) (s : R) :
  (0 < s)%R ->
  potrf_lower n (mscale (eye n) s) = Some (mscale (eye n) (R_sqrt.sqrt s)).
Proof.
  intros Hs. induction n as [|n IH]; [reflexivity|].
  pose proof (@mscale_shape n n _ s (eye_shape n)) as HD.
  rewrite !mscale_eye_S, potrf_lower_step.
  rewrite !Rmult_1_l, !Rmult_0_l.
  change (flt 0%R s) with (if Rlt_dec 0 s then true else false).
  destruct (Rlt_dec 0 s) as [_|Hn]; [|contradiction].
  assert (Hcol : scaled_column (R_sqrt.sqrt s) (map (cons 0%R) (mscale (eye n) s))
                 = repeat 0%R n).
  { unfold scaled_column. rewrite map_map. cbn [hd].
    replace (0 / R_sqrt.sqrt s)%R with 0%R by (unfold Rdiv; ring).
    rewrite map_const_repeat. f_equal. apply HD. }
  assert (Htrail : trailing_block (R_sqrt.sqrt s) (map (cons 0%R) (mscale (eye n) s))
                   = mscale (eye n) s).
  { unfold trailing_block. rewrite Hcol, map_map. cbn [tl]. rewrite map_id.
    rewrite !map_repeat.
    apply (@matrix_ext R _ n n); auto.
    - unfold msub. apply zip_with_shape; auto.
      split; [apply repeat_length|].
      apply Forall_forall. intros row Hr. apply repeat_spec in Hr. subst row.
      apply repeat_length.
    - intros i j Hi Hj. unfold msub.
      rewrite (@entry_zip_with R _ _ n n); auto.
      + unfold entry at 2. rewrite !nth_repeat_lt by lia. simpl. lra.
      + split; [apply repeat_length|].
        apply Forall_forall. intros row Hr. apply repeat_spec in Hr. subst row.
        apply repeat_length. }
  rewrite Htrail, IH, Hcol.
  rewrite zip_with_cons_repeat; [reflexivity|].
  now apply (@mscale_shape n n _ (R_sqrt.sqrt s) (eye_shape n)).
Qed.

(** ** The default parameters *)

Lemma quad_form_mscale (M : matrix R) (k : R) (x : vec R) :
  quad_form (mscale M k) x = (quad_form M x * k)%R.
Proof.
  unfold quad_form, mat_vec, mscale. rewrite map_map.
  rewrite (map_ext _ (fun row => (vdot row x * k)%R)).
  - rewrite vdot_map_scale_r. lra.
  - intros row.
    rewrite (map_ext (fun v => fmul v k) (fun v => (k * v)%R))
      by (intros; simpl; lra).
    rewrite vdot_scale_l. lra.
Qed.

Lemma pos_def_mscale (n : nat) (M : matrix R) (k : R) :
  pos_def n M -> (0 < k)%R -> pos_def n (mscale M k).
Proof.
  intros [HM [Hsym Hpos]] Hk. split; [now apply mscale_shape|]. split.
  - intros i j Hi Hj. rewrite !(@mscale_entry n n) by assumption.
    now rewrite (Hsym i j).
  - intros x Hx Hne. rewrite quad_form_mscale.
    apply Rmult_lt_0_compat; auto.
Qed.

Lemma default_amat_R : fpow (tenth (F := R)) half = R_sqrt.sqrt (1 / 10).
Proof.
  unfold tenth, half. simpl.
  replace (1 / 2)%R with (/ 2)%R by lra.
  apply Rpower_sqrt. lra.
Qed.

Lemma default_bmat_R :
  fpow (eight_tenths (F := R)) half = R_sqrt.sqrt (8 / 10).
Proof.
  unfold eight_tenths, half. simpl.
  replace (1 / 2)%R with (/ 2)%R by lra.
  apply Rpower_sqrt. lra.
Qed.

Lemma default_ccmat (n : nat) (target : matrix R) :
  is_shape n n target ->
  find_cmat_ccmat (mscale (eye n) (R_sqrt.sqrt (1 / 10)))
                  (mscale (eye n) (R_sqrt.sqrt (8 / 10))) target =
    mscale target (1 / 10)%R.
Proof.
  intros Ht. rewrite find_cmat_ccmat_scaled_eye by assumption.
  f_equal. rewrite !sqrt_sqrt by lra. lra.
Qed.

Lemma init_R (n : nat) :
  ParamGeneric__init__ n =
    Return {| amat := mscale (eye n) (R_sqrt.sqrt (1 / 10));
              bmat := mscale (eye n) (R_sqrt.sqrt (8 / 10));
              cmat := Some (mscale (eye n) (R_sqrt.sqrt (1 / 10))) |}.
Proof.
  unfold ParamGeneric__init__. rewrite default_amat_R, default_bmat_R.
  pose proof (eye_shape n) as He.
  rewrite (@find_cmat_R n) by (auto using mscale_shape).
  rewrite default_ccmat by assumption.
  rewrite potrf_lower_scaled_eye by lra. reflexivity.
Qed.

Lemma mat_vec_eye (n : nat) (x : vec R) :
  length x = n -> mat_vec (eye n) x = x.
Proof.
  intros Hx. pose proof (eye_shape n) as [Hlen Hrows].
  apply (nth_ext _ _ 0%R 0%R).
  - rewrite mat_vec_length. unfold matrix, vec in *. lia.
  - intros i Hi. rewrite mat_vec_length in Hi.
    assert (Hin : i < n) by (unfold matrix, vec in *; lia).
    rewrite nth_mat_vec, vdot_sum_over.
    rewrite (@shape_row R n n (eye n) i (eye_shape n) Hin).
    rewrite (@sum_over_ext _ _
               (fun k => if Nat.eqb i k then nth k x 0%R else 0%R)).
    + now apply sum_over_delta.
    + intros k Hk. apply in_seq in Hk. rewrite <- entry_nth.
      rewrite eye_entry by lia. destruct (Nat.eqb i k); lra.
Qed.

Lemma vdot_self_pos (x : vec R) :
  x <> repeat 0%R (length x) -> (0 < vdot x x)%R.
Proof.
  induction x as [|a x IH]; intros Hne; [now contradiction Hne|].
  rewrite vdot_cons. pose proof (vdot_self_nonneg x) as Hx.
  destruct (Req_dec a 0) as [->|Ha].
  - assert (0 < vdot x x)%R; [|lra].
    apply IH. intros Heq. apply Hne. simpl. now rewrite <- Heq.
  - assert (0 < a * a)%R by nra. lra.
Qed.

Lemma pos_def_eye (n : nat) : pos_def n (eye n).
Proof.
  split; [apply eye_shape|]. split.
  - intros i j Hi Hj. rewrite !eye_entry by assumption.
    rewrite (Nat.eqb_sym j i). reflexivity.
  - intros x Hx Hne. unfold quad_form. rewrite mat_vec_eye by assumption.
    apply vdot_self_pos. now rewrite Hx.
Qed.

(** ** The constraint at the default parameters *)

Lemma kron_sum_scaled_eye (n : nat) (a b : R) :
  kron_sum (mscale (eye n) a) (mscale (eye n) b) =
    mscale (eye (n * n)) (a * a + b * b)%R.
Proof.
  pose proof (@mscale_shape n n _ a (eye_shape n)) as HA.
  pose proof (@mscale_shape n n _ b (eye_shape n)) as HB.
  pose proof (@kron_shape R _ n n n n _ _ HA HA) as HkA.
  pose proof (@kron_shape R _ n n n n _ _ HB HB) as HkB.
  apply (@matrix_ext R _ (n * n) (n * n)).
  - unfold kron_sum, madd. now apply zip_with_shape.
  - apply mscale_shape, eye_shape.
  - intros p q Hp Hq.
    assert (Hn : 0 < n) by (destruct n; lia).
    assert (Hpi : p / n < n) by (apply Nat.Div0.div_lt_upper_bound; lia).
    assert (Hqi : q / n < n) by (apply Nat.Div0.div_lt_upper_bound; lia).
    assert (Hpk : p mod n < n) by (apply Nat.mod_upper_bound; lia).
    assert (Hqk : q mod n < n) by (apply Nat.mod_upper_bound; lia).
    assert (Hpe : p = p / n * n + p mod n)
      by (rewrite (Nat.div_mod_eq p n) at 1; lia).
    assert (Hqe : q = q / n * n + q mod n)
      by (rewrite (Nat.div_mod_eq q n) at 1; lia).
    rewrite (@mscale_entry (n * n) (n * n)) by (auto using eye_shape).
    rewrite eye_entry by assumption.
    unfold kron_sum, madd.
    rewrite (@entry_zip_with R _ _ (n * n) (n * n)) by assumption.
    rewrite Hpe, Hqe.
    rewrite !(@kron_entry R _ n n n n) by assumption.
    rewrite <- Hpe, <- Hqe.
    rewrite !(@mscale_entry n n) by (auto using eye_shape).
    rewrite !eye_entry by assumption.
    destruct (Nat.eqb_spec p q) as [Heq|Hne].
    + subst q. rewrite !Nat.eqb_refl. simpl. lra.
    + destruct (Nat.eqb_spec (p / n) (q / n)) as [Hi|Hi];
        destruct (Nat.eqb_spec (p mod n) (q mod n)) as [Hk|Hk];
        try (simpl; lra).
      exfalso. apply Hne. rewrite Hpe, Hqe, Hi, Hk. reflexivity.
Qed.

Lemma diag_scaled_eye (m : nat) (s : R) :
  diag (mscale (eye m) s) = repeat s m.
Proof.
  pose proof (@mscale_shape m m _ s (eye_shape m)) as HM.
  unfold diag.
  assert (Hr : nrows (mscale (eye m) s) = m) by apply HM.
  destruct m as [|m]; [reflexivity|].
  rewrite Hr, (ncols_of_shape HM) by lia. rewrite Nat.min_id.
  transitivity (map (fun _ : nat => s) (seq 0 (S m)));
    [|now rewrite map_const_repeat, length_seq].
  apply map_ext_in. intros i Hi. apply in_seq in Hi.
  rewrite (@mscale_entry (S m) (S m)) by (auto using eye_shape; lia).
  rewrite eye_entry, Nat.eqb_refl by lia. lra.
Qed.

Lemma fold_maximum_repeat (s : R) (k : nat) :
  fold_left np_maximum (repeat s k) s = s.
Proof.
  induction k as [|k IH]; [reflexivity|]. simpl.
  rewrite np_maximum_Rmax. unfold Rmax.
  destruct (Rle_dec s s); exact IH.
Qed.

Lemma constraint_scaled_eye (n : nat) (a b : R) (c : option (matrix R)) :
  0 < n ->
  constraint (E := triangular_eigvals)
    {| amat := mscale (eye n) a; bmat := mscale (eye n) b; cmat := c |}
  = Return (a * a + b * b)%R.
Proof.
  intros Hn. unfold constraint. cbn [amat bmat].
  change (madd (kron (mscale (eye n) a) (mscale (eye n) a))
               (kron (mscale (eye n) b) (mscale (eye n) b)))
    with (kron_sum (mscale (eye n) a) (mscale (eye n) b)).
  rewrite kron_sum_scaled_eye. cbn [sl_eigvals triangular_eigvals bind].
  rewrite diag_scaled_eye, !map_repeat.
  assert (Hpos : 0 < n * n) by nia.
  destruct (n * n) as [|k]; [lia|]. cbn [repeat amax]. f_equal.
  set (s := (a * a + b * b)%R).
  assert (Hs : (0 <= s)%R) by (unfold s; nra).
  assert (Hc : cabs (s, fzero) = s).
  { unfold cabs. cbn [fst snd]. simpl.
    replace (s * s + 0 * 0)%R with (s * s)%R by lra.
    now apply sqrt_square. }
  rewrite Hc. apply fold_maximum_repeat.
Qed.

(** X10: for the default [A] and [B] of the constructor the matrix of
    [constraint] is [0.9 I], and the score (eigenvalues read off the
    diagonal) is [0.9]: the default parameters are inside the region
    [constraint < 1]. *)
Theorem default_parameters_stationary (n : nat) (c : option (matrix R)) :
  0 < n ->
  let a := mscale (eye n) (R_sqrt.sqrt (1 / 10)) in
  let b := mscale (eye n) (R_sqrt.sqrt (8 / 10)) in
  kron_sum a b = mscale (eye (n * n)) (9 / 10)%R
  /\ constraint (E := triangular_eigvals)
       {| amat := a; bmat := b; cmat := c |} = Return (9 / 10)%R.
Proof.
  intros Hn a b.
  assert (He : (R_sqrt.sqrt (1 / 10) * R_sqrt.sqrt (1 / 10)
                + R_sqrt.sqrt (8 / 10) * R_sqrt.sqrt (8 / 10) = 9 / 10)%R)
    by (rewrite !sqrt_sqrt by lra; lra).
  split.
  - unfold a, b. rewrite kron_sum_scaled_eye. now rewrite He.
  - unfold a, b. rewrite constraint_scaled_eye by assumption. now rewrite He.
Qed.

Lemma default_parameters_stationary_witness :
  let a := mscale (eye 1) (R_sqrt.sqrt (1 / 10)) in
  let b := mscale (eye 1) (R_sqrt.sqrt (8 / 10)) in
  kron_sum a b = mscale (eye (1 * 1)) (9 / 10)%R
  /\ constraint (E := triangular_eigvals)
       {| amat := a; bmat := b; cmat := None |} = Return (9 / 10)%R.
Proof.
  apply (@default_parameters_stationary 1 None). lia.
Defined.


(** ** The accelerated iteration on a scalar model *)

Lemma fixed_point_helper_S {F : Type} `{Scalar F}
    (func : matrix F -> matrix F) (p0 : matrix F) (r : nat) :
  fixed_point_helper func p0 (S r) =
    if converged (del2_step func p0) p0 then Return (del2_step func p0)
    else fixed_point_helper func (del2_step func p0) r.
Proof. reflexivity. Qed.

Lemma zip_with_shape_any {A B C : Type} (f : A -> B -> C) (r c : nat)
    (X : list (list A)) (Y : list (list B)) :
  is_shape r c X -> is_shape r c Y ->
  is_shape r c (zip_with (zip_with f) X Y).
Proof.
  intros [HX1 HX2] [HY1 HY2]. split.
  - rewrite zip_with_length. lia.
  - subst r. revert Y HY1 HY2.
    induction X as [|x X IH]; intros [|y Y] HY1 HY2; simpl; constructor.
    + rewrite zip_with_length.
      inversion HX2; inversion HY2; subst. lia.
    + inversion HX2; inversion HY2; subst. apply IH; auto.
Qed.

Lemma nth2_zip_with {A B C : Type} (f : A -> B -> C) (r c : nat)
    (X : list (list A)) (Y : list (list B)) (i j : nat)
    (da : A) (db : B) (dc : C) :
  is_shape r c X -> is_shape r c Y -> i < r -> j < c ->
  nth j (nth i (zip_with (zip_with f) X Y) []) dc =
    f (nth j (nth i X []) da) (nth j (nth i Y []) db).
Proof.
  intros HX HY Hi Hj.
  rewrite (@nth_zip_with _ _ _ (zip_with f) X Y i [] [] [])
    by (destruct HX, HY; lia).
  apply nth_zip_with.
  - now rewrite (shape_row HX Hi).
  - now rewrite (shape_row HY Hi).
Qed.

Lemma nth2_map {A B : Type} (f : A -> B) (r c : nat) (X : list (list A))
    (i j : nat) (da : A) (db : B) :
  is_shape r c X -> i < r -> j < c ->
  nth j (nth i (map (map f) X) []) db = f (nth j (nth i X []) da).
Proof.
  intros HX Hi Hj.
  rewrite (@nth_map_in_range _ _ (map f) X i [] []) by (destruct HX; lia).
  apply nth_map_in_range. now rewrite (shape_row HX Hi).
Qed.

Lemma map_shape_any {A B : Type} (f : A -> B) (r c : nat)
    (X : list (list A)) :
  is_shape r c X -> is_shape r c (map (map f) X).
Proof.
  intros [H1 H2]. split; [now rewrite length_map|].
  apply Forall_forall. intros row Hrow.
  apply in_map_iff in Hrow as [x [<- Hx]]. rewrite length_map.
  rewrite Forall_forall in H2. auto.
Qed.

Lemma del2_step_shape (n : nat) (func : matrix R -> matrix R)
    (p0 : matrix R) :
  (forall H, is_shape n n H -> is_shape n n (func H)) ->
  is_shape n n p0 -> is_shape n n (del2_step func p0).
Proof.
  intros Hf Hp. unfold del2_step, mzip, madd, msub, smul.
  apply map_shape_any.
  repeat apply zip_with_shape_any; auto using map_shape.
Qed.

Lemma del2_step_entry (n : nat) (func : matrix R -> matrix R)
    (p0 : matrix R) (i j : nat) :
  (forall H, is_shape n n H -> is_shape n n (func H)) ->
  is_shape n n p0 -> i < n -> j < n ->
  entry (del2_step func p0) i j =
    del2_entry
      ((entry p0 i j, entry (func p0) i j),
       ((entry (func (func p0)) i j - 2 * entry (func p0) i j
         + entry p0 i j)%R,
        entry (func (func p0)) i j)).
Proof.
  intros Hf Hp Hi Hj. unfold del2_step, mzip, entry at 1.
  assert (Hd : is_shape n n
            (madd (msub (func (func p0)) (smul (of_Z 2) (func p0))) p0)).
  { unfold madd, msub, smul.
    repeat apply zip_with_shape; auto using map_shape. }
  rewrite (@nth2_map _ _ del2_entry n n _ i j ((0, 0), (0, 0))%R)
    by (repeat (first [exact Hd | apply zip_with_shape_any]); auto).
  rewrite (@nth2_zip_with _ _ _ pair n n _ _ i j (0, 0)%R (0, 0)%R)
    by (repeat (first [exact Hd | apply zip_with_shape_any]); auto).
  rewrite !(@nth2_zip_with _ _ _ pair n n _ _ i j 0%R 0%R) by auto.
  f_equal. f_equal. f_equal.
  change (nth j (nth i ?M []) 0%R) with (entry M i j).
  unfold madd, msub, smul.
  rewrite !(@entry_zip_with R _ _ n n), (@entry_map R _ _ n n);
    auto using map_shape.
  apply zip_with_shape; auto using map_shape.
Qed.

Lemma scalar_map_entry (n : nat) (a b : R) (cc H : matrix R) (i j : nat) :
  is_shape n n cc -> is_shape n n H -> i < n -> j < n ->
  entry (fixed_point H (mscale (eye n) a) (mscale (eye n) b) cc) i j =
    ((2 - a * a - b * b) * entry H i j - entry cc i j)%R.
Proof.
  intros Hcc HH Hi Hj.
  pose proof (@mscale_shape n n _ a (eye_shape n)) as HA.
  pose proof (@mscale_shape n n _ b (eye_shape n)) as HB.
  rewrite (@fixed_point_entry n _ _ cc HA HB Hcc H i j HH Hi Hj).
  rewrite !sandwich_scaled_eye by assumption. lra.
Qed.

Lemma fneq_R (x y : R) : fneq x y = true <-> x <> y.
Proof.
  unfold fneq. simpl.
  destruct (Rle_dec x y), (Rle_dec y x); simpl; split; intros Hx;
    try discriminate; try reflexivity; try lra.
Qed.

Lemma del2_entry_affine (k x c : R) :
  k <> 0%R ->
  let p1 := ((1 + k) * x - c)%R in
  let p2 := ((1 + k) * p1 - c)%R in
  del2_entry ((x, p1), ((p2 - 2 * p1 + x)%R, p2)) = (c / k)%R.
Proof.
  intros Hk p1 p2. unfold del2_entry.
  assert (Hd : (p2 - 2 * p1 + x = k * (k * x - c))%R)
    by (unfold p2, p1; ring).
  destruct (fneq (p2 - 2 * p1 + x)%R fzero) eqn:Hne.
  - apply fneq_R in Hne. change (@fzero R R_scalar) with 0%R in Hne.
    rewrite Hd in *.
    assert (He : (k * x - c <> 0)%R) by (intros He; apply Hne; rewrite He; ring).
    simpl. unfold p1. field. split; assumption.
  - assert (Hz : (p2 - 2 * p1 + x = 0)%R).
    { destruct (Req_dec (p2 - 2 * p1 + x) 0) as [Hz|Hz]; [assumption|].
      apply fneq_R in Hz. change (@fzero R R_scalar) with 0%R in Hne.
      congruence. }
    rewrite Hd in Hz.
    assert (He : (k * x - c = 0)%R).
    { apply Rmult_integral in Hz. destruct Hz; [contradiction|assumption]. }
    assert (Hx : (x = c / k)%R) by (field_simplify_eq; [lra|assumption]).
    unfold p2, p1. rewrite <- Hx. nra.
Qed.

Lemma del2_step_scalar (n : nat) (a b : R) (cc p0 : matrix R) :
  is_shape n n cc -> is_shape n n p0 ->
  (a * a + b * b <> 1)%R ->
  del2_step
    (fun uvar => fixed_point uvar (mscale (eye n) a) (mscale (eye n) b) cc) p0
  = sdiv cc (1 - a * a - b * b)%R.
Proof.
  intros Hcc Hp Hk.
  pose proof (@mscale_shape n n _ a (eye_shape n)) as HA.
  pose proof (@mscale_shape n n _ b (eye_shape n)) as HB.
  set (func := fun uvar => fixed_point uvar (mscale (eye n) a)
                             (mscale (eye n) b) cc).
  assert (Hf : forall H, is_shape n n H -> is_shape n n (func H))
    by (intros H HH; unfold func; now apply fixed_point_shape).
  apply (@matrix_ext R _ n n).
  - now apply del2_step_shape.
  - unfold sdiv. now apply map_shape.
  - intros i j Hi Hj.
    rewrite (@del2_step_entry n func p0 i j Hf Hp Hi Hj).
    unfold sdiv. rewrite (@entry_map R _ _ n n) by assumption.
    assert (E1 : forall H, is_shape n n H ->
              entry (func H) i j =
                ((1 + (1 - a * a - b * b)) * entry H i j - entry cc i j)%R).
    { intros H HH. unfold func. rewrite scalar_map_entry by assumption.
      ring. }
    rewrite (E1 (func p0)), (E1 p0) by auto.
    apply (@del2_entry_affine (1 - a * a - b * b)%R). lra.
Qed.

Lemma converged_self (M : matrix R) : converged M M = true.
Proof.
  unfold converged, mzip.
  induction M as [|row M IH]; [reflexivity|].
  cbn [zip_with map forallb]. rewrite IH, andb_true_r. clear IH.
  induction row as [|x row IH]; [reflexivity|].
  cbn [zip_with map forallb]. rewrite IH, andb_true_r.
  assert (Hx : Rabs (relerr_entry (x, x)) = 0%R).
  { unfold relerr_entry. destruct (fneq x fzero) eqn:Hne.
    - apply fneq_R in Hne. change (@fzero R R_scalar) with 0%R in Hne.
      simpl. replace ((x - x) / x)%R with 0%R by (field; assumption).
      apply Rabs_R0.
    - destruct (Req_dec x 0) as [->|Hz]; [apply Rabs_R0|].
      apply fneq_R in Hz. change (@fzero R R_scalar) with 0%R in Hne.
      congruence. }
  simpl in *. rewrite Hx.
  destruct (Rlt_dec 0 (1 / 100000000)) as [_|Hn]; [reflexivity|lra].
Qed.

Lemma all_finite_R (M : matrix R) : forallb (forallb isfinite) M = true.
Proof.
  apply forallb_forall. intros row _. apply forallb_forall. intros x _.
  apply isfinite_R.
Qed.

(** With [A = a I] and [B = b I] the accelerated iteration lands on the
    solution at its first pass, from any start. *)
Lemma scipy_fixed_point_scalar (n : nat) (a b : R) (cc x0 : matrix R) :
  is_shape n n cc -> is_shape n n x0 ->
  (a * a + b * b <> 1)%R ->
  scipy_fixed_point
    (fun uvar => fixed_point uvar (mscale (eye n) a) (mscale (eye n) b) cc) x0
  = Return (sdiv cc (1 - a * a - b * b)%R).
Proof.
  intros Hcc Hx Hk. unfold scipy_fixed_point. rewrite all_finite_R.
  change 500 with (S (S 498)).
  rewrite fixed_point_helper_S, del2_step_scalar by assumption.
  destruct (converged _ x0); [reflexivity|].
  rewrite fixed_point_helper_S, del2_step_scalar;
    try assumption; [|unfold sdiv; now apply map_shape].
  now rewrite converged_self.
Qed.

(** ** The default parameters and variance targeting *)

Lemma default_uvar (n : nat) (C target : matrix R) :
  is_shape n n C -> is_shape n n target ->
  dot C (transpose C) = mscale target (1 / 10)%R ->
  get_uvar (S := scipy_solver)
    {| amat := mscale (eye n) (R_sqrt.sqrt (1 / 10));
       bmat := mscale (eye n) (R_sqrt.sqrt (8 / 10));
       cmat := Some C |}
  = Return (Some target).
Proof.
  intros HC Ht Hgram. unfold get_uvar, find_stationary_var.
  cbn [amat bmat cmat sco_fixed_point scipy_solver].
  replace (nrows (mscale (eye n) (R_sqrt.sqrt (1 / 10)))) with n
    by (symmetry; apply (@mscale_shape n n _ _ (eye_shape n))).
  rewrite scipy_fixed_point_scalar;
    [| now apply gram_shape | apply eye_shape
     | rewrite !sqrt_sqrt by lra; lra].
  do 2 f_equal. rewrite Hgram.
  apply (@matrix_ext R _ n n); auto.
  - unfold sdiv. apply map_shape. now apply mscale_shape.
  - intros i j Hi Hj. unfold sdiv.
    rewrite (@entry_map R _ _ n n) by (auto using mscale_shape).
    rewrite (@mscale_entry n n) by assumption.
    rewrite !sqrt_sqrt by lra. simpl. field.
Qed.

(** ** The target of [estimate] against [estimate_h0] *)

(** X14: in exact arithmetic the target that [BEKK.estimate] computes is
    [estimate_h0] of the same innovations multiplied by [nobs / nstocks]. *)
Theorem estimate_target_scales_h0 (T N : nat) (self : BEKK R) :
  is_shape T N (innov self) -> 0 < T -> 0 < N ->
  estimate_target self true =
    Some (mscale (estimate_h0 (innov self)) (INR T / INR N)%R).
Proof.
  intros Hi HT HN. unfold estimate_target, estimate_h0. f_equal.
  rewrite (ncols_of_shape Hi HT).
  replace (nrows (innov self)) with T by (symmetry; apply Hi).
  unfold mscale, sdiv. rewrite !map_map. apply map_ext. intros row.
  rewrite !map_map. apply map_ext. intros x.
  simpl. rewrite <- !INR_IZR_INZ.
  assert (INR T <> 0%R) by (apply not_0_INR; lia).
  assert (INR N <> 0%R) by (apply not_0_INR; lia).
  field. split; assumption.
Qed.

Lemma estimate_target_scales_h0_witness :
  estimate_target
    {| innov := [[1]; [2]]%R; param_start := None; cython := true;
       hvar := None |} true =
    Some (mscale (estimate_h0 [[1]; [2]]%R) (INR 2 / INR 1)%R).
Proof.
  apply (@estimate_target_scales_h0 2 1
           {| innov := [[1]; [2]]%R; param_start := None; cython := true;
              hvar := None |});
    [split; [reflexivity | repeat constructor] | lia | lia].
Defined.

(** ** NaN in binary64 *)

Lemma isnan_spec (x : float) : Prim2SF x = S754_nan -> isnan x = true.
Proof.
  intros Hx. unfold isnan. cbn [fle float_scalar].
  now rewrite FloatAxioms.leb_spec, Hx.
Qed.

Lemma nan_add_l (x y : float) :
  Prim2SF x = S754_nan -> Prim2SF (x + y)%float = S754_nan.
Proof. intros Hx. now rewrite FloatAxioms.add_spec, Hx. Qed.

Lemma nan_add_r (x y : float) :
  Prim2SF y = S754_nan -> Prim2SF (x + y)%float = S754_nan.
Proof.
  intros Hy. rewrite FloatAxioms.add_spec, Hy. now destruct (Prim2SF x).
Qed.

Lemma nan_mul_l (x y : float) :
  Prim2SF x = S754_nan -> Prim2SF (x * y)%float = S754_nan.
Proof. intros Hx. now rewrite FloatAxioms.mul_spec, Hx. Qed.

Lemma nan_div_r (x y : float) :
  Prim2SF y = S754_nan -> Prim2SF (x / y)%float = S754_nan.
Proof.
  intros Hy. rewrite FloatAxioms.div_spec, Hy. now destruct (Prim2SF x).
Qed.

Lemma fnan_float : Prim2SF (@fnan float _) = S754_nan.
Proof. reflexivity. Qed.

Lemma nan_not_sentinel (v : float) :
  Prim2SF v = S754_nan -> v <> @sentinel float _.
Proof. intros Hv ->. discriminate Hv. Qed.

(** ** The objective without an unconditional variance *)

(** The evaluator of a slot whose factor has a NaN on its diagonal: the
    entry is left out of the log-determinant, and the solve divides by
    it. *)
Lemma likelihood_nan_slot {G : Log float} (u : float) :
  exists v,
    likelihood (L := diagonal_splu) [[@fnan float _]] [[u]] = Return v
    /\ Prim2SF v = S754_nan.
Proof.
  eexists. split; [reflexivity|].
  cbv [likelihood bind scs_splu diagonal_splu factor_U factor_solve concat
       app diag nrows ncols hd length Nat.min seq map entry nth zip_with].
  change (fadd ?x ?y) with (x + y)%float.
  apply nan_add_r. unfold vsum. cbn [fold_left].
  change (fadd ?x ?y) with (x + y)%float.
  change (fmul ?x ?y) with (x * y)%float.
  change (fdiv ?x ?y) with (x / y)%float.
  apply nan_add_r, nan_mul_l, nan_div_r. reflexivity.
Qed.

Lemma likelihood_slots_returns {G : Log float} (hvar : list (matrix float))
    (innov : matrix float) :
  exists r, likelihood_slots (L := diagonal_splu) hvar innov = Return r.
Proof.
  revert innov. induction hvar as [|h hs IH]; intros [|u us];
    try (eexists; reflexivity).
  destruct (IH us) as [r Hr]. cbn [likelihood_slots].
  unfold likelihood at 1. cbn [scs_splu diagonal_splu bind]. rewrite Hr.
  eexists. reflexivity.
Qed.



(** ** [find_cmat] in any arithmetic *)

Section FindCmat.

Context {F : Type} `{Scalar F}.

Lemma find_cmat_ccmat_shape_any (n : nat) (A B target : matrix F) :
  is_shape n n A -> is_shape n n B -> is_shape n n target ->
  is_shape n n (find_cmat_ccmat A B target).
Proof.
  intros HA HB Ht. unfold find_cmat_ccmat, msub.
  repeat apply zip_with_shape; auto using sandwich_shape.
Qed.

(** What [find_cmat] does with [M]: a non-finite entry is a [ValueError]
    of [scipy.linalg.cholesky], which is not caught; otherwise the result
    is that of the factorization, [None] for a [LinAlgError]. *)
Lemma find_cmat_outcome (n : nat) (A B target : matrix F) :
  is_shape n n A -> is_shape n n B -> is_shape n n target ->
  find_cmat A B target =
    if forallb (forallb isfinite) (find_cmat_ccmat A B target)
    then Return (potrf_lower n (find_cmat_ccmat A B target))
    else Raise ValueError.
Proof.
  intros HA HB Ht.
  pose proof (find_cmat_ccmat_shape_any HA HB Ht) as [Hlen Hrows].
  unfold find_cmat, sl_cholesky_lower.
  destruct (forallb (forallb isfinite) (find_cmat_ccmat A B target));
    [|reflexivity].
  assert (Hsq : forallb (fun row => Nat.eqb (length row)
                                      (nrows (find_cmat_ccmat A B target)))
                  (find_cmat_ccmat A B target) = true).
  { apply forallb_forall. intros row Hrow. rewrite Forall_forall in Hrows.
    apply Nat.eqb_eq. unfold nrows. rewrite (Hrows _ Hrow). now symmetry. }
  rewrite Hsq. cbn [negb]. unfold nrows. rewrite Hlen.
  destruct (potrf_lower n (find_cmat_ccmat A B target)); reflexivity.
Qed.

Lemma zip_cons_shape (n m : nat) (col : vec F) (L : matrix F) :
  length col = n -> is_shape n m L -> is_shape n (S m) (zip_with cons col L).
Proof.
  intros Hcol [Hlen Hrows]. split; [rewrite zip_with_length; lia|].
  apply Forall_zip_with. intros c r _ Hr. rewrite Forall_forall in Hrows.
  cbn [length]. now rewrite (Hrows _ Hr).
Qed.

Lemma entry_zip_cons (col : vec F) (L : matrix F) (i j : nat) :
  i < length col -> i < length L ->
  entry (zip_with cons col L) i (S j) = entry L i j.
Proof.
  intros Hc HL. unfold entry.
  rewrite (@nth_zip_with _ _ _ cons col L i fzero [] []) by assumption.
  reflexivity.
Qed.

(** The factor is square and its strict upper triangle holds zeros. *)
Lemma potrf_lower_shape (n : nat) :
  forall (M L : matrix F), is_shape n n M -> potrf_lower n M = Some L ->
    is_shape n n L
    /\ forall i j, i < j -> j < n -> entry L i j = fzero.
Proof.
  induction n as [|n IH]; intros M L HM HL.
  - injection HL as <-. split; [split; [reflexivity|constructor]|].
    intros i j _ Hj. lia.
  - destruct M as [|[|a r0] rest]; try discriminate.
    cbn [potrf_lower] in HL.
    destruct (flt fzero a); [|discriminate].
    set (l := fsqrt a) in *.
    set (col := map (fun row => fdiv (hd fzero row) l) rest) in *.
    set (trailing := msub (map (@tl F) rest)
                       (map (fun ci => map (fun cj => fmul ci cj) col) col))
      in *.
    destruct (potrf_lower n trailing) as [L'|] eqn:HL'; [|discriminate].
    injection HL as <-.
    destruct HM as [Hlen Hrows]. cbn [length] in Hlen.
    assert (Hrest : length rest = n) by lia.
    inversion Hrows as [|? ? Hrow0 Hrows']. subst.
    assert (Hcol : length col = length rest) by (unfold col; apply length_map).
    assert (Htr : is_shape (length rest) (length rest) trailing).
    { unfold trailing, msub. apply zip_with_shape.
      - split; [apply length_map|]. apply Forall_forall. intros r Hr.
        apply in_map_iff in Hr as [r' [<- Hr']].
        rewrite Forall_forall in Hrows'. specialize (Hrows' _ Hr').
        destruct r'; simpl in *; lia.
      - split; [now rewrite length_map|]. apply Forall_forall. intros r Hr.
        apply in_map_iff in Hr as [ci [<- _]]. now rewrite length_map. }
    destruct (IH _ _ Htr HL') as [HL's Hup]. split.
    + pose proof (@zip_cons_shape _ _ col L' Hcol HL's) as [Hzlen Hzrows]. split.
      * cbn [length]. now rewrite Hzlen.
      * constructor; [cbn [length]; now rewrite repeat_length | exact Hzrows].
    + intros i j Hij Hj. destruct j as [|j]; [lia|]. destruct i as [|i].
      * unfold entry. cbn [nth]. apply nth_repeat_lt. lia.
      * change (entry ((l :: repeat fzero (length rest)) :: zip_with cons col L')
                  (S i) (S j))
          with (entry (zip_with cons col L') i (S j)).
        rewrite entry_zip_cons by (destruct HL's; lia).
        apply Hup; lia.
Qed.

End FindCmat.

(** ** The factorization succeeds on positive definite matrices only *)

Lemma potrf_lower_only_pos_def (n : nat) :
  forall (M L : matrix R), is_shape n n M -> symmetric n M ->
    potrf_lower n M = Some L -> pos_def n M.
Proof.
  induction n as [|n IH]; intros M L HM Hsym HL.
  - split; [exact HM|]. split; [exact Hsym|].
    intros x Hx Hnz. destruct x; [now contradiction Hnz | discriminate].
  - destruct M as [|[|a r0] rest];
      try (destruct HM as [Hlen Hrows]; simpl in Hlen; discriminate).
    rewrite potrf_lower_step in HL.
    destruct (flt 0%R a) eqn:Ha; [|discriminate].
    apply flt_R in Ha.
    destruct (potrf_lower n (trailing_block (R_sqrt.sqrt a) rest))
      as [L'|] eqn:HL'; [|discriminate].
    destruct (shape_cons_inv HM) as [Hrow Hrest].
    pose proof (symmetric_first_row HM Hsym) as Hr0.
    set (l := R_sqrt.sqrt a) in *.
    assert (Hl : (0 < l)%R) by (apply sqrt_lt_R0; assumption).
    assert (Hll : (l * l = a)%R) by (apply sqrt_sqrt; lra).
    assert (Htsym : symmetric n (trailing_block l rest)).
    { intros i j Hi Hj. rewrite !(@trailing_entry n) by assumption.
      specialize (Hsym (S i) (S j) ltac:(lia) ltac:(lia)).
      unfold entry in Hsym. simpl in Hsym.
      change (@fzero R R_scalar) with 0%R in Hsym. rewrite Hsym. lra. }
    pose proof (IH _ _ (trailing_shape l Hrest) Htsym HL') as [_ [_ Hpos]].
    split; [exact HM|]. split; [exact Hsym|].
    intros x Hx Hnz. destruct x as [|x0 y]; [discriminate|].
    assert (Hy : length y = n) by (simpl in Hx; lia).
    rewrite quad_form_cons. set (s := vdot (first_column rest) y).
    rewrite Hr0, (vdot_comm y). fold s.
    pose proof (@quad_form_trailing n l rest y Hrest) as Htr. fold s in Htr.
    assert (Hs2 : (/ l * s * (/ l * s) = s * s / a)%R)
      by (rewrite <- Hll; field; lra).
    rewrite Hs2 in Htr.
    assert (Hsq : (a * x0 * x0 + x0 * s + x0 * s + s * s / a
                   = a * ((x0 + s / a) * (x0 + s / a)))%R) by (field; lra).
    pose proof (Rle_0_sqr (x0 + s / a)) as Hnn. unfold Rsqr in Hnn.
    assert (Hann : (0 <= a * ((x0 + s / a) * (x0 + s / a)))%R)
      by (apply Rmult_le_pos; lra).
    destruct (Classical_Prop.classic (y = repeat 0%R n)) as [Hy0|Hy0].
    + assert (Hx0 : x0 <> 0%R).
      { intros ->. apply Hnz. simpl. now rewrite Hy0. }
      assert (Hsz : s = 0%R) by (unfold s; rewrite Hy0; apply vdot_zeros_r).
      assert (Hqz : quad_form (map (@tl R) rest) y = 0%R)
        by (rewrite Hy0; apply quad_form_zeros).
      rewrite Hqz, Hsz.
      pose proof (Rsqr_pos_lt x0 Hx0) as Hp. unfold Rsqr in Hp.
      replace (a * x0 * x0 + x0 * 0 + x0 * 0 + 0)%R with (a * (x0 * x0))%R
        by ring.
      apply Rmult_lt_0_compat; assumption.
    + specialize (Hpos y Hy Hy0). lra.
Qed.

(** C5: what [find_cmat] does with
    [M = target - A target A' - B target B'].  In any arithmetic: a
    non-finite entry of [M] is a [ValueError], which is not caught;
    otherwise the result is that of the factorization of the lower
    triangle of [M], [None] when a pivot is not positive; a matrix that is
    returned is square with zeros above its diagonal.  In exact
    arithmetic, for a symmetric [M]: the factor is returned exactly when
    [M] is positive definite, it has a positive diagonal and [CC' = M];
    and [None] is returned when [M] is not positive definite. *)
Theorem find_cmat_cholesky :
  (forall (F : Type) (SF : Scalar F) (n : nat) (A B target : matrix F),
     is_shape n n A -> is_shape n n B -> is_shape n n target ->
     let M := find_cmat_ccmat A B target in
     find_cmat A B target =
       (if forallb (forallb isfinite) M
        then Return (potrf_lower n M) else Raise ValueError)
     /\ forall C, find_cmat A B target = Return (Some C) ->
          is_shape n n C
          /\ forall i j, i < j -> j < n -> entry C i j = fzero)
  /\ (forall (n : nat) (A B target : matrix R),
        is_shape n n A -> is_shape n n B -> is_shape n n target ->
        let M := find_cmat_ccmat A B target in
        symmetric n M ->
        (pos_def n M ->
         exists C, find_cmat A B target = Return (Some C)
                   /\ lower_triangular C
                   /\ (forall i, i < n -> (0 < entry C i i)%R)
                   /\ dot C (transpose C) = M)
        /\ (~ pos_def n M -> find_cmat A B target = Return None)).
Proof.
  split.
  - intros F SF n A B target HA HB Ht M.
    pose proof (find_cmat_outcome HA HB Ht) as Hout. fold M in Hout.
    split; [exact Hout|]. intros C HC. rewrite Hout in HC.
    destruct (forallb (forallb isfinite) M); [|discriminate].
    injection HC as HC.
    apply (potrf_lower_shape (find_cmat_ccmat_shape_any HA HB Ht) HC).
  - intros n A B target HA HB Ht M Hsym.
    pose proof (find_cmat_ccmat_shape HA HB Ht) as HM. fold M in HM.
    pose proof (find_cmat_R HA HB Ht) as Hfind. fold M in Hfind.
    split.
    + intros Hpd. destruct (potrf_lower_pos_def Hpd) as [C HC].
      destruct (potrf_lower_correct HM HC) as [_ [Hlow [Hdiag _]]].
      exists C. rewrite Hfind, HC. split; [reflexivity|].
      split; [exact Hlow|]. split; [exact Hdiag|].
      now apply (@cholesky_gram n).
    + intros Hnpd. rewrite Hfind.
      destruct (potrf_lower n M) as [C|] eqn:HC; [|reflexivity].
      exfalso. apply Hnpd. now apply (@potrf_lower_only_pos_def n M C).
Qed.

(** In binary64 with [A = B = 0] and target [2], and in exact arithmetic
    with [A = B = 1/2] and target [2], where [M] is the matrix [1]. *)
Lemma find_cmat_cholesky_witness :
  (exists C, find_cmat [[0]]%float [[0]]%float [[2]]%float = Return (Some C)
             /\ is_shape 1 1 C)
  /\ exists C, find_cmat [[/ 2]]%R [[/ 2]]%R [[2]]%R = Return (Some C)
               /\ dot C (transpose C) =
                    find_cmat_ccmat [[/ 2]]%R [[/ 2]]%R [[2]]%R.
Proof.
  assert (Hs : forall (X : Type) (x : X), is_shape 1 1 [[x]])
    by (intros X x; split; [reflexivity | repeat constructor]).
  destruct find_cmat_cholesky as [Hany Hexact]. split.
  - destruct (Hany float _ 1 [[0]]%float [[0]]%float [[2]]%float
                (Hs _ _) (Hs _ _) (Hs _ _)) as [Hout Hshape].
    exists [[PrimFloat.sqrt 2]]%float.
    assert (Hret : find_cmat [[0]]%float [[0]]%float [[2]]%float
                   = Return (Some [[PrimFloat.sqrt 2]]%float))
      by (rewrite Hout; vm_compute; reflexivity).
    split; [exact Hret | exact (proj1 (Hshape _ Hret))].
  - destruct (Hexact 1 [[/ 2]]%R [[/ 2]]%R [[2]]%R (Hs _ _) (Hs _ _) (Hs _ _))
      as [Hpd _].
    + intros i j Hi Hj. replace i with 0 by lia. replace j with 0 by lia.
      reflexivity.
    + destruct Hpd as [C [HC [_ [_ Hgram]]]]; [|exists C; now split].
      apply pos_def_1.
      cbv [vdot vsum zip_with fold_left map nth hd length seq ncols transpose
           fzero of_Z fadd fmul fsub R_scalar].
      lra.
Defined.

Lemma powerRZ_2_m52 : powerRZ 2 (-52) = (/ 4503599627370496)%R.
Proof.
  change (powerRZ 2 (-52)) with (/ (2 ^ 52))%R. f_equal.
  change 52%nat with (26 + 26)%nat. rewrite pow_add.
  assert (H26 : (2 ^ 26 = 67108864)%R).
  { change 26%nat with (13 + 13)%nat. rewrite pow_add.
    assert (H13 : (2 ^ 13 = 8192)%R) by (simpl; lra).
    rewrite H13. lra. }
  rewrite H26. lra.
Qed.

(** A positive definite matrix of binary64 values whose second pivot,
    [c - b b = 7/2^56], is lost to rounding. *)
Lemma near_singular_pos_def :
  pos_def 2
    (map (map float_to_R)
       [[1; 0x1.0000003p+0]; [0x1.0000003p+0; 0x1.0000006000001p+0]]%float).
Proof.
  cbv [map float_to_R].
  repeat match goal with
  | |- context [Prim2SF ?x] =>
      let v := eval vm_compute in (Prim2SF x) in change (Prim2SF x) with v
  end.
  cbv iota beta. rewrite !powerRZ_2_m52.
  set (one := (1 * 4503599627370496 * / 4503599627370496)%R).
  set (bb := (1 * 4503599677702144 * / 4503599627370496)%R).
  set (cc := (1 * 4503599728033793 * / 4503599627370496)%R).
  assert (H1 : one = 1%R) by (unfold one; lra).
  assert (Hd : (cc - bb * bb = 7 / 72057594037927936)%R)
    by (unfold cc, bb; lra).
  split; [split; [reflexivity | repeat constructor]|]. split.
  - intros i j Hi Hj.
    destruct i as [|[|i]]; destruct j as [|[|j]]; try lia; reflexivity.
  - intros x Hx Hnz. destruct x as [|x0 [|x1 [|x2 x]]]; try discriminate.
    cbv [quad_form mat_vec map vdot vsum zip_with fold_left fzero of_Z fadd
         fmul R_scalar].
    rewrite H1.
    assert (Hq : (0 < (x0 + bb * x1) * (x0 + bb * x1)
                      + (cc - bb * bb) * (x1 * x1))%R).
    { rewrite Hd.
      pose proof (Rle_0_sqr (x0 + bb * x1)) as Hsq. unfold Rsqr in Hsq.
      destruct (Req_dec x1 0) as [Hx1|Hx1].
      - subst x1. assert (Hx0 : x0 <> 0%R) by (intros ->; now apply Hnz).
        pose proof (Rsqr_pos_lt x0 Hx0) as Hp. unfold Rsqr in Hp.
        replace ((x0 + bb * 0) * (x0 + bb * 0))%R with (x0 * x0)%R by ring.
        lra.
      - pose proof (Rsqr_pos_lt x1 Hx1) as Hp. unfold Rsqr in Hp.
        set (p := (x1 * x1)%R) in *.
        set (q := ((x0 + bb * x1) * (x0 + bb * x1))%R) in *. lra. }
    replace (0 + x0 * (0 + 1 * x0 + bb * x1) + x1 * (0 + bb * x0 + cc * x1))%R
      with ((x0 + bb * x1) * (x0 + bb * x1) + (cc - bb * bb) * (x1 * x1))%R
      by ring.
    exact Hq.
Qed.

(** C5, as stated, fails in binary64: with the finite [A = 2^600],
    [B = 0] and target [1] the matrix [M] overflows and [find_cmat]
    raises; with [A = B = 0] and
    target [2], [M] is [2] and the factor that is returned has
    [CC' = 2.0000000000000004]; and with [A = B = 0] the target
    [[1, b], [b, c]], [b = 1 + 3/2^28], [c = 1 + 6/2^28 + 1/2^52], is [M]
    itself and positive definite, and [None] is returned. *)
Lemma find_cmat_counterexample :
  find_cmat [[0x1p+600]]%float [[0]]%float [[1]]%float = Raise ValueError
  /\ (find_cmat_ccmat [[0]]%float [[0]]%float [[2]]%float = [[2]]%float
      /\ exists C, find_cmat [[0]]%float [[0]]%float [[2]]%float
                     = Return (Some C)
                   /\ dot C (transpose C) <> [[2]]%float)
  /\ (let M := [[1; 0x1.0000003p+0]; [0x1.0000003p+0; 0x1.0000006000001p+0]]%float in
      find_cmat_ccmat (zeros 2 2) (zeros 2 2) M = M
      /\ pos_def 2 (map (map float_to_R) M)
      /\ find_cmat (zeros 2 2) (zeros 2 2) M = Return None).
Proof.
  split; [vm_compute; reflexivity|]. split.
  - split; [vm_compute; reflexivity|].
    exists [[PrimFloat.sqrt 2]]%float. split; [vm_compute; reflexivity|].
    vm_compute. discriminate.
  - cbv zeta. split; [vm_compute; reflexivity|].
    split; [|vm_compute; reflexivity].
    exact near_singular_pos_def.
Qed.

(** ** Bounds on sums *)

Lemma sum_over_le (l : list nat) (f g : nat -> R) :
  (forall j, In j l -> (f j <= g j)%R) -> (sum_over l f <= sum_over l g)%R.
Proof.
  induction l as [|x l IH]; intros Hfg; simpl; [lra|].
  pose proof (Hfg x (or_introl eq_refl)).
  assert (sum_over l f <= sum_over l g)%R
    by (apply IH; intros j Hj; apply Hfg; now right).
  unfold sum_over in *. lra.
Qed.

Lemma sum_over_Rabs (l : list nat) (f : nat -> R) :
  (Rabs (sum_over l f) <= sum_over l (fun j => Rabs (f j)))%R.
Proof.
  induction l as [|x l IH]; simpl; [rewrite Rabs_R0; lra|].
  eapply Rle_trans; [apply Rabs_triang|]. unfold sum_over in *. lra.
Qed.

Lemma sum_over_sub (l : list nat) (f g : nat -> R) :
  sum_over l (fun j => (f j - g j)%R) = (sum_over l f - sum_over l g)%R.
Proof.
  induction l as [|x l IH]; simpl; [lra|]. unfold sum_over in *. lra.
Qed.

Section Sandwich.

Variables (n : nat) (A : matrix R).
Hypothesis A_shape : is_shape n n A.

(** Entry [(i, j)] of [A X A'] as a double sum. *)
Lemma sandwich_sum (X : matrix R) (i j : nat) :
  is_shape n n X -> i < n -> j < n ->
  entry (dot (dot A X) (transpose A)) i j =
    sum_over (seq 0 n)
      (fun k => sum_over (seq 0 n)
         (fun l => (entry A i k * (entry X k l * entry A j l))%R)).
Proof.
  intros HX Hi Hj. rewrite (@sandwich_entry n) by assumption.
  apply (@bilinear_sum n n X (nth i A []) (nth j A []) HX).
  now apply (@shape_row R n n).
Qed.

Lemma sandwich_diff (X Y : matrix R) (i j : nat) :
  is_shape n n X -> is_shape n n Y -> i < n -> j < n ->
  (entry (dot (dot A Y) (transpose A)) i j
   - entry (dot (dot A X) (transpose A)) i j)%R =
    sum_over (seq 0 n)
      (fun k => sum_over (seq 0 n)
         (fun l => (entry A i k
                    * ((entry Y k l - entry X k l) * entry A j l))%R)).
Proof.
  intros HX HY Hi Hj. rewrite !sandwich_sum by assumption.
  rewrite <- sum_over_sub. apply sum_over_ext. intros k _.
  rewrite <- sum_over_sub. apply sum_over_ext. intros l _. ring.
Qed.

(** When the rows of [|A|] sum to at most [alpha] and [X] and [Y] differ
    by at most [eps] in every entry, [A X A'] and [A Y A'] differ by at
    most [alpha^2 eps]. *)
Lemma sandwich_bound (alpha eps : R) (X Y : matrix R) (i j : nat) :
  (forall r, r < n ->
     (sum_over (seq 0 n) (fun k => Rabs (entry A r k)) <= alpha)%R) ->
  (forall k l, k < n -> l < n ->
     (Rabs (entry Y k l - entry X k l) <= eps)%R) ->
  (0 <= eps)%R ->
  is_shape n n X -> is_shape n n Y -> i < n -> j < n ->
  (Rabs (entry (dot (dot A Y) (transpose A)) i j
         - entry (dot (dot A X) (transpose A)) i j)
   <= alpha * alpha * eps)%R.
Proof.
  intros Hrow Hd Heps HX HY Hi Hj. rewrite sandwich_diff by assumption.
  assert (Ha : (0 <= alpha)%R).
  { eapply Rle_trans; [|apply (Hrow i Hi)].
    apply sum_over_nonneg. intros; apply Rabs_pos. }
  eapply Rle_trans; [apply sum_over_Rabs|].
  eapply Rle_trans.
  - apply (@sum_over_le _ _
             (fun k => (Rabs (entry A i k) * (eps * alpha))%R)).
    intros k Hk. apply in_seq in Hk.
    rewrite sum_over_scale_l, Rabs_mult.
    apply Rmult_le_compat_l; [apply Rabs_pos|].
    eapply Rle_trans; [apply sum_over_Rabs|].
    eapply Rle_trans.
    + apply (@sum_over_le _ _ (fun l => (eps * Rabs (entry A j l))%R)).
      intros l Hl. apply in_seq in Hl. rewrite Rabs_mult.
      apply Rmult_le_compat_r; [apply Rabs_pos|]. apply Hd; lia.
    + rewrite sum_over_scale_l.
      apply Rmult_le_compat_l; [assumption | now apply Hrow].
  - rewrite sum_over_scale_r.
    replace (alpha * alpha * eps)%R with (alpha * (eps * alpha))%R by ring.
    apply Rmult_le_compat_r; [|now apply Hrow].
    apply Rmult_le_pos; assumption.
Qed.

End Sandwich.

(** ** A maximum over the entries *)

Lemma max_index_exists (m : nat) (f : nat -> R) :
  0 < m -> exists i0, i0 < m /\ forall i, i < m -> (f i <= f i0)%R.
Proof.
  induction m as [|m IH]; intros Hm; [lia|].
  destruct m as [|m].
  - exists 0. split; [lia|]. intros i Hi. replace i with 0 by lia. lra.
  - destruct IH as [i0 [Hi0 Hmax]]; [lia|].
    destruct (Rle_dec (f (S m)) (f i0)) as [Hle|Hgt].
    + exists i0. split; [lia|]. intros i Hi.
      destruct (Nat.eq_dec i (S m)) as [->|Hne]; [assumption|].
      apply Hmax. lia.
    + exists (S m). split; [lia|]. intros i Hi.
      destruct (Nat.eq_dec i (S m)) as [->|Hne]; [lra|].
      specialize (Hmax i ltac:(lia)). lra.
Qed.

Lemma max_entry_exists (n : nat) (f : nat -> nat -> R) :
  0 < n ->
  exists i0 j0, i0 < n /\ j0 < n
    /\ forall i j, i < n -> j < n -> (f i j <= f i0 j0)%R.
Proof.
  intros Hn.
  destruct (@max_index_exists (n * n) (fun p => f (p / n) (p mod n)))
    as [p0 [Hp0 Hmax]]; [nia|].
  exists (p0 / n), (p0 mod n). split; [|split].
  - apply Nat.Div0.div_lt_upper_bound; lia.
  - apply Nat.mod_upper_bound; lia.
  - intros i j Hi Hj. specialize (Hmax (i * n + j) ltac:(nia)).
    rewrite Nat.div_add_l, Nat.div_small, Nat.add_0_r in Hmax by lia.
    rewrite Nat.add_comm, Nat.Div0.mod_add, Nat.mod_small in Hmax by lia.
    exact Hmax.
Qed.

(** ** The residual of the unconditional-variance equation *)

Section Residual.

Variables (n : nat) (A B cc : matrix R).
Hypothesis A_shape : is_shape n n A.
Hypothesis B_shape : is_shape n n B.
Hypothesis cc_shape : is_shape n n cc.

Variables (alpha beta : R).
Hypothesis A_rows : forall r, r < n ->
  (sum_over (seq 0 n) (fun k => Rabs (entry A r k)) <= alpha)%R.
Hypothesis B_rows : forall r, r < n ->
  (sum_over (seq 0 n) (fun k => Rabs (entry B r k)) <= beta)%R.

Let g (H : matrix R) : matrix R := fixed_point H A B cc.

Lemma g_shape (H : matrix R) : is_shape n n H -> is_shape n n (g H).
Proof. intros HH. now apply fixed_point_shape. Qed.

Lemma g_entry (H : matrix R) (i j : nat) :
  is_shape n n H -> i < n -> j < n ->
  entry (g H) i j = (entry H i j + residual A B cc H i j)%R.
Proof.
  intros HH Hi Hj. unfold g, residual.
  rewrite (@fixed_point_entry n A B cc) by assumption. lra.
Qed.

Lemma residual_rhs (H : matrix R) (i j : nat) :
  i < n -> j < n ->
  residual A B cc H i j =
    (entry H i j
     - entry (madd (madd cc (dot (dot A H) (transpose A)))
                   (dot (dot B H) (transpose B))) i j)%R.
Proof.
  intros Hi Hj. unfold residual.
  rewrite (@rhs_entry n A B cc) by assumption. lra.
Qed.

Lemma residual_diff_bound (eps : R) (X Y : matrix R) (i j : nat) :
  (forall k l, k < n -> l < n ->
     (Rabs (entry Y k l - entry X k l) <= eps)%R) ->
  (0 <= eps)%R ->
  is_shape n n X -> is_shape n n Y -> i < n -> j < n ->
  (Rabs (residual A B cc Y i j - residual A B cc X i j)
   <= (1 + alpha * alpha + beta * beta) * eps)%R.
Proof.
  intros Hd Heps HX HY Hi Hj. unfold residual.
  pose proof (@sandwich_bound n A A_shape alpha eps X Y i j A_rows Hd Heps
                HX HY Hi Hj) as Ha.
  pose proof (@sandwich_bound n B B_shape beta eps X Y i j B_rows Hd Heps
                HX HY Hi Hj) as Hb.
  specialize (Hd i j Hi Hj).
  set (sa := (entry (dot (dot A Y) (transpose A)) i j
              - entry (dot (dot A X) (transpose A)) i j)%R) in *.
  set (sb := (entry (dot (dot B Y) (transpose B)) i j
              - entry (dot (dot B X) (transpose B)) i j)%R) in *.
  set (dd := (entry Y i j - entry X i j)%R) in *.
  replace (entry Y i j - entry cc i j
           - entry (dot (dot A Y) (transpose A)) i j
           - entry (dot (dot B Y) (transpose B)) i j
           - (entry X i j - entry cc i j
              - entry (dot (dot A X) (transpose A)) i j
              - entry (dot (dot B X) (transpose B)) i j))%R
    with (dd - sa - sb)%R by (unfold dd, sa, sb; ring).
  unfold Rminus. 
  eapply Rle_trans; [apply Rabs_triang|].
  eapply Rle_trans; [apply Rplus_le_compat_r, Rabs_triang|].
  rewrite !Rabs_Ropp. lra.
Qed.

End Residual.

(** ** What the accelerated iteration returns *)

Lemma xtol_R : @xtol R _ = (/ 100000000)%R.
Proof. unfold xtol. simpl. lra. Qed.

Lemma converged_entry (n : nat) (H p0 : matrix R) (i j : nat) :
  is_shape n n H -> is_shape n n p0 -> converged H p0 = true ->
  i < n -> j < n ->
  (Rabs (relerr_entry (entry H i j, entry p0 i j)) < / 100000000)%R.
Proof.
  intros HH Hp Hc Hi Hj. unfold converged in Hc.
  assert (Hz : is_shape n n (mzip H p0))
    by (unfold mzip; now apply zip_with_shape_any).
  pose proof (@map_shape_any _ _ relerr_entry n n _ Hz) as Hm.
  set (Rel := map (map relerr_entry) (mzip H p0)) in *.
  rewrite forallb_forall in Hc.
  assert (Hrow : In (nth i Rel []) Rel)
    by (apply nth_In; destruct Hm; lia).
  specialize (Hc _ Hrow). rewrite forallb_forall in Hc.
  assert (Hin : In (nth j (nth i Rel []) 0%R) (nth i Rel []))
    by (apply nth_In; rewrite (shape_row Hm Hi); lia).
  specialize (Hc _ Hin). apply flt_R in Hc. rewrite xtol_R in Hc.
  unfold Rel in Hc.
  rewrite (@nth2_map _ _ relerr_entry n n _ i j (0, 0)%R) in Hc
    by assumption.
  unfold mzip in Hc.
  rewrite (@nth2_zip_with _ _ _ pair n n H p0 i j 0%R 0%R) in Hc
    by assumption.
  exact Hc.
Qed.

Lemma relerr_step (x p m : R) :
  (1 <= m)%R -> (Rabs p <= m)%R ->
  (Rabs (relerr_entry (x, p)) < / 100000000)%R ->
  (Rabs (x - p) <= / 100000000 * m)%R.
Proof.
  intros Hm Hp Hrel. unfold relerr_entry in Hrel.
  destruct (fneq p fzero) eqn:Hne.
  - apply fneq_R in Hne. change (@fzero R R_scalar) with 0%R in Hne.
    simpl in Hrel. unfold Rdiv in Hrel.
    rewrite Rabs_mult, Rabs_inv in Hrel.
    assert (Hpp : (0 < Rabs p)%R) by now apply Rabs_pos_lt.
    assert (Hlt : (Rabs (x - p) < / 100000000 * Rabs p)%R).
    { apply (Rmult_lt_compat_r (Rabs p)) in Hrel; [|assumption].
      rewrite Rmult_assoc, Rinv_l in Hrel by lra. lra. }
    assert (/ 100000000 * Rabs p <= / 100000000 * m)%R
      by (apply Rmult_le_compat_l; lra).
    lra.
  - assert (Hz : p = 0%R).
    { destruct (Req_dec p 0) as [Hz|Hz]; [assumption|].
      apply fneq_R in Hz. change (@fzero R R_scalar) with 0%R in Hne.
      congruence. }
    subst p. rewrite Rminus_0_r.
    assert (/ 100000000 * 1 <= / 100000000 * m)%R
      by (apply Rmult_le_compat_l; lra).
    lra.
Qed.

Lemma relerr_seed (x p h : R) :
  (Rabs x <= h)%R ->
  (Rabs (relerr_entry (x, p)) < / 100000000)%R ->
  (Rabs p <= Rmax 1 (h / (1 - / 100000000)))%R.
Proof.
  intros Hx Hrel. unfold relerr_entry in Hrel.
  destruct (fneq p fzero) eqn:Hne.
  - apply fneq_R in Hne. change (@fzero R R_scalar) with 0%R in Hne.
    simpl in Hrel. unfold Rdiv in Hrel.
    rewrite Rabs_mult, Rabs_inv in Hrel.
    assert (Hpp : (0 < Rabs p)%R) by now apply Rabs_pos_lt.
    assert (Hlt : (Rabs (x - p) < / 100000000 * Rabs p)%R).
    { apply (Rmult_lt_compat_r (Rabs p)) in Hrel; [|assumption].
      rewrite Rmult_assoc, Rinv_l in Hrel by lra. lra. }
    assert (Htri : (Rabs p - Rabs x <= Rabs (x - p))%R).
    { rewrite (Rabs_minus_sym x p). apply Rabs_triang_inv. }
    eapply Rle_trans; [|apply Rmax_r].
    apply (Rmult_le_reg_r (1 - / 100000000)); [lra|].
    unfold Rdiv. rewrite Rmult_assoc, Rinv_l by lra. lra.
  - assert (Hz : p = 0%R).
    { destruct (Req_dec p 0) as [Hz|Hz]; [assumption|].
      apply fneq_R in Hz. change (@fzero R R_scalar) with 0%R in Hne.
      congruence. }
    subst p. rewrite Rabs_R0.
    eapply Rle_trans; [|apply Rmax_l]. lra.
Qed.

Section Accelerated.

Variables (n : nat) (A B cc : matrix R).
Hypothesis A_shape : is_shape n n A.
Hypothesis B_shape : is_shape n n B.
Hypothesis cc_shape : is_shape n n cc.

Variables (alpha beta : R).
Hypothesis A_rows : forall r, r < n ->
  (sum_over (seq 0 n) (fun k => Rabs (entry A r k)) <= alpha)%R.
Hypothesis B_rows : forall r, r < n ->
  (sum_over (seq 0 n) (fun k => Rabs (entry B r k)) <= beta)%R.

Let g (H : matrix R) : matrix R := fixed_point H A B cc.
Let kappa : R := (1 + alpha * alpha + beta * beta)%R.

Lemma kappa_ge_1 : (1 <= kappa)%R.
Proof.
  unfold kappa. pose proof (Rle_0_sqr alpha). pose proof (Rle_0_sqr beta).
  unfold Rsqr in *. lra.
Qed.

(** An iterate that passes the test of the tolerance misses the equation
    by at most [2 xtol kappa m], where [m >= 1] bounds the entries of the
    iterate before it. *)
Lemma del2_residual (p0 : matrix R) (m : R) :
  is_shape n n p0 ->
  converged (del2_step g p0) p0 = true ->
  (1 <= m)%R ->
  (forall k l, k < n -> l < n -> (Rabs (entry p0 k l) <= m)%R) ->
  forall i j, i < n -> j < n ->
    (Rabs (residual A B cc (del2_step g p0) i j)
     <= 2 * / 100000000 * kappa * m)%R.
Proof.
  intros Hp Hconv Hm Hbound.
  assert (Hn : forall i j, i < n -> j < n -> 0 < n) by (intros; lia).
  assert (Hgs : forall X, is_shape n n X -> is_shape n n (g X))
    by (intros X HX; unfold g; now apply fixed_point_shape).
  set (H := del2_step g p0) in *.
  assert (HH : is_shape n n H) by (unfold H; now apply del2_step_shape).
  pose proof kappa_ge_1 as Hk.
  set (t := (/ 100000000 * m)%R).
  assert (Ht : (0 <= t)%R) by (unfold t; apply Rmult_le_pos; lra).
  (* the step from [p0] to [H] *)
  assert (Hdelta : forall k l, k < n -> l < n ->
            (Rabs (entry H k l - entry p0 k l) <= t)%R).
  { intros k l Hk' Hl. apply relerr_step; auto.
    now apply (@converged_entry n). }
  (* the residual at [p0] is the first move *)
  assert (Hp1 : forall k l, k < n -> l < n ->
            entry (g p0) k l
            = (entry p0 k l + residual A B cc p0 k l)%R).
  { intros k l Hk' Hl. unfold g, residual.
    rewrite (@fixed_point_entry n A B cc) by assumption. lra. }
  assert (Hp2 : forall k l, k < n -> l < n ->
            entry (g (g p0)) k l
            = (entry (g p0) k l + residual A B cc (g p0) k l)%R).
  { intros k l Hk' Hl. unfold g at 1. unfold residual.
    rewrite (@fixed_point_entry n A B cc) by auto. lra. }
  intros i j Hi Hj.
  destruct (@max_entry_exists n (fun k l => Rabs (residual A B cc p0 k l)))
    as [i0 [j0 [Hi0 [Hj0 Hmax]]]]; [lia|].
  set (E := Rabs (residual A B cc p0 i0 j0)) in *.
  assert (HE0 : (0 <= E)%R) by apply Rabs_pos.
  assert (Hmove : forall k l, k < n -> l < n ->
            (Rabs (entry (g p0) k l - entry p0 k l) <= E)%R).
  { intros k l Hk' Hl. rewrite Hp1 by assumption.
    replace (entry p0 k l + residual A B cc p0 k l - entry p0 k l)%R
      with (residual A B cc p0 k l) by ring.
    now apply Hmax. }
  assert (Hd : (Rabs (residual A B cc (g p0) i0 j0
                      - residual A B cc p0 i0 j0) <= kappa * E)%R).
  { unfold kappa.
    apply (@residual_diff_bound n A B cc A_shape B_shape alpha beta
             A_rows B_rows E p0 (g p0) i0 j0); auto. }
  (* the first move is small where it is largest *)
  assert (HE : (E <= kappa * t)%R).
  { pose proof (@del2_step_entry n g p0 i0 j0 Hgs Hp Hi0 Hj0) as Hent.
    fold H in Hent.
    rewrite (Hp2 i0 j0), (Hp1 i0 j0) in Hent by assumption.
    set (e := residual A B cc p0 i0 j0) in *.
    set (e1 := residual A B cc (g p0) i0 j0) in *.
    set (x := entry p0 i0 j0) in *.
    replace (x + e + e1 - 2 * (x + e) + x)%R with (e1 - e)%R in Hent by ring.
    specialize (Hdelta i0 j0 Hi0 Hj0). fold x in Hdelta.
    unfold del2_entry in Hent.
    destruct (fneq (e1 - e)%R fzero) eqn:Hne.
    - apply fneq_R in Hne. change (@fzero R R_scalar) with 0%R in Hne.
      simpl in Hent.
      replace (x + e - x)%R with e in Hent by ring.
      assert (Hprod : (E * E = Rabs (entry H i0 j0 - x) * Rabs (e1 - e))%R).
      { rewrite Hent. rewrite <- Rabs_mult. unfold E.
        replace ((x - e * e / (e1 - e) - x) * (e1 - e))%R
          with (- (e * e))%R by (field; assumption).
        now rewrite Rabs_Ropp, Rabs_mult. }
      destruct (Req_dec E 0) as [HEz|HEnz].
      + rewrite HEz. apply Rmult_le_pos; lra.
      + assert (HEpos : (0 < E)%R) by lra.
        assert (Hle : (E * E <= t * (kappa * E))%R).
        { rewrite Hprod. apply Rmult_le_compat; auto using Rabs_pos. }
        apply (Rmult_le_reg_r E); [assumption|].
        replace (kappa * t * E)%R with (t * (kappa * E))%R by ring.
        exact Hle.
    - assert (Hz : (e1 - e = 0)%R).
      { destruct (Req_dec (e1 - e) 0) as [Hz|Hz]; [assumption|].
        apply fneq_R in Hz. change (@fzero R R_scalar) with 0%R in Hne.
        congruence. }
      assert (He1 : e1 = e) by lra. rewrite He1 in Hent.
      rewrite Hent in Hdelta.
      replace (x + e + e - x)%R with (2 * e)%R in Hdelta by ring.
      rewrite Rabs_mult, (Rabs_pos_eq 2) in Hdelta by lra.
      fold E in Hdelta.
      assert (t <= kappa * t)%R.
      { replace t with (1 * t)%R at 1 by ring.
        apply Rmult_le_compat_r; assumption. }
      lra. }
  (* the residual at [H] *)
  assert (Hres : (Rabs (residual A B cc H i j - residual A B cc p0 i j)
                  <= kappa * t)%R).
  { unfold kappa.
    apply (@residual_diff_bound n A B cc A_shape B_shape alpha beta
             A_rows B_rows t p0 H i j); auto. }
  specialize (Hmax i j Hi Hj). cbv beta in Hmax.
  replace (residual A B cc H i j)
    with (residual A B cc p0 i j
          + (residual A B cc H i j - residual A B cc p0 i j))%R by ring.
  eapply Rle_trans; [apply Rabs_triang|].
  replace (2 * / 100000000 * kappa * m)%R with (kappa * t + kappa * t)%R
    by (unfold t; ring).
  fold E in Hmax. lra.
Qed.

End Accelerated.

(** ** The loop and its iterates *)

Section Loop.

Context {F : Type} `{Scalar F}.
Variable func : matrix F -> matrix F.

Lemma del2_iterate_S (p : matrix F) (t : nat) :
  del2_iterate func p (S t) = del2_step func (del2_iterate func p t).
Proof.
  revert p; induction t as [|t IH]; intros p; [reflexivity|].
  change (del2_iterate func p (S (S t)))
    with (del2_iterate func (del2_step func p) (S t)).
  rewrite IH. reflexivity.
Qed.

(** The loop raises nothing but the [RuntimeError] of its last line,
    which it raises when no pass meets the tolerance. *)
Lemma helper_fails (k : nat) :
  forall p e, fixed_point_helper func p k = Raise e ->
    e = RuntimeError
    /\ forall t, t < k ->
         converged (del2_iterate func p (S t)) (del2_iterate func p t)
         = false.
Proof.
  induction k as [|k IH]; intros p e He.
  - simpl in He. injection He as <-. split; [reflexivity|]. intros t Ht. lia.
  - rewrite fixed_point_helper_S in He.
    destruct (converged (del2_step func p) p) eqn:Hc; [discriminate|].
    destruct (IH _ _ He) as [-> Hall]. split; [reflexivity|].
    intros [|t] Ht; [exact Hc|]. apply (Hall t). lia.
Qed.

(** What the loop returns is the first iterate that meets the
    tolerance. *)
Lemma helper_returns (k : nat) :
  forall p H0, fixed_point_helper func p k = Return H0 ->
    exists t, t < k
      /\ H0 = del2_iterate func p (S t)
      /\ converged H0 (del2_iterate func p t) = true
      /\ forall t', t' < t ->
           converged (del2_iterate func p (S t')) (del2_iterate func p t')
           = false.
Proof.
  induction k as [|k IH]; intros p H0 Hret; [discriminate|].
  rewrite fixed_point_helper_S in Hret.
  destruct (converged (del2_step func p) p) eqn:Hc.
  - injection Hret as <-. exists 0. split; [lia|]. split; [reflexivity|].
    split; [exact Hc|]. intros t' Ht'. lia.
  - destruct (IH _ _ Hret) as [t [Ht [HH [Hconv Hbefore]]]].
    exists (S t). split; [lia|]. split; [exact HH|]. split; [exact Hconv|].
    intros [|t'] Ht'; [exact Hc|]. apply (Hbefore t'). lia.
Qed.

Lemma helper_total (k : nat) :
  forall p,
    (exists H0, fixed_point_helper func p k = Return H0)
    \/ fixed_point_helper func p k = Raise RuntimeError.
Proof.
  intros p. destruct (fixed_point_helper func p k) as [H0|e] eqn:He.
  - left. now exists H0.
  - right. now destruct (helper_fails _ _ He) as [-> _].
Qed.

Lemma helper_fails_when (k : nat) :
  forall p,
    (forall t, t < k ->
       converged (del2_iterate func p (S t)) (del2_iterate func p t)
       = false) ->
    fixed_point_helper func p k = Raise RuntimeError.
Proof.
  intros p Hall. destruct (helper_total k p) as [[H0 Hret]|He]; [|exact He].
  destruct (helper_returns _ _ Hret) as [t [Ht [-> [Hconv _]]]].
  rewrite (Hall t Ht) in Hconv. discriminate.
Qed.

Lemma helper_returns_when (k : nat) :
  forall p t, t < k ->
    converged (del2_iterate func p (S t)) (del2_iterate func p t) = true ->
    (forall t', t' < t ->
       converged (del2_iterate func p (S t')) (del2_iterate func p t')
       = false) ->
    fixed_point_helper func p k = Return (del2_iterate func p (S t)).
Proof.
  induction k as [|k IH]; intros p t Ht Hconv Hbefore; [lia|].
  rewrite fixed_point_helper_S. destruct t as [|t].
  - change (del2_iterate func p 1) with (del2_step func p) in *.
    change (del2_iterate func p 0) with p in Hconv. now rewrite Hconv.
  - pose proof (Hbefore 0 ltac:(lia)) as Hfirst.
    cbn [del2_iterate] in Hfirst. rewrite Hfirst.
    apply (IH (del2_step func p) t); [lia | exact Hconv |].
    intros t' Ht'. apply (Hbefore (S t')). lia.
Qed.

End Loop.

(** ** [find_stationary_var] with the solver of scipy *)

Lemma del2_iterate_shape (n : nat) (func : matrix R -> matrix R)
    (p : matrix R) (t : nat) :
  (forall H, is_shape n n H -> is_shape n n (func H)) ->
  is_shape n n p -> is_shape n n (del2_iterate func p t).
Proof.
  intros Hf. revert p. induction t as [|t IH]; intros p Hp; [exact Hp|].
  cbn [del2_iterate]. apply IH. now apply del2_step_shape.
Qed.

(** [scipy.optimize.fixed_point] validates its seed, here the identity
    matrix, and then runs the loop; [find_stationary_var] catches the
    [RuntimeError] of the loop. *)
Lemma find_stationary_var_scipy {F : Type} `{Scalar F} (A B C : matrix F) :
  forallb (forallb isfinite) (eye (nrows A)) = true ->
  find_stationary_var (S := scipy_solver) A B C =
    match fixed_point_helper
            (fun uvar => fixed_point uvar A B (dot C (transpose C)))
            (eye (nrows A)) 500 with
    | Return h => Return (Some h)
    | Raise RuntimeError => Return None
    | Raise e => Raise e
    end.
Proof.
  intros Hfin. unfold find_stationary_var.
  cbn [sco_fixed_point scipy_solver]. unfold scipy_fixed_point.
  now rewrite Hfin.
Qed.

(** The identity matrix of binary64 values passes the validation. *)
Lemma eye_finite_float (n : nat) :
  forallb (forallb isfinite) (eye (F := float) n) = true.
Proof.
  unfold eye. apply forallb_forall. intros row Hrow.
  apply in_map_iff in Hrow as [i [<- _]].
  apply forallb_forall. intros x Hx.
  apply in_map_iff in Hx as [j [<- _]].
  destruct (Nat.eqb i j); reflexivity.
Qed.

(** C6: [find_stationary_var] runs the accelerated iteration of
    [scipy.optimize.fixed_point] on the map
    [H |-> 2H - CC' - A H A' - B H B'] from the identity matrix, for at
    most 500 passes.  In any arithmetic in which the identity matrix is
    finite, binary64 among them: [None] is returned exactly when no pass
    meets the tolerance, a matrix is returned exactly when it is the
    first iterate that meets it, and nothing is raised.  In exact
    arithmetic: the fixed points of the map are the solutions of
    [H = CC' + A H A' + B H B'], and a matrix that is returned misses the
    equation by at most
    [2 xtol (1 + alpha^2 + beta^2) max(1, h / (1 - xtol))] in every entry,
    where [alpha] and [beta] bound the sums of the magnitudes along the
    rows of [A] and [B] and [h] the magnitudes of its entries. *)
Theorem stationary_var_fixed_point :
  (forall (F : Type) (SF : Scalar F) (A B C : matrix F),
     let cc := dot C (transpose C) in
     let g := fun uvar => fixed_point uvar A B cc in
     let iterate := del2_iterate g (eye (nrows A)) in
     let result := find_stationary_var (S := scipy_solver) A B C in
     forallb (forallb isfinite) (eye (nrows A)) = true ->
     (result = Return None
      <-> forall t, t < 500 ->
            converged (iterate (S t)) (iterate t) = false)
     /\ (forall H, result = Return (Some H)
         <-> exists t, t < 500
               /\ H = iterate (S t)
               /\ converged H (iterate t) = true
               /\ forall t', t' < t ->
                    converged (iterate (S t')) (iterate t') = false)
     /\ forall e, result <> Raise e)
  /\ (forall n : nat, forallb (forallb isfinite) (eye (F := float) n) = true)
  /\ (forall (n : nat) (A B C : matrix R),
        is_shape n n A -> is_shape n n B -> is_shape n n C ->
        let cc := dot C (transpose C) in
        let g := fun uvar => fixed_point uvar A B cc in
        let rhs := fun H =>
          madd (madd cc (dot (dot A H) (transpose A)))
               (dot (dot B H) (transpose B)) in
        let result := find_stationary_var (S := scipy_solver) A B C in
        (forall H, is_shape n n H -> (g H = H <-> H = rhs H))
        /\ forall H, result = Return (Some H) ->
             is_shape n n H
             /\ forall alpha beta h : R,
                  (forall r, r < n ->
                     (sum_over (seq 0 n) (fun k => Rabs (entry A r k))
                      <= alpha)%R) ->
                  (forall r, r < n ->
                     (sum_over (seq 0 n) (fun k => Rabs (entry B r k))
                      <= beta)%R) ->
                  (forall k l, k < n -> l < n ->
                     (Rabs (entry H k l) <= h)%R) ->
                  forall i j, i < n -> j < n ->
                    (Rabs (entry H i j - entry (rhs H) i j)
                     <= 2 * xtol * (1 + alpha * alpha + beta * beta)
                        * Rmax 1 (h / (1 - xtol)))%R).
Proof.
  assert (Hany : forall (F : Type) (SF : Scalar F) (A B C : matrix F),
     let cc := dot C (transpose C) in
     let g := fun uvar => fixed_point uvar A B cc in
     let iterate := del2_iterate g (eye (nrows A)) in
     let result := find_stationary_var (S := scipy_solver) A B C in
     forallb (forallb isfinite) (eye (nrows A)) = true ->
     (result = Return None
      <-> forall t, t < 500 ->
            converged (iterate (S t)) (iterate t) = false)
     /\ (forall H, result = Return (Some H)
         <-> exists t, t < 500
               /\ H = iterate (S t)
               /\ converged H (iterate t) = true
               /\ forall t', t' < t ->
                    converged (iterate (S t')) (iterate t') = false)
     /\ forall e, result <> Raise e).
  { intros F SF A B C cc g iterate result Hfin.
    assert (Hdef : result =
              match fixed_point_helper g (eye (nrows A)) 500 with
              | Return h => Return (Some h)
              | Raise RuntimeError => Return None
              | Raise e => Raise e
              end)
      by (unfold result; now apply find_stationary_var_scipy).
    split; [|split].
    - rewrite Hdef. split.
      + intros Hnone.
        destruct (fixed_point_helper g (eye (nrows A)) 500) as [h|e] eqn:Hh;
          [discriminate|].
        exact (proj2 (helper_fails _ _ _ Hh)).
      + intros Hall.
        now rewrite (@helper_fails_when F _ g 500 (eye (nrows A))).
    - intros H. rewrite Hdef. split.
      + intros Hret.
        destruct (fixed_point_helper g (eye (nrows A)) 500) as [h|e] eqn:Hh.
        * injection Hret as <-. exact (helper_returns _ _ _ Hh).
        * destruct (helper_fails _ _ _ Hh) as [-> _]. discriminate.
      + intros [t [Ht [-> [Hconv Hbefore]]]]. unfold iterate.
        now rewrite (@helper_returns_when F _ g 500 (eye (nrows A)) t).
    - intros e He. rewrite Hdef in He.
      destruct (helper_total g 500 (eye (nrows A))) as [[H0 Hr]|Hr];
        rewrite Hr in He; discriminate. }
  split; [exact Hany|]. split; [exact eye_finite_float|].
  intros n A B C HA HB HC cc g rhs result.
  assert (Hcc : is_shape n n cc) by now apply gram_shape.
  assert (Hgs : forall X, is_shape n n X -> is_shape n n (g X))
    by (intros X HX; unfold g; now apply fixed_point_shape).
  assert (Hn : nrows A = n) by apply HA.
  assert (Hit : forall t, is_shape n n (del2_iterate g (eye n) t))
    by (intros t; apply del2_iterate_shape; auto using eye_shape).
  split.
  - intros H HH. apply (@fixed_point_iff n A B cc); assumption.
  - intros H Hret.
    destruct (Hany R _ A B C (all_finite_R _)) as [_ [Hsome _]].
    apply Hsome in Hret. rewrite Hn in Hret.
    destruct Hret as [t [Ht [HH [Hconv _]]]].
    fold cc in HH, Hconv. fold g in HH, Hconv.
    rewrite del2_iterate_S in HH.
    split; [rewrite HH; apply del2_step_shape; auto|].
    intros alpha beta h Ha Hb Hh i j Hi Hj.
    rewrite xtol_R.
    assert (HHs : is_shape n n H)
      by (rewrite HH; apply del2_step_shape; auto).
    assert (Hseed : forall k l, k < n -> l < n ->
              (Rabs (entry (del2_iterate g (eye n) t) k l)
               <= Rmax 1 (h / (1 - / 100000000)))%R).
    { intros k l Hk Hl. apply (@relerr_seed (entry H k l)); auto.
      now apply (@converged_entry n). }
    unfold rhs.
    rewrite <- (@residual_rhs n A B cc HA HB Hcc H i j Hi Hj).
    rewrite HH in Hconv |- *.
    apply (@del2_residual n A B cc HA HB Hcc alpha beta Ha Hb
             (del2_iterate g (eye n) t));
      auto using Rmax_l.
Qed.

(** In binary64, one series with [A = B = 1/2] and [C = 2^600], where
    [CC'] overflows and no pass meets the tolerance; in exact
    arithmetic, one series with [A = B = 1/2] and [C = 1]. *)
Lemma stationary_var_fixed_point_witness :
  (find_stationary_var (S := scipy_solver)
     [[0.5]]%float [[0.5]]%float [[0x1p+600]]%float = Return None
   /\ forall e,
        find_stationary_var (S := scipy_solver)
          [[0.5]]%float [[0.5]]%float [[0x1p+600]]%float <> Raise e)
  /\ (let n := 1 in
      let A := [[/ 2]]%R in
      let B := [[/ 2]]%R in
      let C := [[1]]%R in
      let cc := dot C (transpose C) in
      let g := fun uvar => fixed_point uvar A B cc in
      let rhs := fun H =>
        madd (madd cc (dot (dot A H) (transpose A)))
             (dot (dot B H) (transpose B)) in
      let result := find_stationary_var (S := scipy_solver) A B C in
      (forall H, is_shape n n H -> (g H = H <-> H = rhs H))
      /\ forall H, result = Return (Some H) ->
           is_shape n n H
           /\ forall alpha beta h : R,
                (forall r, r < n ->
                   (sum_over (seq 0 n) (fun k => Rabs (entry A r k))
                    <= alpha)%R) ->
                (forall r, r < n ->
                   (sum_over (seq 0 n) (fun k => Rabs (entry B r k))
                    <= beta)%R) ->
                (forall k l, k < n -> l < n ->
                   (Rabs (entry H k l) <= h)%R) ->
                forall i j, i < n -> j < n ->
                  (Rabs (entry H i j - entry (rhs H) i j)
                   <= 2 * xtol * (1 + alpha * alpha + beta * beta)
                      * Rmax 1 (h / (1 - xtol)))%R).
Proof.
  destruct stationary_var_fixed_point as [Hany [Hfin Hexact]]. split.
  - destruct (Hany float _ [[0.5]]%float [[0.5]]%float [[0x1p+600]]%float
                (Hfin 1)) as [_ [_ Hraise]].
    split; [vm_compute; reflexivity | exact Hraise].
  - apply (Hexact 1 [[/ 2]]%R [[/ 2]]%R [[1]]%R); apply shape_1.
Defined.

(** In exact arithmetic on that input the first pass lands on the
    solution, [2], and the second pass returns it. *)
Example stationary_var_found :
  find_stationary_var (S := scipy_solver) [[/ 2]]%R [[/ 2]]%R [[1]]%R
  = Return (Some [[2]]%R).
Proof.
  assert (Hhalf : [[/ 2]]%R = mscale (eye 1) (/ 2)%R).
  { cbv [mscale eye seq map Nat.eqb fone of_Z fmul R_scalar].
    repeat f_equal. lra. }
  rewrite Hhalf. unfold find_stationary_var.
  cbn [sco_fixed_point scipy_solver].
  replace (nrows (mscale (eye 1) (/ 2)%R)) with 1 by reflexivity.
  rewrite scipy_fixed_point_scalar;
    [| apply gram_shape, shape_1 | apply eye_shape | lra].
  do 2 f_equal.
  cbv [sdiv dot transpose map vdot vsum zip_with fold_left ncols hd length
       seq nth fzero of_Z fadd fmul fdiv R_scalar].
  repeat f_equal. field.
Qed.

(** ** Magnitudes and maxima *)

Lemma cabs_R (x y : R) : cabs (x, y) = R_sqrt.sqrt (x * x + y * y).
Proof. reflexivity. Qed.

Lemma cabs_nonneg (z : R * R) : (0 <= cabs z)%R.
Proof. destruct z. rewrite cabs_R. apply sqrt_pos. Qed.

Lemma cabs_triangle (x1 y1 x2 y2 : R) :
  (cabs ((x1 + x2)%R, (y1 + y2)%R) <= cabs (x1, y1) + cabs (x2, y2))%R.
Proof.
  rewrite !cabs_R.
  set (a := (x1 * x1 + y1 * y1)%R). set (b := (x2 * x2 + y2 * y2)%R).
  assert (Ha : (0 <= a)%R).
  { pose proof (Rle_0_sqr x1) as H1. pose proof (Rle_0_sqr y1) as H2.
    unfold Rsqr, a in *. lra. }
  assert (Hb : (0 <= b)%R).
  { pose proof (Rle_0_sqr x2) as H1. pose proof (Rle_0_sqr y2) as H2.
    unfold Rsqr, b in *. lra. }
  pose proof (sqrt_pos a) as Hsa. pose proof (sqrt_pos b) as Hsb.
  pose proof (sqrt_sqrt a Ha) as Hqa. pose proof (sqrt_sqrt b Hb) as Hqb.
  set (sa := R_sqrt.sqrt a) in *. set (sb := R_sqrt.sqrt b) in *.
  (* Cauchy-Schwarz *)
  assert (Hcs : (x1 * x2 + y1 * y2 <= sa * sb)%R).
  { destruct (Rle_dec (x1 * x2 + y1 * y2) 0) as [Hneg|Hpos].
    - assert (0 <= sa * sb)%R by (apply Rmult_le_pos; assumption). lra.
    - apply Rsqr_incr_0_var; [|apply Rmult_le_pos; assumption].
      unfold Rsqr.
      replace (sa * sb * (sa * sb))%R with ((sa * sa) * (sb * sb))%R by ring.
      rewrite Hqa, Hqb. unfold a, b.
      pose proof (Rle_0_sqr (x1 * y2 - y1 * x2)) as Hsq. unfold Rsqr in Hsq.
      replace ((x1 * x1 + y1 * y1) * (x2 * x2 + y2 * y2))%R
        with ((x1 * x2 + y1 * y2) * (x1 * x2 + y1 * y2)
              + (x1 * y2 - y1 * x2) * (x1 * y2 - y1 * x2))%R by ring.
      lra. }
  apply Rsqr_incr_0_var; [|lra].
  unfold Rsqr.
  assert (Hc : (0 <= (x1 + x2) * (x1 + x2) + (y1 + y2) * (y1 + y2))%R).
  { pose proof (Rle_0_sqr (x1 + x2)) as H1.
    pose proof (Rle_0_sqr (y1 + y2)) as H2. unfold Rsqr in *. lra. }
  rewrite (sqrt_sqrt _ Hc).
  replace ((sa + sb) * (sa + sb))%R
    with (sa * sa + 2 * (sa * sb) + sb * sb)%R by ring.
  rewrite Hqa, Hqb. unfold a, b.
  replace ((x1 + x2) * (x1 + x2) + (y1 + y2) * (y1 + y2))%R
    with (x1 * x1 + y1 * y1 + 2 * (x1 * x2 + y1 * y2)
          + (x2 * x2 + y2 * y2))%R by ring.
  lra.
Qed.

Lemma cabs_opp (x y : R) : cabs ((- x)%R, (- y)%R) = cabs (x, y).
Proof. rewrite !cabs_R. f_equal. ring. Qed.

Lemma cabs_lipschitz (z w : R * R) :
  (Rabs (cabs z - cabs w) <= cdist z w)%R.
Proof.
  destruct z as [x y], w as [u v]. unfold cdist. cbn [fst snd].
  apply Rabs_le. split.
  - pose proof (cabs_triangle (u - x) (v - y) x y) as Ht.
    replace (u - x + x)%R with u in Ht by ring.
    replace (v - y + y)%R with v in Ht by ring.
    rewrite <- (cabs_opp (u - x) (v - y)) in Ht.
    replace (- (u - x))%R with (x - u)%R in Ht by ring.
    replace (- (v - y))%R with (y - v)%R in Ht by ring. lra.
  - pose proof (cabs_triangle (x - u) (y - v) u v) as Ht.
    replace (x - u + u)%R with x in Ht by ring.
    replace (y - v + v)%R with y in Ht by ring. lra.
Qed.

Lemma Rabs_le_bounds (a b : R) : (Rabs a <= b)%R -> (- b <= a <= b)%R.
Proof. unfold Rabs. destruct (Rcase_abs a); lra. Qed.

Lemma Rmax_lipschitz (a b a' b' delta : R) :
  (Rabs (a' - a) <= delta)%R -> (Rabs (b' - b) <= delta)%R ->
  (Rabs (Rmax a' b' - Rmax a b) <= delta)%R.
Proof.
  intros Ha Hb. apply Rabs_le_bounds in Ha, Hb. apply Rabs_le.
  unfold Rmax. destruct (Rle_dec a' b'), (Rle_dec a b); lra.
Qed.

Lemma fold_maximum_lipschitz (delta : R) :
  forall (rest rest' : list R) (x x' : R),
    length rest' = length rest ->
    (Rabs (x' - x) <= delta)%R ->
    (forall i, i < length rest ->
       (Rabs (nth i rest' 0 - nth i rest 0) <= delta)%R) ->
    (Rabs (fold_left np_maximum rest' x' - fold_left np_maximum rest x)
     <= delta)%R.
Proof.
  induction rest as [|y rest IH]; intros [|y' rest'] x x' Hlen Hx Hall;
    try discriminate; [exact Hx|].
  cbn [fold_left]. apply IH.
  - simpl in Hlen. lia.
  - rewrite !np_maximum_Rmax. apply Rmax_lipschitz; [exact Hx|].
    apply (Hall 0). simpl. lia.
  - intros i Hi. apply (Hall (S i)). simpl. lia.
Qed.

(** ** The eigenvalues of a diagonal matrix *)

Lemma nonzero_entry (m : nat) :
  forall v : vec R, length v = m -> v <> repeat 0%R m ->
    exists p, p < m /\ nth p v 0%R <> 0%R.
Proof.
  induction m as [|m IH]; intros v Hlen Hne.
  - destruct v; [now contradiction Hne | discriminate].
  - destruct v as [|x v]; [discriminate|].
    destruct (Req_dec x 0) as [->|Hx].
    + destruct (IH v) as [p [Hp Hnz]].
      * simpl in Hlen. lia.
      * intros Heq. apply Hne. simpl. now rewrite Heq.
      * exists (S p). split; [lia | exact Hnz].
    + exists 0. split; [lia | exact Hx].
Qed.

Lemma mat_vec_diagonal (m : nat) (K : matrix R) (v : vec R) (p : nat) :
  is_shape m m K -> is_diagonal m K -> p < m ->
  nth p (mat_vec K v) 0%R = (entry K p p * nth p v 0)%R.
Proof.
  intros HK Hd Hp. rewrite nth_mat_vec, vdot_sum_over.
  rewrite (@shape_row R m m K p HK Hp).
  rewrite (@sum_over_ext _ _
             (fun k => if Nat.eqb p k
                       then (entry K p k * nth k v 0)%R else 0%R)).
  - now rewrite sum_over_delta.
  - intros k Hk. apply in_seq in Hk. rewrite <- entry_nth.
    destruct (Nat.eqb_spec p k) as [->|Hne]; [reflexivity|].
    rewrite (Hd p k) by lia. ring.
Qed.

Lemma diag_square (m : nat) (K : matrix R) :
  is_shape m m K -> diag K = map (fun i => entry K i i) (seq 0 m).
Proof.
  intros HK. unfold diag. destruct m as [|m].
  - destruct HK as [Hlen _]. destruct K; [reflexivity | discriminate].
  - rewrite (ncols_of_shape HK) by lia.
    replace (nrows K) with (S m) by (symmetry; apply HK).
    now rewrite Nat.min_id.
Qed.

(** On a diagonal matrix the diagonal entries are the eigenvalues, which
    is what [scipy.linalg.eigvals] returns for it. *)
Lemma diagonal_eigvals (m : nat) (K : matrix R) :
  is_shape m m K -> is_diagonal m K ->
  eigvals_of m K (map (fun d => (d, 0%R)) (diag K)).
Proof.
  intros HK Hd. rewrite (diag_square HK). split.
  - now rewrite !length_map, length_seq.
  - intros [x y]. rewrite map_map. split.
    + intros Hin. apply in_map_iff in Hin as [i [Hz Hi]].
      apply in_seq in Hi. injection Hz as <- <-.
      exists (map (fun k => if Nat.eqb i k then 1%R else 0%R) (seq 0 m)),
             (repeat 0%R m).
      assert (Hunit : forall p, p < m ->
                nth p (map (fun k => if Nat.eqb i k then 1%R else 0%R)
                           (seq 0 m)) 0%R
                = if Nat.eqb i p then 1%R else 0%R).
      { intros p Hp.
        exact (@nth_map_seq _ (fun k => if Nat.eqb i k then 1%R else 0%R)
                 m p 0%R Hp). }
      split; [now rewrite length_map, length_seq|].
      split; [apply repeat_length|]. split; [|split].
      * left. intros Heq.
        assert (Hnth : nth i (map (fun k => if Nat.eqb i k then 1%R else 0%R)
                                  (seq 0 m)) 0%R = nth i (repeat 0%R m) 0%R)
          by now rewrite Heq.
        rewrite Hunit, Nat.eqb_refl, nth_repeat in Hnth by lia. lra.
      * intros p Hp. cbn [fst snd].
        rewrite (mat_vec_diagonal _ HK Hd Hp), Hunit, nth_repeat by assumption.
        destruct (Nat.eqb_spec i p) as [->|Hne]; ring.
      * intros p Hp. cbn [fst snd].
        rewrite (mat_vec_diagonal _ HK Hd Hp), Hunit, nth_repeat by assumption.
        ring.
    + intros [re [im [Hre [Him [Hnz [H1 H2]]]]]]. cbn [fst snd] in H1, H2.
      assert (Hp : exists p, p < m
                /\ (nth p re 0 * nth p re 0 + nth p im 0 * nth p im 0 <> 0)%R).
      { destruct Hnz as [Hnz|Hnz].
        - destruct (nonzero_entry Hre Hnz) as [p [Hp Hx]].
          exists p. split; [exact Hp|].
          pose proof (Rsqr_pos_lt _ Hx) as Hpos.
          pose proof (Rle_0_sqr (nth p im 0%R)) as Hnn.
          unfold Rsqr in *. lra.
        - destruct (nonzero_entry Him Hnz) as [p [Hp Hx]].
          exists p. split; [exact Hp|].
          pose proof (Rsqr_pos_lt _ Hx) as Hpos.
          pose proof (Rle_0_sqr (nth p re 0%R)) as Hnn.
          unfold Rsqr in *. lra. }
      destruct Hp as [p [Hp Hnorm]].
      specialize (H1 p Hp). specialize (H2 p Hp).
      rewrite (mat_vec_diagonal re HK Hd Hp) in H1.
      rewrite (mat_vec_diagonal im HK Hd Hp) in H2.
      set (r := nth p re 0%R) in *. set (s := nth p im 0%R) in *.
      set (d := entry K p p) in *.
      assert (Hc : ((d - x) * (r * r + s * s) = 0)%R).
      { replace ((d - x) * (r * r + s * s))%R
          with ((d * r - (x * r - y * s)) * r
                + (d * s - (y * r + x * s)) * s)%R by ring.
        rewrite H1, H2. ring. }
      assert (Hy : (y * (r * r + s * s) = 0)%R).
      { replace (y * (r * r + s * s))%R
          with ((d * r - (x * r - y * s)) * s
                - (d * s - (y * r + x * s)) * r)%R by ring.
        rewrite H1, H2. ring. }
      apply Rmult_integral in Hc, Hy.
      destruct Hc as [Hc|Hc]; [|contradiction].
      destruct Hy as [Hy|Hy]; [|contradiction].
      apply in_map_iff. exists p. split; [|apply in_seq; lia].
      fold d. f_equal; lra.
Qed.

Lemma kron_sum_diagonal (n : nat) (A B : matrix R) :
  is_shape n n A -> is_shape n n B ->
  is_diagonal n A -> is_diagonal n B ->
  is_diagonal (n * n) (kron_sum A B).
Proof.
  intros HA HB HdA HdB p q Hp Hq Hne.
  assert (Hn : 0 < n) by (destruct n; lia).
  assert (Hpi : p / n < n) by (apply Nat.Div0.div_lt_upper_bound; lia).
  assert (Hqi : q / n < n) by (apply Nat.Div0.div_lt_upper_bound; lia).
  assert (Hpk : p mod n < n) by (apply Nat.mod_upper_bound; lia).
  assert (Hqk : q mod n < n) by (apply Nat.mod_upper_bound; lia).
  assert (Hpe : p = p / n * n + p mod n)
    by (rewrite (Nat.div_mod_eq p n) at 1; lia).
  assert (Hqe : q = q / n * n + q mod n)
    by (rewrite (Nat.div_mod_eq q n) at 1; lia).
  pose proof (@kron_shape R _ n n n n _ _ HA HA) as HkA.
  pose proof (@kron_shape R _ n n n n _ _ HB HB) as HkB.
  unfold kron_sum, madd.
  rewrite (@entry_zip_with R _ _ (n * n) (n * n)) by assumption.
  rewrite Hpe, Hqe. rewrite !(@kron_entry R _ n n n n) by assumption.
  destruct (Nat.eq_dec (p / n) (q / n)) as [Hi|Hi].
  - assert (Hk : p mod n <> q mod n) by (intros Hk; apply Hne; lia).
    rewrite (HdA (p mod n) (q mod n)), (HdB (p mod n) (q mod n))
      by assumption.
    simpl. ring.
  - rewrite (HdA (p / n) (q / n)), (HdB (p / n) (q / n)) by assumption.
    simpl. ring.
Qed.

(** ** The stationarity constraint *)

(** C4: [constraint] forms [K = A (x) A + B (x) B] and returns the
    largest of the magnitudes of the values that [scipy.linalg.eigvals]
    returns for [K], in any arithmetic.  In exact arithmetic, when these
    values are the eigenvalues of [K], this is the spectral radius of
    [K]: the score is the magnitude of an eigenvalue of [K] and no
    eigenvalue of [K] has a larger one, so that the score is below 1
    exactly when every eigenvalue has magnitude below 1.  The score is
    the magnitude itself and not a truth value: it moves by at most
    [delta] when the eigenvalues move by at most [delta]. *)
Theorem constraint_spectral_radius :
  (forall (F : Type) (SF : Scalar F) (E : Eigvals F) (n : nat)
          (p : ParamGeneric F),
     is_shape n n (amat p) -> is_shape n n (bmat p) ->
     let K := kron_sum (amat p) (bmat p) in
     is_shape (n * n) (n * n) K
     /\ (forall i j k l, i < n -> j < n -> k < n -> l < n ->
          entry K (i * n + k) (j * n + l) =
            fadd (fmul (entry (amat p) i j) (entry (amat p) k l))
                 (fmul (entry (bmat p) i j) (entry (bmat p) k l)))
     /\ (forall eigs, sl_eigvals K = Return eigs ->
           constraint p = amax (map cabs eigs))
     /\ (forall e, sl_eigvals K = Raise e -> constraint p = Raise e))
  /\ (forall (E : Eigvals R) (n : nat) (p : ParamGeneric R)
             (eigs : list (R * R)),
        0 < n -> is_shape n n (amat p) -> is_shape n n (bmat p) ->
        let K := kron_sum (amat p) (bmat p) in
        sl_eigvals K = Return eigs ->
        eigvals_of (n * n) K eigs ->
        exists score,
          constraint p = Return score
          /\ (exists z, is_eigenvalue (n * n) K z /\ cabs z = score)
          /\ (forall z, is_eigenvalue (n * n) K z -> (cabs z <= score)%R)
          /\ ((score < 1)%R
              <-> forall z, is_eigenvalue (n * n) K z -> (cabs z < 1)%R)
          /\ (forall (eigs' : list (R * R)) (score' delta : R),
                length eigs' = length eigs ->
                (forall i, i < length eigs ->
                   (cdist (nth i eigs' (0, 0)%R) (nth i eigs (0, 0)%R)
                    <= delta)%R) ->
                amax (map cabs eigs') = Return score' ->
                (Rabs (score' - score) <= delta)%R)).
Proof.
  split.
  { intros F SF E n p HA HB K.
    assert (HKA : is_shape (n * n) (n * n) (kron (amat p) (amat p)))
      by now apply kron_shape.
    assert (HKB : is_shape (n * n) (n * n) (kron (bmat p) (bmat p)))
      by now apply kron_shape.
    split; [now apply zip_with_shape|]. split; [|split].
    - intros i j k l Hi Hj Hk Hl. unfold K, kron_sum, madd.
      rewrite (@entry_zip_with F _ _ (n * n) (n * n)); auto; try nia.
      now rewrite !(@kron_entry F _ n n n n).
    - intros eigs Heigs. unfold constraint.
      fold (kron_sum (amat p) (bmat p)). fold K. now rewrite Heigs.
    - intros e He. unfold constraint.
      fold (kron_sum (amat p) (bmat p)). fold K. now rewrite He. }
  intros E n p eigs Hn HA HB K Heigs [Hlen Hspec].
  destruct eigs as [|z0 rest]; [simpl in Hlen; nia|].
  exists (fold_left np_maximum (map cabs rest) (cabs z0)).
  destruct (fold_maximum_bounds (map cabs rest) (cabs z0)) as [Hin Hle].
  set (score := fold_left np_maximum (map cabs rest) (cabs z0)) in *.
  assert (Hall : forall z, is_eigenvalue (n * n) K z -> (cabs z <= score)%R).
  { intros z Hz. apply Hle. apply Hspec in Hz.
    change (cabs z0 :: map cabs rest) with (map cabs (z0 :: rest)).
    now apply in_map. }
  assert (Hsome : exists z, is_eigenvalue (n * n) K z /\ cabs z = score).
  { change (cabs z0 :: map cabs rest) with (map cabs (z0 :: rest)) in Hin.
    apply in_map_iff in Hin as [z [Hz Hzin]].
    exists z. split; [now apply Hspec | exact Hz]. }
  split.
  { unfold constraint. fold (kron_sum (amat p) (bmat p)). fold K.
    rewrite Heigs. reflexivity. }
  split; [exact Hsome|]. split; [exact Hall|]. split.
  - split.
    + intros Hlt z Hz. specialize (Hall z Hz). lra.
    + intros Hlt. destruct Hsome as [z [Hz <-]]. now apply Hlt.
  - intros eigs' score' delta Hlen' Hnear Hmax.
    destruct eigs' as [|z0' rest']; [discriminate|].
    cbn [map amax] in Hmax. injection Hmax as <-.
    apply fold_maximum_lipschitz.
    + rewrite !length_map. simpl in Hlen'. lia.
    + eapply Rle_trans; [apply cabs_lipschitz|]. apply (Hnear 0). simpl. lia.
    + intros i Hi. rewrite length_map in Hi.
      rewrite (@nth_map_in_range _ _ cabs rest' i (0, 0)%R 0%R)
        by (simpl in Hlen'; lia).
      rewrite (@nth_map_in_range _ _ cabs rest i (0, 0)%R 0%R) by assumption.
      eapply Rle_trans; [apply cabs_lipschitz|].
      apply (Hnear (S i)). simpl. lia.
Qed.

(** In binary64, one series with [A = B = 1/2], where [K] is the matrix
    [1/2]; in exact arithmetic, two series with [A = diag(1/4, -1/2)] and
    [B = diag(0, 1/2)], where [K] is diagonal and its four eigenvalues
    are its diagonal entries [1/16], [-1/8], [-1/8] and [1/2]. *)
Lemma constraint_spectral_radius_witness :
  constraint (E := triangular_eigvals)
    (from_abc [[0.5]]%float [[0.5]]%float None) = Return 0.5%float
  /\ (let n := 2 in
      let p := from_abc [[/ 4; 0]; [0; - / 2]]%R [[0; 0]; [0; / 2]]%R None in
      let K := kron_sum (amat p) (bmat p) in
      let eigs := map (fun d => (d, 0%R)) (diag K) in
      exists score,
        constraint (E := triangular_eigvals) p = Return score
        /\ (exists z, is_eigenvalue (n * n) K z /\ cabs z = score)
        /\ (forall z, is_eigenvalue (n * n) K z -> (cabs z <= score)%R)
        /\ ((score < 1)%R
            <-> forall z, is_eigenvalue (n * n) K z -> (cabs z < 1)%R)
        /\ (forall (eigs' : list (R * R)) (score' delta : R),
              length eigs' = length eigs ->
              (forall i, i < length eigs ->
                 (cdist (nth i eigs' (0, 0)%R) (nth i eigs (0, 0)%R)
                  <= delta)%R) ->
              amax (map cabs eigs') = Return score' ->
              (Rabs (score' - score) <= delta)%R)).
Proof.
  destruct constraint_spectral_radius as [Hany Hexact]. split.
  - destruct (Hany float _ triangular_eigvals 1
                (from_abc [[0.5]]%float [[0.5]]%float None))
      as [_ [_ [Hscore _]]];
      try (split; [reflexivity | repeat constructor]).
    rewrite (Hscore _ eq_refl). vm_compute. reflexivity.
  - assert (Hs : forall a b c d : R, is_shape 2 2 [[a; b]; [c; d]])
      by (intros; split; [reflexivity | repeat constructor]).
    assert (Hd : forall a d : R, is_diagonal 2 [[a; 0]; [0; d]]%R).
    { intros a d i j Hi Hj Hne.
      destruct i as [|[|i]]; destruct j as [|[|j]]; try lia; reflexivity. }
    refine (Hexact triangular_eigvals 2
              (from_abc [[/ 4; 0]; [0; - / 2]]%R [[0; 0]; [0; / 2]]%R None)
              _ _ (Hs _ _ _ _) (Hs _ _ _ _) eq_refl _); [lia|].
    apply diagonal_eigvals.
    + apply zip_with_shape; apply (@kron_shape R _ 2 2 2 2); apply Hs.
    + apply (@kron_sum_diagonal 2); try apply Hs; apply Hd.
Defined.

(** On the second input the score is the largest of the four
    magnitudes, [1/2]. *)
Example constraint_two_series :
  constraint (E := triangular_eigvals)
    (from_abc [[/ 4; 0]; [0; - / 2]]%R [[0; 0]; [0; / 2]]%R None)
  = Return (/ 2)%R.
Proof.
  unfold constraint.
  cbv [from_abc amat bmat kron madd flat_map map app zip_with sl_eigvals
       triangular_eigvals bind diag nrows ncols hd length Nat.min seq entry
       nth amax fold_left fst snd fzero of_Z fadd fmul R_scalar].
  f_equal. rewrite !np_maximum_Rmax, !cabs_R.
  assert (Habs : forall d : R, R_sqrt.sqrt (d * d + 0 * 0) = Rabs d).
  { intros d. replace (d * d + 0 * 0)%R with (Rsqr d) by (unfold Rsqr; ring).
    apply sqrt_Rsqr_abs. }
  rewrite !Habs.
  replace (/ 4 * / 4 + 0 * 0)%R with (/ 16)%R by lra.
  replace (/ 4 * - / 2 + 0 * / 2)%R with (- / 8)%R by lra.
  replace (- / 2 * / 4 + / 2 * 0)%R with (- / 8)%R by lra.
  replace (- / 2 * - / 2 + / 2 * / 2)%R with (/ 2)%R by lra.
  rewrite Rabs_Ropp, !Rabs_pos_eq by lra.
  unfold Rmax. repeat (destruct (Rle_dec _ _); try lra).
Qed.
